(** * DuckDB CLI driver for SQLTools: a shallow embedding of [src/ls/driver.ts]

  The development follows the source file top-down: JavaScript string
  primitives, the statement splitter ([splitSqlStatements]), the executable
  resolver and [open], the query pipeline ([runSingleQuery], [query]) and
  the completion synthesizer ([addKeywordCompletions],
  [addFunctionCompletions]).

  A JavaScript string is modelled as a [string] whose characters are the
  UTF-16 code units below 256; subprocesses, the file system and the id
  generator are oracles over an abstract world, and every call made to them
  is recorded in a trace. *)

From Stdlib Require Import Ascii String List Bool Arith Lia DecimalString.
From stdpp Require Import gmap strings list fin_maps.
Import ListNotations.

Local Open Scope list_scope.
Set Warnings "-register-all".

(** ** JavaScript string primitives *)

Module Js.

(** Characters that cannot be written inside a literal. *)
Definition DQUOTE : ascii := "034"%char.
Definition NEWLINE : ascii := "010"%char.
Definition BACKTICK : ascii := "096"%char.

(** [str(c)]: the one-character string. *)
Definition chr (c : ascii) : string := String c EmptyString.

(** [s === t] on characters and on strings. *)
Definition ceq (a b : ascii) : bool := Ascii.eqb a b.
Definition streq (a b : string) : bool := String.eqb a b.

(** Truthiness of a string: only the empty string is falsy. *)
Definition truthy (s : string) : bool :=
  match s with EmptyString => false | String _ _ => true end.

(** [a || b] on strings. *)
Definition or_else (a b : string) : string := if truthy a then a else b.

(** [x || ''] for an optional string property. *)
Definition opt_or_empty (x : option string) : string :=
  match x with Some s => s | None => EmptyString end.

(** WhiteSpace and LineTerminator code units below 256, the characters
    removed by [String.prototype.trim]: TAB, LF, VT, FF, CR, SP, NBSP. *)
Definition isWhiteSpace (c : ascii) : bool :=
  match nat_of_ascii c with
  | 9 | 10 | 11 | 12 | 13 | 32 | 160 => true
  | _ => false
  end.

Fixpoint trimStart (s : string) : string :=
  match s with
  | EmptyString => EmptyString
  | String c r => if isWhiteSpace c then trimStart r else s
  end.

Fixpoint trimEnd (s : string) : string :=
  match s with
  | EmptyString => EmptyString
  | String c r =>
      match trimEnd r with
      | EmptyString => if isWhiteSpace c then EmptyString else chr c
      | r' => String c r'
      end
  end.

(** [s.trim()] *)
Definition trim (s : string) : string := trimEnd (trimStart s).

(** Every character of the string is white space. *)
Fixpoint blank (s : string) : bool :=
  match s with
  | EmptyString => true
  | String c r => isWhiteSpace c && blank r
  end.

(** The string is empty or starts with a character that is not white
    space. *)
Definition startsClean (s : string) : bool :=
  match s with EmptyString => true | String c _ => negb (isWhiteSpace c) end.

(** [s.toLowerCase()] on code units below 256: A-Z and the Latin-1 capitals
    U+00C0..U+00DE (except the multiplication sign U+00D7) move up by 32. *)
Definition lowerChar (c : ascii) : ascii :=
  let n := nat_of_ascii c in
  if ((65 <=? n) && (n <=? 90)) || ((192 <=? n) && (n <=? 222) && negb (n =? 215))
  then ascii_of_nat (n + 32) else c.

Fixpoint toLowerCase (s : string) : string :=
  match s with
  | EmptyString => EmptyString
  | String c r => String (lowerChar c) (toLowerCase r)
  end.

(** Word characters of a non-unicode regular expression: [[A-Za-z0-9_]]. *)
Definition isWordChar (c : ascii) : bool :=
  let n := nat_of_ascii c in
  ((65 <=? n) && (n <=? 90)) || ((97 <=? n) && (n <=? 122))
  || ((48 <=? n) && (n <=? 57)) || (n =? 95).

(** [parts.join(sep)] *)
Fixpoint join (sep : string) (parts : list string) : string :=
  match parts with
  | [] => EmptyString
  | [p] => p
  | p :: rest => p +:+ sep +:+ join sep rest
  end.

(** [s.startsWith(part)] and [s.includes(part)] *)
Fixpoint startsWith (part s : string) : bool :=
  match part with
  | EmptyString => true
  | String a part' =>
      match s with
      | EmptyString => false
      | String b s' => ceq a b && startsWith part' s'
      end
  end.

Fixpoint includes (part s : string) : bool :=
  startsWith part s
  || match s with
     | EmptyString => false
     | String _ s' => includes part s'
     end.

(** [xs.filter(Boolean)] on strings. *)
Definition filterBoolean (xs : list string) : list string :=
  List.filter truthy xs.

(** [xs.slice(0, n)] *)
Definition slice0 {A} (n : nat) (xs : list A) : list A := firstn n xs.

(** [a < b] on strings: lexicographic order on code units. *)
Definition strLt (a b : string) : bool := String.ltb a b.

(** [String(i)] for an array index. *)
Definition indexToString (i : nat) : string :=
  NilEmpty.string_of_uint (Nat.to_uint i).

(** Values of type [any], as [JSON.parse] builds them. A number is
    represented by what this program can observe of it: its [ToString]
    rendering and whether it is falsy (0, -0 or NaN). The properties of an
    object are listed in enumeration order. *)
Inductive JsValue : Type :=
| JUndefined
| JNull
| JBool (b : bool)
| JNumber (rendering : string) (falsy : bool)
| JString (s : string)
| JArray (items : list JsValue)
| JObject (props : list (string * JsValue)).

(** Truthiness of a value. *)
Definition truthyV (v : JsValue) : bool :=
  match v with
  | JUndefined | JNull => false
  | JBool b => b
  | JNumber _ falsy => negb falsy
  | JString s => truthy s
  | JArray _ | JObject _ => true
  end.

(** [a || b] on values. *)
Definition orV (a b : JsValue) : JsValue := if truthyV a then a else b.

(** [v ?? ''] followed by string conversion is [toStr] below on the
    defined values; [nullish] recognises the others. *)
Definition nullish (v : JsValue) : bool :=
  match v with JUndefined | JNull => true | _ => false end.

(** String conversion of a template literal, [`${v}`]. An array joins its
    elements with a comma, rendering [null] and [undefined] as empty. *)
Fixpoint toStr (v : JsValue) : string :=
  match v with
  | JUndefined => "undefined"
  | JNull => "null"
  | JBool true => "true"
  | JBool false => "false"
  | JNumber rendering _ => rendering
  | JString s => s
  | JArray items =>
      join "," (List.map (fun x => if nullish x then EmptyString else toStr x) items)
  | JObject _ => "[object Object]"
  end.

(** [Array.isArray(v)] *)
Definition isArray (v : JsValue) : bool :=
  match v with JArray _ => true | _ => false end.

(** [0, 1, ..., n-1] as property names. *)
Definition indexKeys (n : nat) : list string :=
  List.map indexToString (List.seq 0 n).

(** [Object.keys(v)]; [None] stands for the [TypeError] raised on [null]
    and [undefined]. *)
Definition objectKeys (v : JsValue) : option (list string) :=
  match v with
  | JUndefined | JNull => None
  | JBool _ | JNumber _ _ => Some []
  | JString s => Some (indexKeys (String.length s))
  | JArray items => Some (indexKeys (List.length items))
  | JObject props => Some (List.map fst props)
  end.

(** The own enumerable properties of an object or array, as pairs
    [(key, value[key])] in the order of [Object.keys]. *)
Definition ownEntries (v : JsValue) : list (string * JsValue) :=
  match v with
  | JArray items => List.combine (indexKeys (List.length items)) items
  | JObject props => props
  | _ => []
  end.

(** [v?.[k]]: a property read that yields [undefined] on anything that is
    not an object holding [k]. *)
Fixpoint lookupProp (k : string) (props : list (string * JsValue)) : JsValue :=
  match props with
  | [] => JUndefined
  | (k', v) :: rest => if streq k' k then v else lookupProp k rest
  end.

Definition getProp (v : JsValue) (k : string) : JsValue :=
  match v with
  | JObject props => lookupProp k props
  | _ => JUndefined
  end.

(** Error objects. [stderr] and [stdout] are [Some] exactly when the
    property holds a string, as on the rejection of [execFile]. *)
Record JsError : Type := mkError {
  name : string;
  message : string;
  stderr : option string;
  stdout : option string;
}.

(** [new Error(msg)] *)
Definition newError (msg : string) : JsError := mkError "Error" msg None None.

(** [error?.message || error], converted to a string: an error whose
    message is empty renders as its name. *)
Definition messageOrError (e : JsError) : string :=
  or_else (message e) (name e).

(** The pure builtins the driver calls and this development leaves open:
    [String.prototype.toUpperCase] (whose results may leave the code units
    below 256) and [JSON.parse] ([inr] carries the message of the
    [SyntaxError]). *)
Class Builtins : Type := {
  toUpperCase : string -> string;
  JSON_parse : string -> JsValue + string;
}.

End Js.

(** ** Statement splitter *)

Module Splitter.
Import Js.

(** The mutable locals of [splitSqlStatements]. *)
Record SplitState : Type := mkSplit {
  statements : list string;
  current : string;
  inSingleQuote : bool;
  inDoubleQuote : bool;
  inLineComment : bool;
  inBlockComment : bool;
}.

Definition initial : SplitState :=
  mkSplit [] EmptyString false false false false.

Definition append (st : SplitState) (s : string) : SplitState :=
  mkSplit (statements st) (current st +:+ s) (inSingleQuote st)
    (inDoubleQuote st) (inLineComment st) (inBlockComment st).

Definition setSingle (b : bool) (st : SplitState) : SplitState :=
  mkSplit (statements st) (current st) b (inDoubleQuote st)
    (inLineComment st) (inBlockComment st).
Definition setDouble (b : bool) (st : SplitState) : SplitState :=
  mkSplit (statements st) (current st) (inSingleQuote st) b
    (inLineComment st) (inBlockComment st).
Definition setLine (b : bool) (st : SplitState) : SplitState :=
  mkSplit (statements st) (current st) (inSingleQuote st)
    (inDoubleQuote st) b (inBlockComment st).
Definition setBlock (b : bool) (st : SplitState) : SplitState :=
  mkSplit (statements st) (current st) (inSingleQuote st)
    (inDoubleQuote st) (inLineComment st) b.

(** [const trimmed = current.trim(); if (trimmed) statements.push(trimmed);]
    on a list of statements. *)
Definition pushTrimmed (stmts : list string) (cur : string) : list string :=
  let trimmed := trim cur in
  if truthy trimmed then stmts ++ [trimmed] else stmts.

(** The branch taken on a top-level [;]. *)
Definition endStatement (st : SplitState) : SplitState :=
  mkSplit (pushTrimmed (statements st) (current st)) EmptyString
    (inSingleQuote st) (inDoubleQuote st) (inLineComment st)
    (inBlockComment st).

(** [next === c], where [next] is [undefined] past the end of the input. *)
Definition nextIs (c : ascii) (next : option ascii) : bool :=
  match next with Some n => ceq n c | None => false end.

(** [current += next] for a [next] that a preceding test found defined. *)
Definition appendNext (st : SplitState) (next : option ascii) : SplitState :=
  match next with Some n => append st (chr n) | None => st end.

(** One iteration of the [for] loop on character [ch] with lookahead
    [next]. The boolean tells whether the iteration ran [i++], consuming
    the lookahead as well. *)
Definition step (st : SplitState) (ch : ascii) (next : option ascii)
  : SplitState * bool :=
  if inLineComment st then
    let st := append st (chr ch) in
    (if ceq ch NEWLINE then setLine false st else st, false)
  else if inBlockComment st then
    let st := append st (chr ch) in
    if ceq ch "*" && nextIs "/" next
    then (setBlock false (appendNext st next), true)
    else (st, false)
  else if inSingleQuote st then
    let st := append st (chr ch) in
    if ceq ch "'" && nextIs "'" next then (appendNext st next, true)
    else (if ceq ch "'" then setSingle false st else st, false)
  else if inDoubleQuote st then
    let st := append st (chr ch) in
    if ceq ch DQUOTE && nextIs DQUOTE next then (appendNext st next, true)
    else (if ceq ch DQUOTE then setDouble false st else st, false)
  else if ceq ch "-" && nextIs "-" next then
    (setLine true (appendNext (append st (chr ch)) next), true)
  else if ceq ch "/" && nextIs "*" next then
    (setBlock true (appendNext (append st (chr ch)) next), true)
  else if ceq ch "'" then (setSingle true (append st (chr ch)), false)
  else if ceq ch DQUOTE then (setDouble true (append st (chr ch)), false)
  else if ceq ch ";" then (endStatement st, false)
  else (append st (chr ch), false).

(** [sqlText[i + 1]] seen from the suffix that starts at [i + 1]. *)
Definition peek (rest : string) : option ascii :=
  match rest with EmptyString => None | String n _ => Some n end.

(** The [for] loop, from index [i] on, over the remaining input. *)
Fixpoint loop (st : SplitState) (sqlText : string) : SplitState :=
  match sqlText with
  | EmptyString => st
  | String ch rest =>
      let '(st', skip) := step st ch (peek rest) in
      if skip then
        match rest with
        | EmptyString => st'
        | String _ rest' => loop st' rest'
        end
      else loop st' rest
  end.

(** The two statements after the loop. *)
Definition finish (st : SplitState) : list string :=
  pushTrimmed (statements st) (current st).

Definition splitSqlStatements (sqlText : string) : list string :=
  finish (loop initial sqlText).

(** *** Notions used to state the properties of the loop *)

(** No flag is set: the scan is outside every quoted region and comment. *)
Definition quiet (st : SplitState) : bool :=
  negb (inLineComment st || inBlockComment st || inSingleQuote st
        || inDoubleQuote st).

(** The iteration on [ch] from state [st] runs the [ch === ';'] branch,
    that is, [ch] is a top-level semicolon. *)
Definition endsStatement (st : SplitState) (ch : ascii) : bool :=
  quiet st && ceq ch ";".

(** The number of top-level semicolons met by the loop on [sqlText]. *)
Fixpoint terminators (st : SplitState) (sqlText : string) : nat :=
  match sqlText with
  | EmptyString => 0
  | String ch rest =>
      let '(st', skip) := step st ch (peek rest) in
      (if endsStatement st ch then 1 else 0)
      + (if skip then
           match rest with
           | EmptyString => 0
           | String _ rest' => terminators st' rest'
           end
         else terminators st' rest)
  end.

(** [s] contains the character [c]. *)
Fixpoint contains (c : ascii) (s : string) : bool :=
  match s with
  | EmptyString => false
  | String a r => ceq a c || contains c r
  end.

(** [s] contains the two characters that close a block comment. *)
Fixpoint hasBlockEnd (s : string) : bool :=
  match s with
  | EmptyString => false
  | String a r => (ceq a "*" && nextIs "/" (peek r)) || hasBlockEnd r
  end.

(** The text between an opening quote [q] and its closing quote: any
    characters other than [q], and doubled [q]s. *)
Fixpoint quotedBody (q : ascii) (s : string) : bool :=
  match s with
  | EmptyString => true
  | String a r =>
      if ceq a q then
        match r with
        | String b r' => ceq b q && quotedBody q r'
        | EmptyString => false
        end
      else quotedBody q r
  end.

(** Every character of [s] is white space or a semicolon. *)
Fixpoint blankOrSemicolon (s : string) : bool :=
  match s with
  | EmptyString => true
  | String a r => (isWhiteSpace a || ceq a ";") && blankOrSemicolon r
  end.

(** A character that belongs to none of the two-character tokens the loop
    looks ahead for. *)
Definition neutral (c : ascii) : bool :=
  negb (ceq c "-" || ceq c "*" || ceq c "/" || ceq c "'" || ceq c DQUOTE).

(** The characters an iteration adds to the accumulator when it does not
    end a statement. *)
Definition consumed (ch : ascii) (next : option ascii) (skip : bool) : string :=
  chr ch +:+ (if skip then match next with Some n => chr n | None => EmptyString end
              else EmptyString).

(** The scan is inside a single-quoted region, inside a double-quoted
    region: the flag is set and no test placed before it in the loop
    fires. *)
Definition inSingle (st : SplitState) : bool :=
  negb (inLineComment st) && negb (inBlockComment st) && inSingleQuote st.
Definition inDouble (st : SplitState) : bool :=
  negb (inLineComment st) && negb (inBlockComment st)
  && negb (inSingleQuote st) && inDoubleQuote st.

(** The state [st] with [stmts] pushed in front of its statements. *)
Definition prepend (stmts : list string) (st : SplitState) : SplitState :=
  mkSplit (stmts ++ statements st) (current st) (inSingleQuote st)
    (inDoubleQuote st) (inLineComment st) (inBlockComment st).

(** The text holds no top-level semicolon and leaves the scan outside
    quotes and comments: a statement that can be followed by a terminator. *)
Definition selfContained (s : string) : bool :=
  (terminators initial s =? 0) && quiet (loop initial s).

(** Each statement followed by a semicolon. *)
Fixpoint joinTerminated (stmts : list string) : string :=
  match stmts with
  | [] => EmptyString
  | s :: rest => s +:+ ";" +:+ joinTerminated rest
  end.

(** The four flags of the loop. *)
Definition flags (st : SplitState) : bool * bool * bool * bool :=
  (inSingleQuote st, inDoubleQuote st, inLineComment st, inBlockComment st).

(** The statements a result of the splitter is made of: non-empty and
    equal to their own trimming. *)
Definition isStatement (s : string) : Prop :=
  truthy s = true /\ trim s = s.

End Splitter.


(** ** Result and completion records of the host ([NSDatabase]) *)

Module NSDatabase.
Import Js.

(** [prepareMessage(text)] of the base driver yields the text with a
    timestamp; the text is what is kept here. *)
Record Message : Type := mkMessage { text : string }.

(** [IResult]. An absent [error] property is [false], an absent [rawError]
    is [None]. *)
Record IResult : Type := mkResult {
  requestId : option string;
  resultId : string;
  connId : string;
  cols : list string;
  messages : list Message;
  query : string;
  results : list JsValue;
  error : bool;
  rawError : option JsError;
}.

Record MarkupContent : Type := mkMarkup { value : string; kind : string }.

(** [IStaticCompletion] *)
Record IStaticCompletion : Type := mkCompletion {
  label : string;
  detail : string;
  filterText : string;
  sortText : string;
  documentation : option MarkupContent;
}.

End NSDatabase.

(** ** Executable resolver, connection handle and query pipeline *)

Module Driver.
Import Js.

Definition LEGACY_DEFAULT_DUCKDB_CLI_PATH_WINDOWS : string :=
  "M:\Programs\duckdb\duckdb.exe".
Definition DUCKDB_CLI_PATH_ENV : string := "DUCKDB_CLI_PATH".

(** [AUTO_EXECUTABLE_CANDIDATES[platform] || ['duckdb']]; [platform] ranges
    over the values of [process.platform]. *)
Definition AUTO_EXECUTABLE_CANDIDATES (platform : string) : list string :=
  if streq platform "win32" then
    [ "duckdb.exe"; LEGACY_DEFAULT_DUCKDB_CLI_PATH_WINDOWS;
      "C:\Program Files\DuckDB\duckdb.exe";
      "C:\Program Files (x86)\DuckDB\duckdb.exe" ]
  else if streq platform "darwin" then
    [ "duckdb"; "/opt/homebrew/bin/duckdb"; "/usr/local/bin/duckdb";
      "/usr/bin/duckdb" ]
  else if streq platform "linux" then
    [ "duckdb"; "/usr/local/bin/duckdb"; "/usr/bin/duckdb"; "/snap/bin/duckdb" ]
  else [ "duckdb" ].

(** [set.add(x)] on a [Set], kept as the list of its elements in insertion
    order. *)
Definition setAdd (x : string) (xs : list string) : list string :=
  if existsb (streq x) xs then xs else xs ++ [x].

(** [new Set(xs)] *)
Definition setOf (xs : list string) : list string :=
  fold_left (fun acc x => setAdd x acc) xs [].

(** The connection settings read by the driver. *)
Inductive ReadOnlySetting : Type :=
| ReadOnlyBool (b : bool)
| ReadOnlyString (s : string)
| ReadOnlyOther.

Record Credentials : Type := mkCredentials {
  database : option string;
  duckdbCliPath : option string;
  duckdbPath : option string;
  readOnly : ReadOnlySetting;
}.

(** [TDuckDBConnection]; its [readOnly] field is [connReadOnly] here, the
    name being taken by the setting above. *)
Record TDuckDBConnection : Type := mkConnection {
  databasePath : string;
  executablePath : string;
  connReadOnly : bool;
}.

(** The settlement of [execFileAsync]. *)
Inductive ExecResult : Type :=
| ExecOk (out : string)
| ExecFail (error : JsError).

(** The environment of the driver. Each operation reads or advances an
    abstract world: the file system, child processes, the process
    environment, the id generator, and the two helpers inherited from the
    base driver and [path] that the source only calls. *)
Class Host (World : Type) : Type := {
  existsSync : World -> string -> bool;
  execFile : World -> string -> list string -> ExecResult * World;
  mkdirSync : World -> string -> option JsError * World;
  createResultId : World -> string * World;
  getEnv : World -> string -> option string;
  platform : World -> string;
  toAbsolutePath : World -> string -> string;
  dirname : string -> string;
}.

(** Calls that leave the driver, in the order they are made. *)
Inductive Event : Type :=
| EvExists (path : string)
| EvExec (exe : string) (args : list string)
| EvMkdir (path : string)
| EvReadEnv (name : string)
| EvResultId.

(** [/[\\/]/.test(c)] *)
Fixpoint hasSeparator (c : string) : bool :=
  match c with
  | EmptyString => false
  | String a r => ceq a "\" || ceq a "/" || hasSeparator r
  end.

Definition isAsciiLetter (a : ascii) : bool :=
  let n := nat_of_ascii a in
  ((65 <=? n) && (n <=? 90)) || ((97 <=? n) && (n <=? 122)).

(** [/^[a-zA-Z]:/.test(c)] *)
Definition hasDriveLetter (c : string) : bool :=
  match c with
  | String a (String b _) => isAsciiLetter a && ceq b ":"
  | _ => false
  end.

Definition isPathLike (candidate : string) : bool :=
  hasSeparator candidate || hasDriveLetter candidate.

(** Case folding of a non-unicode [/i] match against a pattern letter in
    [a-z]: only A-Z fold onto it. *)
Definition foldAscii (c : ascii) : ascii :=
  let n := nat_of_ascii c in
  if (65 <=? n) && (n <=? 90) then ascii_of_nat (n + 32) else c.

(** Matches the lower-case pattern [pat] at the start of [s], ignoring
    case, and returns what follows the match. *)
Fixpoint matchPrefixCI (pat s : string) : option string :=
  match pat with
  | EmptyString => Some s
  | String p pat' =>
      match s with
      | EmptyString => None
      | String c s' => if ceq (foldAscii c) p then matchPrefixCI pat' s' else None
      end
  end.

(** [\b] right after a matched keyword, whose last character is a word
    character: the input ends or goes on with a non-word character. *)
Definition wordBoundary (rest : string) : bool :=
  match rest with
  | EmptyString => true
  | String c _ => negb (isWordChar c)
  end.

Definition RESULT_SET_KEYWORDS : list string :=
  [ "select"; "with"; "pragma"; "show"; "describe"; "call"; "explain";
    "summarize" ].

(** [/^(select|with|pragma|show|describe|call|explain|summarize)\b/i
      .test(query.trim())] *)
Definition isResultSetQuery (query : string) : bool :=
  existsb
    (fun kw =>
       match matchPrefixCI kw (trim query) with
       | Some rest => wordBoundary rest
       | None => false
       end)
    RESULT_SET_KEYWORDS.




(** [this.prepareMessage(text)] *)
Definition prepareMessage (text : string) : NSDatabase.Message :=
  NSDatabase.mkMessage text.

Definition SUCCESS_TEXT : string := "Statement executed successfully.".

(** The calls that validating [path] may make. *)
Definition validationEvent (path : string) (ev : Event) : Prop :=
  ev = EvExists path \/ ev = EvExec path ["--version"].


Section Instance.
Context {World : Type} `{Host World} `{Builtins}.

(** The fields of the driver instance that change, the world it runs in,
    and the calls made so far. *)
Record DriverState : Type := mkState {
  connection : option TDuckDBConnection;
  world : World;
  trace : list Event;
}.

(** The fields fixed at construction. *)
Variable credentials : Credentials.
Variable connId : string.

(** Computations that may throw. *)
Definition M (A : Type) : Type := DriverState -> (JsError + A) * DriverState.

Definition ret {A} (a : A) : M A := fun st => (inr a, st).
Definition throw {A} (e : JsError) : M A := fun st => (inl e, st).
Definition bind {A B} (m : M A) (k : A -> M B) : M B :=
  fun st =>
    match m st with
    | (inl e, st') => (inl e, st')
    | (inr a, st') => k a st'
    end.
(** [try { m } catch (error) { h(error) }] *)
Definition tryCatch {A} (m : M A) (h : JsError -> M A) : M A :=
  fun st =>
    match m st with
    | (inl e, st') => h e st'
    | (inr a, st') => (inr a, st')
    end.

(** A computation that leaves the connection handle as it found it and
    only adds to the trace. *)
Definition keepsConnection {A} (m : M A) : Prop :=
  forall st, connection (snd (m st)) = connection st.

Definition logEvent (ev : Event) (st : DriverState) : DriverState :=
  mkState (connection st) (world st) (trace st ++ [ev]).

(** [fs.existsSync(path)] *)
Definition callExistsSync (path : string) : M bool :=
  fun st => (inr (existsSync (world st) path), logEvent (EvExists path) st).

(** [await execFileAsync(exe, args, ...)], with a rejection returned as a
    value. *)
Definition callExecFile (exe : string) (args : list string) : M ExecResult :=
  fun st =>
    let '(r, w) := execFile (world st) exe args in
    (inr r, mkState (connection st) w (trace st ++ [EvExec exe args])).

(** [fs.mkdirSync(path, { recursive: true })] *)
Definition callMkdirSync (path : string) : M unit :=
  fun st =>
    let '(r, w) := mkdirSync (world st) path in
    let st' := mkState (connection st) w (trace st ++ [EvMkdir path]) in
    match r with
    | Some e => (inl e, st')
    | None => (inr tt, st')
    end.

(** [process.env[name]] *)
Definition readEnv (name : string) : M (option string) :=
  fun st => (inr (getEnv (world st) name), logEvent (EvReadEnv name) st).

(** [this.toAbsolutePath(p)] *)
Definition absolute (p : string) : M string :=
  fun st => (inr (toAbsolutePath (world st) p), st).

Local Notation "'do' x <- m ; k" := (bind m (fun x => k))
  (at level 10, x name, m at level 100, k at level 200).
Local Notation "'run' m ; k" := (bind m (fun _ => k))
  (at level 10, m at level 100, k at level 200).

(** [getDatabase] *)
Definition getDatabase : M string :=
  absolute (or_else (opt_or_empty (database credentials)) ":memory:").

(** The tail shared by [getConfiguredExecutablePath] and
    [getEnvironmentExecutablePath]. *)
Definition absoluteIfPathLike (p : string) : M string :=
  if negb (truthy p) then ret EmptyString
  else if isPathLike p then absolute p
  else ret p.

Definition getConfiguredExecutablePath : M string :=
  absoluteIfPathLike
    (trim (or_else (opt_or_empty (duckdbCliPath credentials))
             (or_else (opt_or_empty (duckdbPath credentials)) EmptyString))).

Definition getEnvironmentExecutablePath : M string :=
  do v <- readEnv DUCKDB_CLI_PATH_ENV ;
  absoluteIfPathLike (trim (or_else (opt_or_empty v) EmptyString)).

Definition getAutoExecutableCandidates (st : DriverState) : list string :=
  let p := platform (world st) in
  setAdd (if streq p "win32" then "duckdb.exe" else "duckdb")
    (setOf (AUTO_EXECUTABLE_CANDIDATES p)).

(** The message built in the [catch] of [validateExecutablePath]. *)
Definition validationFailure (error : JsError) : string :=
  let stderr := match stderr error with Some s => trim s | None => EmptyString end in
  or_else stderr (or_else (message error) "Failed to execute DuckDB CLI.").

Definition validateExecutablePath (executablePath : string) : M unit :=
  do missing <- (if isPathLike executablePath
                 then (do e <- callExistsSync executablePath ; ret (negb e))
                 else ret false) ;
  if (missing : bool) then
    throw (newError ("DuckDB executable not found at " +:+ chr DQUOTE
                     +:+ executablePath +:+ chr DQUOTE +:+ "."))
  else
    do r <- callExecFile executablePath ["--version"] ;
    match r with
    | ExecOk _ => ret tt
    | ExecFail error =>
        throw (newError ("DuckDB CLI validation failed. " +:+ validationFailure error))
    end.

Definition invalidConfigured (configuredPath : string) (error : JsError) : JsError :=
  newError (join " "
    [ "Invalid " +:+ chr DQUOTE +:+ "duckdbCliPath" +:+ chr DQUOTE +:+ " / "
      +:+ chr DQUOTE +:+ "duckdbPath" +:+ chr DQUOTE +:+ ": " +:+ chr DQUOTE
      +:+ configuredPath +:+ chr DQUOTE +:+ ".";
      messageOrError error ]).

Definition invalidEnvironment (environmentPath : string) (error : JsError) : JsError :=
  newError (join " "
    [ "Invalid environment variable " +:+ DUCKDB_CLI_PATH_ENV +:+ ": "
      +:+ chr DQUOTE +:+ environmentPath +:+ chr DQUOTE +:+ ".";
      messageOrError error ]).

(** The [for] loop over the auto-discovery candidates; [attempts] is the
    list of failures so far. The result is the first candidate that
    validates, or every recorded attempt. *)
Fixpoint tryCandidates (candidates attempts : list string)
  : M (string + list string) :=
  match candidates with
  | [] => ret (inr attempts)
  | candidate :: rest =>
      fun st =>
        match validateExecutablePath candidate st with
        | (inr _, st') => (inr (inl candidate), st')
        | (inl error, st') =>
            tryCandidates rest
              (attempts ++ [candidate +:+ " -> " +:+ messageOrError error]) st'
        end
  end.

Definition notFound (attempts : list string) : JsError :=
  let attemptedMessage :=
    match attempts with
    | [] => EmptyString
    | _ => " Attempted: " +:+ join " | " (slice0 5 attempts)
    end in
  newError (join " "
    [ "DuckDB CLI executable was not found.";
      "Set " +:+ chr DQUOTE +:+ "duckdbCliPath" +:+ chr DQUOTE
      +:+ " in the connection settings or add " +:+ chr DQUOTE +:+ "duckdb"
      +:+ chr DQUOTE +:+ " to your PATH." +:+ attemptedMessage ]).

Definition resolveExecutablePath : M string :=
  do configuredPath <- getConfiguredExecutablePath ;
  if truthy configuredPath then
    tryCatch (run validateExecutablePath configuredPath ; ret configuredPath)
      (fun error => throw (invalidConfigured configuredPath error))
  else
    do environmentPath <- getEnvironmentExecutablePath ;
    if truthy environmentPath then
      tryCatch (run validateExecutablePath environmentPath ; ret environmentPath)
        (fun error => throw (invalidEnvironment environmentPath error))
    else
      fun st =>
        (do r <- tryCandidates (getAutoExecutableCandidates st) [] ;
         match r with
         | inl candidate => ret candidate
         | inr attempts => throw (notFound attempts)
         end) st.

Definition isReadOnlyEnabled : bool :=
  match readOnly credentials with
  | ReadOnlyBool b => b
  | ReadOnlyString s =>
      existsb (streq (toLowerCase (trim s))) ["1"; "true"; "yes"; "enabled"; "on"]
  | ReadOnlyOther => false
  end.

Definition isMemory (database : string) : bool :=
  streq (toLowerCase database) ":memory:".

Definition createDirIfNotExists (database : string) (readOnly : bool) : M unit :=
  if isMemory database then ret tt
  else if readOnly then
    do e <- callExistsSync database ;
    if (e : bool) then ret tt
    else throw (newError ("Database file not found for read-only mode: "
                          +:+ chr DQUOTE +:+ database +:+ chr DQUOTE))
  else callMkdirSync (dirname database).

Definition readOnlyMemoryError : JsError :=
  newError ("Read-only mode is not supported with " +:+ chr DQUOTE
            +:+ ":memory:" +:+ chr DQUOTE +:+ " database.").

Definition setConnection (c : TDuckDBConnection) : M unit :=
  fun st => (inr tt, mkState (Some c) (world st) (trace st)).

Definition open : M TDuckDBConnection :=
  fun st =>
    match connection st with
    | Some c => (inr c, st)
    | None =>
        (do executablePath <- resolveExecutablePath ;
         do databasePath <- getDatabase ;
         let readOnly := isReadOnlyEnabled in
         if readOnly && isMemory databasePath then throw readOnlyMemoryError
         else
           run createDirIfNotExists databasePath readOnly ;
           let c := mkConnection databasePath executablePath readOnly in
           run setConnection c ; ret c) st
    end.

(** [createResultId()] *)
Definition callCreateResultId : M string :=
  fun st =>
    let '(id, w) := createResultId (world st) in
    (inr id, mkState (connection st) w (trace st ++ [EvResultId])).

(** The reason extracted in the [catch] of [runSingleQuery]. *)
Definition queryFailure (error : JsError) : string :=
  let stderr := match stderr error with Some s => trim s | None => EmptyString end in
  let stdout := match stdout error with Some s => trim s | None => EmptyString end in
  or_else stderr
    (or_else stdout (or_else (message error) "DuckDB CLI query failed.")).

Definition cliArguments (c : TDuckDBConnection) (query : string) : list string :=
  [databasePath c] ++ (if connReadOnly c then ["-readonly"] else [])
  ++ ["-json"; "-c"; query].

Definition runSingleQuery (query : string) : M (list JsValue) :=
  do c <- open ;
  do r <- callExecFile (executablePath c) (cliArguments c query) ;
  match r with
  | ExecOk stdout =>
      if negb (truthy stdout) || negb (truthy (trim stdout)) then ret []
      else
        match JSON_parse stdout with
        | inl (JArray rows) => ret rows
        | inl parsed => ret [parsed]
        | inr msg =>
            throw (newError (queryFailure (mkError "SyntaxError" msg None None)))
        end
  | ExecFail error => throw (newError (queryFailure error))
  end.

Definition keysTypeError : JsError :=
  mkError "TypeError" "Cannot convert undefined or null to object" None None.

(** The body of the [try] in [query]: the result pushed for statement [q]. *)
Definition successResult (requestId : option string) (q : string)
  : M NSDatabase.IResult :=
  do results <- runSingleQuery q ;
  let messages :=
    if (List.length results =? 0) && negb (isResultSetQuery q)
    then [prepareMessage SUCCESS_TEXT] else [] in
  do resultId <- callCreateResultId ;
  do cols <- match results with
             | [] => ret []
             | first :: _ =>
                 match objectKeys first with
                 | Some keys => ret keys
                 | None => throw keysTypeError
                 end
             end ;
  ret (NSDatabase.mkResult requestId resultId connId cols messages q results
         false None).

(** The result pushed in the [catch] of [query]. *)
Definition errorResult (requestId : option string) (q : string) (error : JsError)
  : M NSDatabase.IResult :=
  do resultId <- callCreateResultId ;
  ret (NSDatabase.mkResult requestId resultId connId []
         [prepareMessage (messageOrError error)] q [] true (Some error)).

(** The [for] loop of [query] over the statements still to run. *)
Fixpoint runStatements (requestId : option string) (queries : list string)
  (resultsAgg : list NSDatabase.IResult) : M (list NSDatabase.IResult) :=
  match queries with
  | [] => ret resultsAgg
  | q :: rest =>
      fun st =>
        match successResult requestId q st with
        | (inr r, st') => runStatements requestId rest (resultsAgg ++ [r]) st'
        | (inl error, st') =>
            (do r <- errorResult requestId q error ; ret (resultsAgg ++ [r])) st'
        end
  end.

Definition query (sqlText : string) (requestId : option string)
  : M (list NSDatabase.IResult) :=
  let queries := filterBoolean (Splitter.splitSqlStatements sqlText) in
  runStatements requestId queries [].

(** [testConnection] *)
Definition testConnection : M unit :=
  run open ;
  run query "SELECT 1" None ;
  ret tt.

(** *** Notions used to state the properties of the driver *)

(** Every call the computation [m] makes satisfies [P]. *)
Definition emits {A} (P : Event -> Prop) (m : M A) : Prop :=
  forall st,
    exists evs, trace (snd (m st)) = trace st ++ evs /\ Forall P evs.

(** The handle is one that [open] builds from the settings. *)
Definition handleOf (c : TDuckDBConnection) : Prop :=
  connReadOnly c = isReadOnlyEnabled
  /\ (connReadOnly c && isMemory (databasePath c) = false)
  /\ exists w,
       databasePath c
       = toAbsolutePath w (or_else (opt_or_empty (database credentials)) ":memory:").

End Instance.

(** What the result [r] pushed for statement [q] holds, given the outcome
    [run] of [runSingleQuery] on [q]: after a failure, an error result with
    no rows and the text of the error as its one message; after zero rows,
    no rows and no message when the leading keyword of [q] is one of the
    eight, and the one success message otherwise; after rows, the rows and
    their columns without message, or the error result of the [TypeError]
    when the first row has no keys to read. *)
Definition failed (e : JsError) (r : NSDatabase.IResult) : Prop :=
  NSDatabase.error r = true /\ NSDatabase.results r = []
  /\ NSDatabase.cols r = []
  /\ NSDatabase.messages r = [prepareMessage (messageOrError e)]
  /\ NSDatabase.rawError r = Some e.


(** The calls of the resolver: validations and the read of the
    environment variable. *)
Definition resolverEvent (ev : Event) : Prop :=
  (exists path, validationEvent path ev) \/ ev = EvReadEnv DUCKDB_CLI_PATH_ENV.

Definition isExecEvent (ev : Event) : bool :=
  match ev with EvExec _ _ => true | _ => false end.

Definition isMkdirEvent (ev : Event) : bool :=
  match ev with EvMkdir _ => true | _ => false end.

(** The spawn that runs statement [q] on the connection [c]. *)
Definition statementSpawn (c : TDuckDBConnection) (q : string) : Event :=
  EvExec (executablePath c) (cliArguments c q).

End Driver.

(** ** Completion synthesizer *)

Module FunctionRow.
Import Js.

(** [TDynamicFunctionRow]: the typed properties are strings or absent, the
    untyped ones are arbitrary values. *)
Record t : Type := mk {
  label : option string;
  name : option string;
  category : option string;
  functionType : option string;
  type : option string;
  description : option string;
  returnType : option string;
  return_type : option string;
  parameters : JsValue;
  parameterTypes : JsValue;
  parameter_types : JsValue;
  tags : JsValue;
}.

End FunctionRow.

Module Meta.

(** [TFunctionCompletionMeta]; each [Set] is the list of its elements in
    insertion order. *)
Record t : Type := mk {
  categories : list string;
  returnTypes : list string;
  signatures : list string;
  tags : list string;
  description : string;
}.

Definition empty : t := mk [] [] [] [] EmptyString.

End Meta.

Module Completion.
Import Js.

Definition PRIORITIZED_SQL_WORDS : list string :=
  ["SELECT"; "CREATE"; "UPDATE"; "DELETE"].

(** [PRIORITIZED_SQL_WORDS.has(label)] *)
Definition isPrioritized (label : string) : bool :=
  existsb (streq label) PRIORITIZED_SQL_WORDS.

Definition NL : string := chr NEWLINE.
Definition FENCE : string := "```".

(** An optional string property as a value. *)
Definition optV (x : option string) : JsValue :=
  match x with Some s => JString s | None => JUndefined end.

(** [`${v ?? ''}`] *)
Definition toStrOrEmpty (v : JsValue) : string :=
  if nullish v then EmptyString else toStr v.

Definition isUpperOrUnderscore (c : ascii) : bool :=
  let n := nat_of_ascii c in ((65 <=? n) && (n <=? 90)) || (n =? 95).

Definition isUpperDigitOrUnderscore (c : ascii) : bool :=
  let n := nat_of_ascii c in
  ((65 <=? n) && (n <=? 90)) || ((48 <=? n) && (n <=? 57)) || (n =? 95).

Fixpoint allChars (p : ascii -> bool) (s : string) : bool :=
  match s with
  | EmptyString => true
  | String c r => p c && allChars p r
  end.

(** [/^[A-Z_][A-Z0-9_]*$/.test(label)] *)
Definition isIdentifier (label : string) : bool :=
  match label with
  | EmptyString => false
  | String c r => isUpperOrUnderscore c && allChars isUpperDigitOrUnderscore r
  end.

(** [s.split(',')] *)
Fixpoint splitComma (s : string) : list string :=
  match s with
  | EmptyString => [EmptyString]
  | String c r =>
      if ceq c "," then EmptyString :: splitComma r
      else
        match splitComma r with
        | [] => [chr c]
        | first :: others => String c first :: others
        end
  end.

Definition isQuoteChar (c : ascii) : bool := ceq c "'" || ceq c DQUOTE.

Fixpoint lastChar (s : string) : option ascii :=
  match s with
  | EmptyString => None
  | String c EmptyString => Some c
  | String _ r => lastChar r
  end.

Fixpoint dropLast (s : string) : string :=
  match s with
  | EmptyString => EmptyString
  | String _ EmptyString => EmptyString
  | String c r => String c (dropLast r)
  end.

(** [s.replace(/^['dq]|['dq]$/g, '')], where dq is the double quote. *)
Definition stripQuotes (s : string) : string :=
  let s1 := match s with
            | String c r => if isQuoteChar c then r else s
            | EmptyString => s
            end in
  match lastChar s1 with
  | Some c => if isQuoteChar c then dropLast s1 else s1
  | None => s1
  end.

(** [s.slice(1, -1)] *)
Definition sliceInner (s : string) : string :=
  match s with
  | EmptyString => EmptyString
  | String _ r => dropLast r
  end.

(** [trimmed[0] === '[' && trimmed[trimmed.length - 1] === ']'] *)
Definition isBracketed (trimmed : string) : bool :=
  match trimmed, lastChar trimmed with
  | String c _, Some d => ceq c "[" && ceq d "]"
  | _, _ => false
  end.

Definition toStringArray (value : JsValue) : list string :=
  match value with
  | JArray items =>
      filterBoolean (List.map (fun item => trim (toStrOrEmpty item)) items)
  | JString s =>
      let trimmed := trim s in
      if negb (truthy trimmed) then []
      else if isBracketed trimmed then
        let inner := trim (sliceInner trimmed) in
        if negb (truthy inner) then []
        else filterBoolean
               (List.map (fun item => stripQuotes (trim item)) (splitComma inner))
      else [trimmed]
  | _ => []
  end.

(** [parameterNames[index] || ''] *)
Definition at_ (xs : list string) (index : nat) : string :=
  nth index xs EmptyString.

(** The rendered parameters of one signature. *)
Definition signatureParams (parameterNames parameterTypes : list string)
  : list string :=
  filterBoolean
    (List.map
       (fun index =>
          let parameterName := at_ parameterNames index in
          let parameterType := at_ parameterTypes index in
          if truthy parameterName && truthy parameterType
             && negb (streq parameterName parameterType)
          then parameterName +:+ ": " +:+ parameterType
          else or_else parameterName parameterType)
       (List.seq 0 (Nat.max (List.length parameterNames)
                      (List.length parameterTypes)))).

(** [functionMetaByLabel.get(label)] on a [Map] kept as the list of its
    entries in insertion order. *)
Fixpoint mapGet (label : string) (m : list (string * Meta.t)) : option Meta.t :=
  match m with
  | [] => None
  | (k, v) :: rest => if streq k label then Some v else mapGet label rest
  end.

(** [functionMetaByLabel.set(label, meta)]: an existing key keeps its place. *)
Fixpoint mapSet (label : string) (meta : Meta.t) (m : list (string * Meta.t))
  : list (string * Meta.t) :=
  match m with
  | [] => [(label, meta)]
  | (k, v) :: rest =>
      if streq k label then (k, meta) :: rest else (k, v) :: mapSet label meta rest
  end.

Section Synthesizer.
Context `{Builtins}.

Definition normalizeCompletionLabel (value : JsValue) : option string :=
  let label := toUpperCase (trim (toStr (orV value (JString EmptyString)))) in
  if negb (truthy label) then None
  else if negb (isIdentifier label) then None
  else Some label.

(** [toTagArray], with the recursion through [JSON.parse] bounded by
    [fuel]. A string that parses to a string parses to a shorter one, so
    the bound of [toTagArray] below is never reached. *)
Fixpoint toTagArrayFuel (fuel : nat) (value : JsValue) : list string :=
  if negb (truthyV value) then []
  else
    match value with
    | JString s =>
        let trimmed := trim s in
        if negb (truthy trimmed) then []
        else
          match JSON_parse trimmed, fuel with
          | inl parsed, S fuel' => toTagArrayFuel fuel' parsed
          | _, _ => [trimmed]
          end
    | JArray _ | JObject _ =>
        filterBoolean
          (List.map
             (fun '(key, v) =>
                let stringVal := trim (toStrOrEmpty v) in
                if truthy stringVal then key +:+ "=" +:+ stringVal else key)
             (ownEntries value))
    | _ => []
    end.

Definition tagFuel (value : JsValue) : nat :=
  match value with JString s => S (String.length s) | _ => 1 end.

Definition toTagArray (value : JsValue) : list string :=
  toTagArrayFuel (tagFuel value) value.

(** The documentation written for a keyword. *)
Definition keywordDoc (label category : string) : string :=
  FENCE +:+ "yaml" +:+ NL +:+ "WORD: " +:+ label +:+ NL +:+ "TYPE: "
  +:+ category +:+ NL +:+ FENCE.

Definition keywordSortText (label : string) : string :=
  (if isPrioritized label then "2:" else "4:") +:+ label.

Definition keywordEntry (label category : string) : NSDatabase.IStaticCompletion :=
  NSDatabase.mkCompletion label label label (keywordSortText label)
    (Some (NSDatabase.mkMarkup (keywordDoc label category) "markdown")).

(** The callback of [items.forEach] in [addKeywordCompletions]. *)
Definition addKeyword (completions : gmap string NSDatabase.IStaticCompletion)
  (item : JsValue) : gmap string NSDatabase.IStaticCompletion :=
  match normalizeCompletionLabel (getProp item "label") with
  | None => completions
  | Some label =>
      let category :=
        toUpperCase (trim (toStr (orV (getProp item "category")
                                    (JString "KEYWORD")))) in
      <[label := keywordEntry label category]> completions
  end.

Definition addKeywordCompletions (items : list JsValue)
  (completions : gmap string NSDatabase.IStaticCompletion)
  : gmap string NSDatabase.IStaticCompletion :=
  fold_left addKeyword items completions.

(** What one source row contributes, as computed at the top of the first
    [forEach] callback of [addFunctionCompletions]. *)
Definition rowLabel (item : FunctionRow.t) : option string :=
  normalizeCompletionLabel
    (orV (optV (FunctionRow.label item)) (optV (FunctionRow.name item))).

Definition rowCategory (item : FunctionRow.t) : string :=
  or_else
    (toUpperCase
       (trim (toStr (orV (optV (FunctionRow.category item))
                       (orV (optV (FunctionRow.functionType item))
                          (orV (optV (FunctionRow.type item))
                             (JString "FUNCTION")))))))
    "FUNCTION".

Definition rowReturnType (item : FunctionRow.t) : string :=
  trim (toStr (orV (optV (FunctionRow.returnType item))
                 (orV (optV (FunctionRow.return_type item))
                    (JString EmptyString)))).

Definition rowDescription (item : FunctionRow.t) : string :=
  trim (toStr (orV (optV (FunctionRow.description item)) (JString EmptyString))).

Definition rowSignatureParams (item : FunctionRow.t) : list string :=
  signatureParams (toStringArray (FunctionRow.parameters item))
    (toStringArray (orV (FunctionRow.parameterTypes item)
                      (FunctionRow.parameter_types item))).

Definition rowSignature (label : string) (item : FunctionRow.t) : string :=
  label +:+ "(" +:+ join ", " (rowSignatureParams item) +:+ ")".

Definition rowTags (item : FunctionRow.t) : list string :=
  toTagArray (FunctionRow.tags item).

(** The updates made to [currentMeta] for one row. *)
Definition mergeRow (label : string) (item : FunctionRow.t) (currentMeta : Meta.t)
  : Meta.t :=
  let returnType := rowReturnType item in
  let description := rowDescription item in
  Meta.mk
    (Driver.setAdd (rowCategory item) (Meta.categories currentMeta))
    (if truthy returnType
     then Driver.setAdd returnType (Meta.returnTypes currentMeta)
     else Meta.returnTypes currentMeta)
    (match rowSignatureParams item with
     | [] => Meta.signatures currentMeta
     | _ => Driver.setAdd (rowSignature label item) (Meta.signatures currentMeta)
     end)
    (fold_left (fun acc tag => Driver.setAdd tag acc) (rowTags item)
       (Meta.tags currentMeta))
    (if negb (truthy (Meta.description currentMeta)) && truthy description
     then description else Meta.description currentMeta).

(** The first [forEach] callback. *)
Definition accumulate (functionMetaByLabel : list (string * Meta.t))
  (item : FunctionRow.t) : list (string * Meta.t) :=
  match rowLabel item with
  | None => functionMetaByLabel
  | Some label =>
      let currentMeta :=
        match mapGet label functionMetaByLabel with
        | Some meta => meta
        | None => Meta.empty
        end in
      mapSet label (mergeRow label item currentMeta) functionMetaByLabel
  end.

Definition groupRows (items : list FunctionRow.t) : list (string * Meta.t) :=
  fold_left accumulate items [].

(** [docValue] of the second [forEach] callback. *)
Definition docValue (label : string) (meta : Meta.t) : string :=
  let categories := Meta.categories meta in
  let returnTypes := slice0 3 (Meta.returnTypes meta) in
  let tags := slice0 6 (Meta.tags meta) in
  let signatures := slice0 8 (Meta.signatures meta) in
  let yamlLines :=
    [ FENCE +:+ "yaml"; "WORD: " +:+ label;
      "TYPE: " +:+ or_else (join ", " categories) "FUNCTION" ]
    ++ (match returnTypes with
        | [] => []
        | _ => ["RETURNS: " +:+ join ", " returnTypes]
        end)
    ++ (match tags with [] => [] | _ => ["TAGS: " +:+ join ", " tags] end)
    ++ [FENCE] in
  let signatureBlock :=
    match signatures with
    | [] => EmptyString
    | _ =>
        NL +:+ NL +:+ "Signatures:" +:+ NL
        +:+ join NL
              (List.map
                 (fun signature =>
                    "- " +:+ chr BACKTICK +:+ signature +:+ chr BACKTICK)
                 signatures)
    end in
  let descriptionBlock :=
    if truthy (Meta.description meta)
    then NL +:+ NL +:+ Meta.description meta else EmptyString in
  join NL yamlLines +:+ signatureBlock +:+ descriptionBlock.

(** The documentation value written over an existing entry. *)
Definition mergedDoc (existing : NSDatabase.IStaticCompletion) (doc : string)
  : string :=
  let existingDocumentation :=
    trim (match NSDatabase.documentation existing with
          | Some d => or_else (NSDatabase.value d) EmptyString
          | None => EmptyString
          end) in
  if truthy existingDocumentation
  then existingDocumentation +:+ NL +:+ NL +:+ doc else doc.

Definition functionEntry (label : string) (meta : Meta.t)
  : NSDatabase.IStaticCompletion :=
  NSDatabase.mkCompletion label
    (match slice0 8 (Meta.signatures meta) with
     | first :: _ => or_else first (label +:+ "(...)")
     | [] => label +:+ "(...)"
     end)
    label ("3:" +:+ label)
    (Some (NSDatabase.mkMarkup (docValue label meta) "markdown")).

(** The second [forEach] callback. *)
Definition publish (completions : gmap string NSDatabase.IStaticCompletion)
  (entry : string * Meta.t) : gmap string NSDatabase.IStaticCompletion :=
  let '(label, meta) := entry in
  match completions !! label with
  | Some existing =>
      <[label := NSDatabase.mkCompletion (NSDatabase.label existing)
                   (NSDatabase.detail existing) (NSDatabase.filterText existing)
                   (NSDatabase.sortText existing)
                   (Some (NSDatabase.mkMarkup
                            (mergedDoc existing (docValue label meta))
                            "markdown"))]> completions
  | None => <[label := functionEntry label meta]> completions
  end.

Definition addFunctionCompletions (items : list FunctionRow.t)
  (completions : gmap string NSDatabase.IStaticCompletion)
  : gmap string NSDatabase.IStaticCompletion :=
  fold_left publish (groupRows items) completions.

(** *** Notions used to state the properties of the synthesizer *)

(** [label] is the normalized label of one of the keyword rows. *)
Definition keywordLabel (items : list JsValue) (label : string) : Prop :=
  exists item,
    In item items /\ normalizeCompletionLabel (getProp item "label") = Some label.








(** Every entry of the index is stored under its own label, an
    identifier, which is also its filter text. *)
Definition wellKeyed (completions : gmap string NSDatabase.IStaticCompletion)
  : Prop :=
  forall key entry,
    completions !! key = Some entry ->
    isIdentifier key = true
    /\ NSDatabase.label entry = key
    /\ NSDatabase.filterText entry = key.


(** The entry left at a label that [existing] already owned. *)
Definition documented (existing : NSDatabase.IStaticCompletion) (doc : string)
  : NSDatabase.IStaticCompletion :=
  NSDatabase.mkCompletion (NSDatabase.label existing)
    (NSDatabase.detail existing) (NSDatabase.filterText existing)
    (NSDatabase.sortText existing)
    (Some (NSDatabase.mkMarkup (mergedDoc existing doc) "markdown")).

End Synthesizer.
End Completion.

(** ** Query texts ([src/ls/queries.ts]) *)

Module Queries.
Import Js.

(** [s.replace(/q/g, qq)]: every occurrence of the character [q] doubled. *)
Fixpoint doubleChar (q : ascii) (s : string) : string :=
  match s with
  | EmptyString => EmptyString
  | String a r =>
      if ceq a q then String q (String q (doubleChar q r))
      else String a (doubleChar q r)
  end.

Definition escapeIdentifier (identifier : string) : string :=
  chr DQUOTE +:+ doubleChar DQUOTE identifier +:+ chr DQUOTE.

Definition escapeLiteral (value : string) : string := doubleChar "'" value.

(** The properties of a table that the query texts read; [rendering] is
    what [table.toString()] returns. *)
Record Table : Type := mkTable {
  label : option string;
  schema : option string;
  rendering : string;
}.

Definition resolveTableSchema (table : Table) : string :=
  or_else (opt_or_empty (schema table)) "main".

Definition resolveTableName (table : Table) : string :=
  or_else (opt_or_empty (label table)) (rendering table).

Definition escapeTableName (table : Table) : string :=
  escapeIdentifier (resolveTableSchema table) +:+ "."
  +:+ escapeIdentifier (resolveTableName table).

(** The quoted, lower-cased label of a table in the list of
    [filterTableList]. *)
Definition quotedLabel (t : Table) : string :=
  "'" +:+ escapeLiteral (toLowerCase (opt_or_empty (label t))) +:+ "'".

Definition filterTableList (tables : list Table) : string :=
  let validTables :=
    List.filter (fun t => truthy (opt_or_empty (label t))) tables in
  match validTables with
  | [] => EmptyString
  | _ =>
      "AND LOWER(C.table_name) IN (" +:+ join ", " (List.map quotedLabel validTables)
      +:+ ")"
  end.

(** Text without semicolon and without any character of the tokens the
    splitter looks for. *)
Fixpoint plain (s : string) : bool :=
  match s with
  | EmptyString => true
  | String a r => Splitter.neutral a && negb (ceq a ";") && plain r
  end.

End Queries.

(** ** A concrete environment

    A Linux host on which the command [duckdb] is on the search path and
    nothing else is installed. The CLI rejects the statement [SELECT boom],
    prints [null] for [SELECT null], and prints an empty result for every
    other statement. The world counts the result ids handed out. *)

Module Demo.
Import Js Driver.

Definition upperChar (c : ascii) : ascii :=
  let n := nat_of_ascii c in
  if (97 <=? n) && (n <=? 122) then ascii_of_nat (n - 32) else c.

(** [toUpperCase] on ASCII text. *)
Fixpoint upper (s : string) : string :=
  match s with
  | EmptyString => EmptyString
  | String c r => String (upperChar c) (upper r)
  end.

(** [JSON.parse] on the three outputs of this CLI. *)
Definition parse (s : string) : JsValue + string :=
  if streq (trim s) "[]" then inl (JArray [])
  else if streq (trim s) "null" then inl JNull
  else inr "Unexpected token in JSON".

#[export] Instance builtins : Builtins :=
  {| toUpperCase := upper; JSON_parse := parse |}.

Definition boom : JsError :=
  mkError "Error" "Command failed: duckdb" (Some "Parser Error: boom") (Some EmptyString).

Definition enoent : JsError := mkError "Error" "spawn ENOENT" None None.

Definition exec (w : nat) (exe : string) (args : list string) : ExecResult * nat :=
  if streq exe "duckdb" then
    match List.last args EmptyString with
    | "--version" => (ExecOk "v1.1.0", w)
    | "SELECT boom" => (ExecFail boom, w)
    | "SELECT null" => (ExecOk "null", w)
    | _ => (ExecOk "[]", w)
    end
  else (ExecFail enoent, w).

#[export] Instance host : Host nat :=
  {| existsSync := fun _ _ => false;
     execFile := exec;
     mkdirSync := fun w _ => (None, w);
     createResultId := fun w => ("id-" +:+ indexToString w, S w);
     getEnv := fun _ _ => None;
     platform := fun _ => "linux";
     toAbsolutePath := fun _ p => p;
     dirname := fun p => p |}.

Definition start : DriverState := mkState None 0 [].

(** Settings: the defaults, read-only on the in-memory database, and an
    explicit path to a missing executable. *)
Definition defaults : Credentials :=
  mkCredentials None None None ReadOnlyOther.
Definition readOnlyMemory : Credentials :=
  mkCredentials (Some ":memory:") None None (ReadOnlyBool true).
Definition missingCli : Credentials :=
  mkCredentials None (Some "/opt/none/duckdb") None ReadOnlyOther.

(** The run of [SELECT 1; SELECT boom; SELECT 3] under [defaults]: the
    result of the first statement, the state it leaves, the state in which
    the second statement fails, and its error. *)
Definition memoryConnection : TDuckDBConnection :=
  mkConnection ":memory:" "duckdb" false.

Definition firstResults : list NSDatabase.IResult :=
  [NSDatabase.mkResult None "id-0" "c1" [] [] "SELECT 1" [] false None].

Definition afterFirst : DriverState :=
  mkState (Some memoryConnection) 1
    [ EvReadEnv DUCKDB_CLI_PATH_ENV; EvExec "duckdb" ["--version"];
      EvExec "duckdb" [":memory:"; "-json"; "-c"; "SELECT 1"]; EvResultId ].

Definition afterFailure : DriverState :=
  mkState (Some memoryConnection) 1
    (trace afterFirst
     ++ [EvExec "duckdb" [":memory:"; "-json"; "-c"; "SELECT boom"]]).

Definition boomError : JsError := newError "Parser Error: boom".

Definition missingError : JsError :=
  newError ("DuckDB executable not found at " +:+ chr DQUOTE
            +:+ "/opt/none/duckdb" +:+ chr DQUOTE +:+ ".").

Definition afterMissing : DriverState :=
  mkState None 0 [EvExists "/opt/none/duckdb"].

(** Rows of the two introspection queries. *)
Definition keywordRow (label category : string) : JsValue :=
  JObject [("label", JString label); ("category", JString category)].

Definition functionRow (label : string) (parameters : list string)
  : FunctionRow.t :=
  FunctionRow.mk (Some label) None (Some "SCALAR") None None None None None
    (JArray (List.map JString parameters)) JUndefined JUndefined JUndefined.

Definition keywordRows : list JsValue :=
  [keywordRow "SELECT" "RESERVED"; keywordRow "ABORT" "UNRESERVED"].

(** Two overloads of one function, a function with and without a
    parameter, and a function named like a keyword. *)
Definition absRows : list FunctionRow.t :=
  [functionRow "abs" ["x"]; functionRow "abs" ["x"; "y"]].
Definition abortRows : list FunctionRow.t := [functionRow "abort" ["y"]].

(** Nine overloads of one function, each with its own parameter. *)
Definition nineRows : list FunctionRow.t :=
  List.map (fun p => functionRow "f" [p])
    ["a"; "b"; "c"; "d"; "e"; "f"; "g"; "h"; "i"].

Definition abortMeta : Meta.t :=
  Meta.mk ["SCALAR"] [] ["ABORT(y)"] [] EmptyString.

(** A machine where only [/usr/bin/duckdb] runs and every file exists;
    the same machine with the environment variable set; and a machine
    where no executable runs. *)
Definition siteExec (w : nat) (exe : string) (args : list string)
  : ExecResult * nat :=
  if streq exe "/usr/bin/duckdb" then (ExecOk "[]", w) else (ExecFail enoent, w).

Definition siteHost : Host nat :=
  {| existsSync := fun _ _ => true;
     execFile := siteExec;
     mkdirSync := fun w _ => (None, w);
     createResultId := fun w => ("id-" +:+ indexToString w, S w);
     getEnv := fun _ _ => None;
     platform := fun _ => "linux";
     toAbsolutePath := fun _ p => p;
     dirname := fun p => p |}.

Definition envHost : Host nat :=
  {| existsSync := fun _ _ => true;
     execFile := siteExec;
     mkdirSync := fun w _ => (None, w);
     createResultId := fun w => ("id-" +:+ indexToString w, S w);
     getEnv := fun _ name =>
       if streq name DUCKDB_CLI_PATH_ENV then Some " /usr/bin/duckdb " else None;
     platform := fun _ => "linux";
     toAbsolutePath := fun _ p => p;
     dirname := fun p => p |}.

Definition bareHost : Host nat :=
  {| existsSync := fun _ _ => false;
     execFile := fun w _ _ => (ExecFail enoent, w);
     mkdirSync := fun w _ => (None, w);
     createResultId := fun w => ("id-" +:+ indexToString w, S w);
     getEnv := fun _ _ => None;
     platform := fun _ => "linux";
     toAbsolutePath := fun _ p => p;
     dirname := fun p => p |}.






(** Settings: the bare command name as the configured path, and a
    read-only database file. *)
Definition bareCli : Credentials :=
  mkCredentials None (Some " duckdb ") None ReadOnlyOther.
Definition readOnlyFile : Credentials :=
  mkCredentials (Some "/data/app.duckdb") None None (ReadOnlyString "yes").

(** The states left by the resolution on these machines, and the handle
    and the state left by [open] on the read-only database file. *)
Definition afterEnv : DriverState :=
  mkState None 0
    [ EvReadEnv DUCKDB_CLI_PATH_ENV; EvExists "/usr/bin/duckdb";
      EvExec "/usr/bin/duckdb" ["--version"] ].

Definition afterBare : DriverState :=
  mkState None 0 [EvExec "duckdb" ["--version"]].

Definition afterDiscovery : DriverState :=
  mkState None 0
    [ EvReadEnv DUCKDB_CLI_PATH_ENV; EvExec "duckdb" ["--version"];
      EvExists "/usr/local/bin/duckdb";
      EvExec "/usr/local/bin/duckdb" ["--version"];
      EvExists "/usr/bin/duckdb"; EvExec "/usr/bin/duckdb" ["--version"] ].

Definition afterExhausted : DriverState :=
  mkState None 0
    [ EvReadEnv DUCKDB_CLI_PATH_ENV; EvExec "duckdb" ["--version"];
      EvExists "/usr/local/bin/duckdb"; EvExists "/usr/bin/duckdb";
      EvExists "/snap/bin/duckdb" ].

Definition missingAt (path : string) : string :=
  path +:+ " -> DuckDB executable not found at " +:+ chr DQUOTE +:+ path
  +:+ chr DQUOTE +:+ ".".

Definition exhaustedAttempts : list string :=
  [ "duckdb -> DuckDB CLI validation failed. spawn ENOENT";
    missingAt "/usr/local/bin/duckdb"; missingAt "/usr/bin/duckdb";
    missingAt "/snap/bin/duckdb" ].

Definition fileConnection : TDuckDBConnection :=
  mkConnection "/data/app.duckdb" "/usr/bin/duckdb" true.

Definition afterOpenFile : DriverState :=
  mkState (Some fileConnection) 0
    (trace afterDiscovery ++ [EvExists "/data/app.duckdb"]).

(** Tables of the explorer: one whose name holds both quotes and a
    semicolon, one without a label. *)
Definition oddTable : Queries.Table :=
  Queries.mkTable (Some ("it's;" +:+ chr DQUOTE +:+ "x")) (Some "main")
    "[object Object]".
Definition unnamedTable : Queries.Table :=
  Queries.mkTable None None "[object Object]".

End Demo.

(** * Properties *)

(** ** Strings *)

Module JsFacts.
Import Js.

Lemma append_cons (c : ascii) (s t : string) :
  String c s +:+ t = String c (s +:+ t).
Proof. reflexivity. Qed.

Lemma append_empty_l (s : string) : EmptyString +:+ s = s.
Proof. reflexivity. Qed.

Lemma append_empty_r (s : string) : s +:+ EmptyString = s.
Proof. induction s as [|c s IH]; [reflexivity|]. rewrite append_cons, IH. reflexivity. Qed.

Lemma append_assoc (s t u : string) : (s +:+ t) +:+ u = s +:+ (t +:+ u).
Proof.
  induction s as [|c s IH]; [reflexivity|].
  rewrite !append_cons, IH. reflexivity.
Qed.

Lemma ceq_eq (a b : ascii) : ceq a b = true <-> a = b.
Proof. apply Ascii.eqb_eq. Qed.

Lemma ceq_refl (a : ascii) : ceq a a = true.
Proof. apply Ascii.eqb_refl. Qed.

Lemma ceq_neq (a b : ascii) : ceq a b = false <-> a <> b.
Proof. apply Ascii.eqb_neq. Qed.

Lemma streq_eq (a b : string) : streq a b = true <-> a = b.
Proof. apply String.eqb_eq. Qed.

Lemma streq_refl (a : string) : streq a a = true.
Proof. apply String.eqb_refl. Qed.

Lemma streq_neq (a b : string) : streq a b = false <-> a <> b.
Proof. apply String.eqb_neq. Qed.

Lemma truthy_false (s : string) : truthy s = false <-> s = EmptyString.
Proof. destruct s; simpl; split; congruence. Qed.

Lemma blank_append (s t : string) : blank (s +:+ t) = blank s && blank t.
Proof.
  induction s as [|c s IH]; [reflexivity|].
  rewrite append_cons. simpl. rewrite IH, andb_assoc. reflexivity.
Qed.

Lemma trimStart_blank (s : string) : blank s = true -> trimStart s = EmptyString.
Proof.
  induction s as [|c s IH]; simpl; [reflexivity|].
  intros [Hc Hs]%andb_prop. rewrite Hc. auto.
Qed.

Lemma trimEnd_empty_iff (s : string) : trimEnd s = EmptyString <-> blank s = true.
Proof.
  induction s as [|c s IH]; simpl; [tauto|].
  destruct (trimEnd s) eqn:E.
  - destruct (isWhiteSpace c); simpl.
    + rewrite <- IH. tauto.
    + split; discriminate.
  - split; [discriminate|].
    intros [_ Hs]%andb_prop. apply IH in Hs. discriminate.
Qed.

Lemma trimStart_empty_iff (s : string) : trimStart s = EmptyString <-> blank s = true.
Proof.
  induction s as [|c s IH]; simpl; [tauto|].
  destruct (isWhiteSpace c); simpl; [exact IH|].
  split; discriminate.
Qed.

Lemma blank_trimStart (s : string) : blank (trimStart s) = blank s.
Proof.
  induction s as [|c s IH]; simpl; [reflexivity|].
  destruct (isWhiteSpace c) eqn:E; simpl; [exact IH|]. rewrite E. reflexivity.
Qed.

Lemma trim_blank (s : string) : blank s = true -> trim s = EmptyString.
Proof. intros Hs. unfold trim. rewrite (trimStart_blank _ Hs). reflexivity. Qed.

Lemma truthy_trim (s : string) : truthy (trim s) = negb (blank s).
Proof.
  unfold trim. destruct (trimEnd (trimStart s)) eqn:E; simpl.
  - apply trimEnd_empty_iff in E. rewrite blank_trimStart in E. rewrite E. reflexivity.
  - destruct (blank s) eqn:B; [|reflexivity].
    rewrite (trimStart_blank _ B) in E. discriminate.
Qed.

Lemma trimStart_startsClean (s : string) : startsClean (trimStart s) = true.
Proof.
  induction s as [|c s IH]; simpl; [reflexivity|].
  destruct (isWhiteSpace c) eqn:E; [exact IH|]. simpl. rewrite E. reflexivity.
Qed.

Lemma startsClean_trimStart (s : string) : startsClean s = true -> trimStart s = s.
Proof.
  destruct s as [|c s]; simpl; [reflexivity|].
  intros Hc. apply negb_true_iff in Hc. rewrite Hc. reflexivity.
Qed.

Lemma trimEnd_startsClean (s : string) :
  startsClean s = true -> startsClean (trimEnd s) = true.
Proof.
  destruct s as [|c s]; simpl; [reflexivity|].
  intros Hc. destruct (trimEnd s); simpl.
  - apply negb_true_iff in Hc. rewrite Hc. simpl. rewrite Hc. reflexivity.
  - exact Hc.
Qed.

Lemma trimEnd_idempotent (s : string) : trimEnd (trimEnd s) = trimEnd s.
Proof.
  induction s as [|c s IH]; simpl; [reflexivity|].
  destruct (trimEnd s) as [|d r] eqn:E.
  - destruct (isWhiteSpace c) eqn:W; simpl; [reflexivity|]. rewrite W. reflexivity.
  - simpl in *. rewrite IH. reflexivity.
Qed.

(** [trim] is idempotent: a trimmed string is its own trimming. *)
Lemma trim_idempotent (s : string) : trim (trim s) = trim s.
Proof.
  unfold trim.
  rewrite (startsClean_trimStart (trimEnd (trimStart s))).
  - apply trimEnd_idempotent.
  - apply trimEnd_startsClean, trimStart_startsClean.
Qed.

Lemma trimEnd_append_kept (s t : string) :
  trimEnd t <> EmptyString -> trimEnd (s +:+ t) = s +:+ trimEnd t.
Proof.
  intros Ht. induction s as [|c s IH]; [reflexivity|].
  rewrite !append_cons. simpl. rewrite IH.
  destruct (s +:+ trimEnd t) eqn:E; [|reflexivity].
  exfalso. destruct s; [apply Ht; exact E|discriminate].
Qed.

End JsFacts.

(** ** Statement splitter *)

Module SplitterFacts.
Import Js JsFacts Splitter.

(** *** Records and the accumulator *)

Lemma append_append (st : SplitState) (a b : string) :
  append (append st a) b = append st (a +:+ b).
Proof. unfold append; simpl. rewrite append_assoc. reflexivity. Qed.

Lemma append_empty (st : SplitState) : append st EmptyString = st.
Proof. destruct st. unfold append; simpl. rewrite append_empty_r. reflexivity. Qed.

Lemma quiet_flags (st : SplitState) :
  quiet st = true ->
  inLineComment st = false /\ inBlockComment st = false
  /\ inSingleQuote st = false /\ inDoubleQuote st = false.
Proof.
  unfold quiet. rewrite negb_true_iff, !orb_false_iff. tauto.
Qed.

(** *** Unfolding the loop *)

Lemma step_end_no_skip (st : SplitState) (ch : ascii) :
  snd (step st ch None) = false.
Proof.
  unfold step, nextIs. rewrite !andb_false_r.
  repeat match goal with
         | |- context [if ?b then _ else _] => destruct b
         end; reflexivity.
Qed.

Lemma loop_no_skip (st st' : SplitState) (ch : ascii) (rest : string) :
  step st ch (peek rest) = (st', false) -> loop st (String ch rest) = loop st' rest.
Proof. intros Hs. simpl. rewrite Hs. reflexivity. Qed.

Lemma loop_skip (st st' : SplitState) (ch n : ascii) (rest : string) :
  step st ch (Some n) = (st', true) ->
  loop st (String ch (String n rest)) = loop st' rest.
Proof. intros Hs. simpl. rewrite Hs. reflexivity. Qed.

(** Induction along the iterations of the loop: an iteration consumes one
    character, or two when it runs [i++]. *)
Lemma loop_induction (P : SplitState -> string -> Prop) :
  (forall st, P st EmptyString) ->
  (forall st st' ch rest,
      step st ch (peek rest) = (st', false) -> P st' rest -> P st (String ch rest)) ->
  (forall st st' ch n rest,
      step st ch (Some n) = (st', true) -> P st' rest ->
      P st (String ch (String n rest))) ->
  forall s st, P st s.
Proof.
  intros Hnil Hone Htwo s.
  remember (String.length s) as k eqn:Hk.
  revert s Hk. induction k as [k IH] using lt_wf_ind. intros s Hk st.
  destruct s as [|ch rest]; [apply Hnil|].
  destruct (step st ch (peek rest)) as [st' skip] eqn:Hs.
  destruct skip.
  - destruct rest as [|n rest'].
    + pose proof (step_end_no_skip st ch) as Hno. simpl in Hs.
      rewrite Hs in Hno. discriminate.
    + apply (Htwo st st'); [exact Hs|].
      apply (IH (String.length rest')); [simpl in Hk; lia|reflexivity].
  - apply (Hone st st'); [exact Hs|].
    apply (IH (String.length rest)); [simpl in Hk; lia|reflexivity].
Qed.

(** *** The statements produced *)

Lemma pushTrimmed_statements (stmts : list string) (cur : string) :
  Forall isStatement stmts -> Forall isStatement (pushTrimmed stmts cur).
Proof.
  intros Hs. unfold pushTrimmed.
  destruct (truthy (trim cur)) eqn:E; [|exact Hs].
  apply Forall_app; split; [exact Hs|].
  constructor; [|constructor]. split; [exact E|apply trim_idempotent].
Qed.

Lemma step_statements (st : SplitState) (ch : ascii) (next : option ascii) :
  statements (fst (step st ch next)) = statements st
  \/ (endsStatement st ch = true
      /\ fst (step st ch next) = endStatement st).
Proof.
  unfold endsStatement, quiet, step.
  destruct (inLineComment st); [left; destruct (ceq ch NEWLINE); reflexivity|].
  destruct (inBlockComment st);
    [left; destruct (ceq ch "*" && nextIs "/" next); destruct next; reflexivity|].
  destruct (inSingleQuote st);
    [left; destruct (ceq ch "'" && nextIs "'" next); destruct (ceq ch "'");
     destruct next; reflexivity|].
  destruct (inDoubleQuote st);
    [left; destruct (ceq ch DQUOTE && nextIs DQUOTE next); destruct (ceq ch DQUOTE);
     destruct next; reflexivity|].
  destruct (ceq ch "-" && nextIs "-" next); [left; destruct next; reflexivity|].
  destruct (ceq ch "/" && nextIs "*" next); [left; destruct next; reflexivity|].
  destruct (ceq ch "'"); [left; reflexivity|].
  destruct (ceq ch DQUOTE); [left; reflexivity|].
  destruct (ceq ch ";"); [right; split; reflexivity|left; reflexivity].
Qed.

Lemma step_keeps_statements (st : SplitState) (ch : ascii) (next : option ascii) :
  Forall isStatement (statements st) ->
  Forall isStatement (statements (fst (step st ch next))).
Proof.
  intros Hs. destruct (step_statements st ch next) as [-> | [_ ->]]; [exact Hs|].
  simpl. apply pushTrimmed_statements, Hs.
Qed.

Lemma loop_keeps_statements (s : string) (st : SplitState) :
  Forall isStatement (statements st) -> Forall isStatement (statements (loop st s)).
Proof.
  revert s st. apply (loop_induction (fun st s =>
    Forall isStatement (statements st) -> Forall isStatement (statements (loop st s)))).
  - intros st Hs. exact Hs.
  - intros st st' ch rest Hstep IH Hs. rewrite (loop_no_skip _ _ _ _ Hstep).
    apply IH. pose proof (step_keeps_statements st ch (peek rest) Hs) as Hk.
    rewrite Hstep in Hk. exact Hk.
  - intros st st' ch n rest Hstep IH Hs. rewrite (loop_skip _ _ _ _ _ Hstep).
    apply IH. pose proof (step_keeps_statements st ch (Some n) Hs) as Hk.
    rewrite Hstep in Hk. exact Hk.
Qed.

(** Every element of the result is a non-empty trimmed string. *)
Lemma split_statements (sqlText : string) :
  Forall isStatement (splitSqlStatements sqlText).
Proof.
  unfold splitSqlStatements, finish.
  apply pushTrimmed_statements, loop_keeps_statements. constructor.
Qed.

(** *** Characters outside the two-character tokens *)

Lemma neutral_chars (c : ascii) :
  neutral c = true ->
  ceq c "-" = false /\ ceq c "*" = false /\ ceq c "/" = false
  /\ ceq c "'" = false /\ ceq c DQUOTE = false.
Proof. unfold neutral. rewrite negb_true_iff, !orb_false_iff. tauto. Qed.

Lemma step_neutral_next (st : SplitState) (ch c : ascii) :
  neutral c = true -> step st ch (Some c) = step st ch None.
Proof.
  intros (H1 & H2 & H3 & H4 & H5)%neutral_chars.
  unfold step, nextIs. rewrite H1, H2, H3, H4, H5, !andb_false_r. reflexivity.
Qed.

Lemma step_neutral_self (st : SplitState) (c : ascii) (next : option ascii) :
  neutral c = true -> step st c next = step st c None.
Proof.
  intros (H1 & H2 & H3 & H4 & H5)%neutral_chars.
  unfold step. rewrite H1, H2, H3, H4, H5. reflexivity.
Qed.

Lemma peek_append (a : string) (c : ascii) (b : string) :
  peek (a +:+ String c b) = match a with EmptyString => Some c | _ => peek a end.
Proof. destruct a; reflexivity. Qed.

(** The loop can be cut before a neutral character... *)
Lemma loop_break_before (c : ascii) (b : string) :
  neutral c = true ->
  forall a st, loop st (a +:+ String c b) = loop (loop st a) (String c b).
Proof.
  intros Hc.
  apply (loop_induction (fun st a =>
    loop st (a +:+ String c b) = loop (loop st a) (String c b))).
  - reflexivity.
  - intros st st' ch rest Hstep IH.
    rewrite append_cons, (loop_no_skip _ _ _ _ Hstep).
    rewrite (loop_no_skip st st'); [exact IH|].
    rewrite peek_append. destruct rest; [|exact Hstep].
    rewrite (step_neutral_next _ _ _ Hc). exact Hstep.
  - intros st st' ch n rest Hstep IH.
    rewrite !append_cons, !(loop_skip _ _ _ _ _ Hstep). exact IH.
Qed.

(** ... and after it. *)
Lemma loop_neutral (st : SplitState) (c : ascii) (b : string) :
  neutral c = true -> loop st (String c b) = loop (fst (step st c None)) b.
Proof.
  intros Hc. pose proof (step_end_no_skip st c) as Hno.
  destruct (step st c None) as [st' skip] eqn:Hs. simpl in Hno. subst skip.
  apply loop_no_skip. rewrite (step_neutral_self _ _ _ Hc). exact Hs.
Qed.

Lemma loop_break_after (c : ascii) (b : string) (a : string) (st : SplitState) :
  neutral c = true ->
  loop st (a +:+ String c b) = loop (loop st (a +:+ chr c)) b.
Proof.
  intros Hc. unfold chr.
  rewrite (loop_break_before c b Hc), (loop_break_before c EmptyString Hc).
  rewrite !(loop_neutral _ _ _ Hc). reflexivity.
Qed.

Lemma neutral_semicolon : neutral ";" = true.
Proof. reflexivity. Qed.

Lemma blank_neutral (c : ascii) : isWhiteSpace c = true -> neutral c = true.
Proof.
  intros Hc. unfold neutral. rewrite negb_true_iff, !orb_false_iff.
  repeat split;
    match goal with
    | |- ceq c ?x = false =>
        destruct (ceq c x) eqn:E; [apply ceq_eq in E; subst c; discriminate Hc|reflexivity]
    end.
Qed.

Lemma blank_not_semicolon (c : ascii) : isWhiteSpace c = true -> ceq c ";" = false.
Proof.
  intros Hc. destruct (ceq c ";") eqn:E; [|reflexivity].
  apply ceq_eq in E. subst c. discriminate Hc.
Qed.

(** *** Iterations outside quotes and comments *)

Lemma step_quiet_semicolon (st : SplitState) (next : option ascii) :
  quiet st = true -> step st ";" next = (endStatement st, false).
Proof.
  intros (H1 & H2 & H3 & H4)%quiet_flags. unfold step.
  rewrite H1, H2, H3, H4. reflexivity.
Qed.

Lemma step_quiet_plain (st : SplitState) (ch : ascii) (next : option ascii) :
  quiet st = true -> neutral ch = true -> ceq ch ";" = false ->
  step st ch next = (append st (chr ch), false).
Proof.
  intros (H1 & H2 & H3 & H4)%quiet_flags (N1 & N2 & N3 & N4 & N5)%neutral_chars Hs.
  unfold step. rewrite H1, H2, H3, H4, N1, N3, N4, N5, Hs. reflexivity.
Qed.

(** *** Scripts of white space and semicolons *)

Lemma pushTrimmed_blank (stmts : list string) (cur : string) :
  blank cur = true -> pushTrimmed stmts cur = stmts.
Proof. intros Hb. unfold pushTrimmed. rewrite (trim_blank _ Hb). reflexivity. Qed.

Lemma loop_blank (s : string) :
  blankOrSemicolon s = true ->
  forall st, quiet st = true -> statements st = [] -> blank (current st) = true ->
  quiet (loop st s) = true /\ statements (loop st s) = []
  /\ blank (current (loop st s)) = true.
Proof.
  induction s as [|c s IH]; intros Hs st Hq Hst Hcur; [simpl; auto|].
  simpl in Hs. apply andb_prop in Hs as [Hc Hs].
  apply orb_prop in Hc as [Hc | Hc].
  - rewrite (loop_no_skip st (append st (chr c))).
    + apply (IH Hs); [exact Hq|exact Hst|].
      simpl. rewrite blank_append, Hcur. simpl. rewrite Hc. reflexivity.
    + apply step_quiet_plain; auto using blank_neutral, blank_not_semicolon.
  - apply ceq_eq in Hc. subst c.
    rewrite (loop_no_skip st (endStatement st)).
    + apply (IH Hs); [exact Hq| |reflexivity].
      simpl. rewrite (pushTrimmed_blank _ _ Hcur). exact Hst.
    + apply step_quiet_semicolon, Hq.
Qed.

Lemma split_blank (s : string) :
  blankOrSemicolon s = true -> splitSqlStatements s = [].
Proof.
  intros Hs. unfold splitSqlStatements, finish.
  destruct (loop_blank s Hs initial) as (_ & Hst & Hcur); try reflexivity.
  rewrite Hst. apply pushTrimmed_blank, Hcur.
Qed.

End SplitterFacts.

Module SplitterOrder.
Import Js JsFacts Splitter SplitterFacts.

(** *** Statements already produced are a frame of the loop *)

Lemma pushTrimmed_app (pre stmts : list string) (cur : string) :
  pushTrimmed (pre ++ stmts) cur = pre ++ pushTrimmed stmts cur.
Proof.
  unfold pushTrimmed. destruct (truthy (trim cur)); [|reflexivity].
  rewrite <- List.app_assoc. reflexivity.
Qed.

Lemma step_prepend (pre : list string) (st : SplitState) (ch : ascii)
  (next : option ascii) :
  step (prepend pre st) ch next
  = (prepend pre (fst (step st ch next)), snd (step st ch next)).
Proof.
  destruct st as [stmts cur q1 q2 l b].
  unfold step, prepend, endStatement; simpl.
  repeat match goal with
         | |- context [if ?b then _ else _] => destruct b
         end;
    try reflexivity; try (destruct next; reflexivity).
  all: simpl; rewrite pushTrimmed_app; reflexivity.
Qed.

Lemma loop_prepend (pre : list string) (s : string) (st : SplitState) :
  loop (prepend pre st) s = prepend pre (loop st s).
Proof.
  revert s st. apply (loop_induction (fun st s =>
    loop (prepend pre st) s = prepend pre (loop st s))).
  - reflexivity.
  - intros st st' ch rest Hstep IH. rewrite (loop_no_skip _ _ _ _ Hstep).
    rewrite (loop_no_skip _ (prepend pre st')); [exact IH|].
    rewrite step_prepend, Hstep. reflexivity.
  - intros st st' ch n rest Hstep IH. rewrite (loop_skip _ _ _ _ _ Hstep).
    rewrite (loop_skip _ (prepend pre st')); [exact IH|].
    rewrite step_prepend, Hstep. reflexivity.
Qed.

Lemma finish_prepend (pre : list string) (st : SplitState) :
  finish (prepend pre st) = pre ++ finish st.
Proof. unfold finish. simpl. apply pushTrimmed_app. Qed.

(** The state right after a top-level semicolon. *)
Lemma endStatement_quiet (st : SplitState) :
  quiet st = true ->
  endStatement st = prepend (pushTrimmed (statements st) (current st)) initial.
Proof.
  intros (H1 & H2 & H3 & H4)%quiet_flags.
  unfold endStatement, prepend. simpl. rewrite H1, H2, H3, H4, List.app_nil_r.
  reflexivity.
Qed.

Lemma loop_terminated (a : string) (st : SplitState) :
  quiet (loop st a) = true ->
  loop st (a +:+ ";") = endStatement (loop st a).
Proof.
  intros Hq. change ";" with (String ";"%char EmptyString).
  rewrite (loop_break_before _ _ neutral_semicolon).
  rewrite (loop_no_skip _ (endStatement (loop st a))); [reflexivity|].
  apply step_quiet_semicolon, Hq.
Qed.

(** The statements before a top-level semicolon come first, in the order
    of the script, followed by those of what follows it. *)
Lemma split_semicolon (a b : string) :
  quiet (loop initial a) = true ->
  splitSqlStatements (a +:+ ";" +:+ b)
  = splitSqlStatements (a +:+ ";") ++ splitSqlStatements b.
Proof.
  intros Hq. unfold splitSqlStatements.
  change (";" +:+ b) with (String ";"%char b).
  rewrite (loop_break_after _ _ _ _ neutral_semicolon).
  change (chr ";") with ";".
  rewrite (loop_terminated _ _ Hq), (endStatement_quiet _ Hq).
  rewrite loop_prepend, !finish_prepend.
  change (finish initial) with (@nil string).
  rewrite List.app_nil_r. reflexivity.
Qed.

(** *** Input without a top-level semicolon *)

Lemma step_shape (st : SplitState) (ch : ascii) (next : option ascii) :
  (endsStatement st ch = true /\ step st ch next = (endStatement st, false))
  \/ (endsStatement st ch = false
      /\ statements (fst (step st ch next)) = statements st
      /\ current (fst (step st ch next))
         = current st +:+ consumed ch next (snd (step st ch next))).
Proof.
  unfold endsStatement, quiet, step, consumed.
  destruct (inLineComment st);
    [right; destruct (ceq ch NEWLINE); simpl; auto|].
  destruct (inBlockComment st).
  { right. destruct (ceq ch "*" && nextIs "/" next) eqn:E; simpl; auto.
    destruct next; simpl; [|rewrite andb_false_r in E; discriminate].
    rewrite append_assoc. auto. }
  destruct (inSingleQuote st).
  { right. destruct (ceq ch "'" && nextIs "'" next) eqn:E; simpl.
    - destruct next; simpl; [|rewrite andb_false_r in E; discriminate].
      rewrite append_assoc. auto.
    - destruct (ceq ch "'"); simpl; auto. }
  destruct (inDoubleQuote st).
  { right. destruct (ceq ch DQUOTE && nextIs DQUOTE next) eqn:E; simpl.
    - destruct next; simpl; [|rewrite andb_false_r in E; discriminate].
      rewrite append_assoc. auto.
    - destruct (ceq ch DQUOTE); simpl; auto. }
  simpl.
  destruct (ceq ch "-" && nextIs "-" next) eqn:E1.
  { right. apply andb_prop in E1 as [E1 E1']. apply ceq_eq in E1. subst ch.
    destruct next; simpl in *; [|discriminate]. rewrite append_assoc. auto. }
  destruct (ceq ch "/" && nextIs "*" next) eqn:E2.
  { right. apply andb_prop in E2 as [E2 E2']. apply ceq_eq in E2. subst ch.
    destruct next; simpl in *; [|discriminate]. rewrite append_assoc. auto. }
  destruct (ceq ch "'") eqn:E3.
  { right. apply ceq_eq in E3. subst ch. simpl. auto. }
  destruct (ceq ch DQUOTE) eqn:E4.
  { right. apply ceq_eq in E4. subst ch. simpl. auto. }
  destruct (ceq ch ";"); [left; auto|right; simpl; auto].
Qed.

Lemma loop_no_terminator (s : string) (st : SplitState) :
  terminators st s = 0 ->
  statements (loop st s) = statements st
  /\ current (loop st s) = current st +:+ s.
Proof.
  revert s st. apply (loop_induction (fun st s =>
    terminators st s = 0 ->
    statements (loop st s) = statements st
    /\ current (loop st s) = current st +:+ s)).
  - intros st _. simpl. rewrite append_empty_r. auto.
  - intros st st' ch rest Hstep IH Ht.
    rewrite (loop_no_skip _ _ _ _ Hstep).
    simpl in Ht. rewrite Hstep in Ht.
    destruct (step_shape st ch (peek rest)) as [[He _] | (He & Hs & Hc)];
      [rewrite He in Ht; discriminate|].
    rewrite He in Ht. rewrite Hstep in Hs, Hc. simpl in Hs, Hc.
    destruct (IH Ht) as [IH1 IH2]. rewrite IH1, IH2, Hs, Hc.
    unfold consumed, chr. rewrite append_empty_r, append_assoc. auto.
  - intros st st' ch n rest Hstep IH Ht.
    rewrite (loop_skip _ _ _ _ _ Hstep).
    simpl in Ht. rewrite Hstep in Ht.
    destruct (step_shape st ch (Some n)) as [[He Hx] | (He & Hs & Hc)];
      [rewrite He in Ht; discriminate|].
    rewrite He in Ht. rewrite Hstep in Hs, Hc. simpl in Hs, Hc.
    destruct (IH Ht) as [IH1 IH2]. rewrite IH1, IH2, Hs, Hc.
    unfold consumed, chr. rewrite !append_assoc. auto.
Qed.

(** A script without a top-level semicolon is one statement, its trimmed
    text, or none when it is blank. *)
Lemma split_no_terminator (s : string) :
  terminators initial s = 0 -> splitSqlStatements s = pushTrimmed [] s.
Proof.
  intros Ht. unfold splitSqlStatements, finish.
  destruct (loop_no_terminator s initial Ht) as [-> ->]. reflexivity.
Qed.

End SplitterOrder.

Module SplitterRegions.
Import Js JsFacts Splitter SplitterFacts SplitterOrder.

(** *** Inside a line comment *)

Lemma loop_in_line (body tail : string) :
  contains NEWLINE body = false ->
  forall st, inLineComment st = true ->
  loop st (body +:+ tail) = loop (append st body) tail.
Proof.
  induction body as [|ch body IH]; intros Hb st Hl.
  - rewrite append_empty. reflexivity.
  - simpl in Hb. apply orb_false_iff in Hb as [Hch Hb].
    rewrite append_cons.
    rewrite (loop_no_skip st (append st (chr ch))).
    + rewrite (IH Hb); [|exact Hl]. rewrite append_append. reflexivity.
    + unfold step. rewrite Hl, Hch. reflexivity.
Qed.

Lemma loop_line_end (st : SplitState) (rest : string) :
  inLineComment st = true ->
  loop st (String NEWLINE rest) = loop (setLine false (append st (chr NEWLINE))) rest.
Proof. intros Hl. apply loop_no_skip. unfold step. rewrite Hl. reflexivity. Qed.

(** *** Inside a block comment *)

Lemma step_in_block (st : SplitState) (ch : ascii) (next : option ascii) :
  inLineComment st = false -> inBlockComment st = true ->
  ceq ch "*" && nextIs "/" next = false ->
  step st ch next = (append st (chr ch), false).
Proof. intros Hl Hb Hc. unfold step. rewrite Hl, Hb, Hc. reflexivity. Qed.

Lemma loop_in_block (body : string) :
  hasBlockEnd body = false ->
  forall st, inLineComment st = false -> inBlockComment st = true ->
  loop st body = append st body.
Proof.
  induction body as [|ch body IH]; intros Hb st Hl Hblk.
  - rewrite append_empty. reflexivity.
  - simpl in Hb. apply orb_false_iff in Hb as [Hch Hb].
    rewrite (loop_no_skip st (append st (chr ch))).
    + rewrite (IH Hb); [|exact Hl|exact Hblk]. rewrite append_append. reflexivity.
    + apply step_in_block; assumption.
Qed.

Lemma loop_block_end (body rest : string) :
  hasBlockEnd body = false ->
  forall st, inLineComment st = false -> inBlockComment st = true ->
  loop st (body +:+ "*/" +:+ rest)
  = loop (setBlock false (append st (body +:+ "*/"))) rest.
Proof.
  induction body as [|ch body IH]; intros Hb st Hl Hblk.
  - rewrite !append_empty_l. apply loop_skip.
    unfold step. rewrite Hl, Hblk. simpl. rewrite append_append. reflexivity.
  - simpl in Hb. apply orb_false_iff in Hb as [Hch Hb].
    rewrite !append_cons.
    rewrite (loop_no_skip st (append st (chr ch))).
    + rewrite (IH Hb); [|exact Hl|exact Hblk]. rewrite append_append. reflexivity.
    + apply step_in_block; try assumption.
      destruct body; [|exact Hch].
      destruct (ceq ch "*"); reflexivity.
Qed.

(** *** Inside a quoted region *)

Section Quoted.
Variable q : ascii.
Variable inQuote : SplitState -> bool.
Variable setQuote : bool -> SplitState -> SplitState.

(** What the loop does inside the region opened by [q]. *)
Hypothesis step_in_quote :
  forall st ch next, inQuote st = true ->
  step st ch next
  = if ceq ch q && nextIs q next then (appendNext (append st (chr ch)) next, true)
    else (if ceq ch q then setQuote false (append st (chr ch))
          else append st (chr ch), false).
Hypothesis inQuote_append : forall st s, inQuote (append st s) = inQuote st.

Lemma loop_in_quote (n : nat) :
  forall body, String.length body <= n -> quotedBody q body = true ->
  forall st tail, inQuote st = true -> nextIs q (peek tail) = false ->
  loop st (body +:+ String q tail)
  = loop (setQuote false (append st (body +:+ chr q))) tail.
Proof.
  induction n as [n IH] using lt_wf_ind.
  intros body Hn Hbody st tail Hq Htail.
  destruct body as [|ch body].
  - rewrite !append_empty_l. apply loop_no_skip.
    rewrite (step_in_quote _ _ _ Hq), ceq_refl, Htail. reflexivity.
  - simpl in Hbody, Hn. destruct (ceq ch q) eqn:Hch.
    + destruct body as [|b body]; [discriminate|].
      apply andb_prop in Hbody as [Hb Hbody]. simpl in Hn.
      rewrite !append_cons.
      rewrite (loop_skip st (append st (chr ch +:+ chr b))).
      * assert (Hlt : String.length body < n) by lia.
        rewrite (IH _ Hlt body (Nat.le_refl _) Hbody _ tail); [| |exact Htail].
        -- rewrite append_append. reflexivity.
        -- rewrite inQuote_append. exact Hq.
      * rewrite (step_in_quote _ _ _ Hq), Hch. simpl. rewrite Hb.
        simpl. rewrite append_append. reflexivity.
    + rewrite !append_cons.
      rewrite (loop_no_skip st (append st (chr ch))).
      * assert (Hlt : String.length body < n) by lia.
        rewrite (IH _ Hlt body (Nat.le_refl _) Hbody _ tail); [| |exact Htail].
        -- rewrite append_append. reflexivity.
        -- rewrite inQuote_append. exact Hq.
      * rewrite (step_in_quote _ _ _ Hq), Hch. reflexivity.
Qed.

Lemma loop_in_open_quote (n : nat) :
  forall body, String.length body <= n -> quotedBody q body = true ->
  forall st, inQuote st = true -> loop st body = append st body.
Proof.
  induction n as [n IH] using lt_wf_ind.
  intros body Hn Hbody st Hq.
  destruct body as [|ch body]; [rewrite append_empty; reflexivity|].
  simpl in Hbody, Hn. destruct (ceq ch q) eqn:Hch.
  - destruct body as [|b body]; [discriminate|].
    apply andb_prop in Hbody as [Hb Hbody]. simpl in Hn.
    rewrite (loop_skip st (append st (chr ch +:+ chr b))).
    + assert (Hlt : String.length body < n) by lia.
      rewrite (IH _ Hlt body (Nat.le_refl _) Hbody).
      * rewrite append_append. reflexivity.
      * rewrite inQuote_append. exact Hq.
    + rewrite (step_in_quote _ _ _ Hq), Hch. simpl. rewrite Hb.
      simpl. rewrite append_append. reflexivity.
  - rewrite (loop_no_skip st (append st (chr ch))).
    + assert (Hlt : String.length body < n) by lia.
      rewrite (IH _ Hlt body (Nat.le_refl _) Hbody).
      * rewrite append_append. reflexivity.
      * rewrite inQuote_append. exact Hq.
    + rewrite (step_in_quote _ _ _ Hq), Hch. reflexivity.
Qed.

End Quoted.

Lemma step_in_single (st : SplitState) (ch : ascii) (next : option ascii) :
  inSingle st = true ->
  step st ch next
  = if ceq ch "'" && nextIs "'" next then (appendNext (append st (chr ch)) next, true)
    else (if ceq ch "'" then setSingle false (append st (chr ch))
          else append st (chr ch), false).
Proof.
  unfold inSingle. rewrite !andb_true_iff, !negb_true_iff.
  intros [[Hl Hb] Hs]. unfold step. rewrite Hl, Hb, Hs. reflexivity.
Qed.

Lemma step_in_double (st : SplitState) (ch : ascii) (next : option ascii) :
  inDouble st = true ->
  step st ch next
  = if ceq ch DQUOTE && nextIs DQUOTE next
    then (appendNext (append st (chr ch)) next, true)
    else (if ceq ch DQUOTE then setDouble false (append st (chr ch))
          else append st (chr ch), false).
Proof.
  unfold inDouble. rewrite !andb_true_iff, !negb_true_iff.
  intros [[[Hl Hb] Hs] Hd]. unfold step. rewrite Hl, Hb, Hs, Hd. reflexivity.
Qed.

(** *** Whole regions met outside quotes and comments *)

Lemma single_quoted_region (st : SplitState) (body rest : string) :
  quiet st = true -> quotedBody "'" body = true ->
  nextIs "'" (peek rest) = false ->
  loop st ("'" +:+ body +:+ "'" +:+ rest)
  = loop (append st ("'" +:+ body +:+ "'")) rest.
Proof.
  intros Hq Hbody Hrest. destruct (quiet_flags _ Hq) as (H1 & H2 & H3 & H4).
  change ("'" +:+ body +:+ "'" +:+ rest)
    with (String "'"%char (body +:+ String "'"%char rest)).
  rewrite (loop_no_skip st (setSingle true (append st "'"))).
  - rewrite (loop_in_quote "'"%char inSingle setSingle step_in_single
               (fun _ _ => eq_refl) _ body (Nat.le_refl _) Hbody);
      [| |exact Hrest].
    + f_equal. destruct st; simpl in *. subst.
      unfold setSingle, append; simpl. rewrite !append_assoc. reflexivity.
    + unfold inSingle; simpl. rewrite H1, H2. reflexivity.
  - unfold step. rewrite H1, H2, H3, H4. reflexivity.
Qed.

Lemma double_quoted_region (st : SplitState) (body rest : string) :
  quiet st = true -> quotedBody DQUOTE body = true ->
  nextIs DQUOTE (peek rest) = false ->
  loop st (chr DQUOTE +:+ body +:+ chr DQUOTE +:+ rest)
  = loop (append st (chr DQUOTE +:+ body +:+ chr DQUOTE)) rest.
Proof.
  intros Hq Hbody Hrest. destruct (quiet_flags _ Hq) as (H1 & H2 & H3 & H4).
  change (chr DQUOTE +:+ body +:+ chr DQUOTE +:+ rest)
    with (String DQUOTE (body +:+ String DQUOTE rest)).
  rewrite (loop_no_skip st (setDouble true (append st (chr DQUOTE)))).
  - rewrite (loop_in_quote DQUOTE inDouble setDouble step_in_double
               (fun _ _ => eq_refl) _ body (Nat.le_refl _) Hbody);
      [| |exact Hrest].
    + f_equal. destruct st; simpl in *. subst.
      unfold setDouble, append; simpl. rewrite !append_assoc. reflexivity.
    + unfold inDouble; simpl. rewrite H1, H2, H3. reflexivity.
  - unfold step. rewrite H1, H2, H3, H4. reflexivity.
Qed.

Lemma line_comment_region (st : SplitState) (body rest : string) :
  quiet st = true -> contains NEWLINE body = false ->
  loop st ("--" +:+ body +:+ chr NEWLINE +:+ rest)
  = loop (append st ("--" +:+ body +:+ chr NEWLINE)) rest.
Proof.
  intros Hq Hbody. destruct (quiet_flags _ Hq) as (H1 & H2 & H3 & H4).
  change ("--" +:+ body +:+ chr NEWLINE +:+ rest)
    with (String "-"%char (String "-"%char (body +:+ String NEWLINE rest))).
  rewrite (loop_skip st (setLine true (append st "--"))).
  - rewrite (loop_in_line _ _ Hbody); [|reflexivity].
    rewrite loop_line_end; [|reflexivity].
    f_equal. destruct st; simpl in *. subst.
    unfold setLine, append; simpl. rewrite !append_assoc. reflexivity.
  - unfold step. rewrite H1, H2, H3, H4. simpl. rewrite append_append. reflexivity.
Qed.

Lemma block_comment_region (st : SplitState) (body rest : string) :
  quiet st = true -> hasBlockEnd body = false ->
  loop st ("/*" +:+ body +:+ "*/" +:+ rest)
  = loop (append st ("/*" +:+ body +:+ "*/")) rest.
Proof.
  intros Hq Hbody. destruct (quiet_flags _ Hq) as (H1 & H2 & H3 & H4).
  change ("/*" +:+ body +:+ "*/" +:+ rest)
    with (String "/"%char (String "*"%char (body +:+ "*/" +:+ rest))).
  rewrite (loop_skip st (setBlock true (append st "/*"))).
  - rewrite (loop_block_end _ _ Hbody); [|exact H1|reflexivity].
    f_equal. destruct st; simpl in *. subst.
    unfold setBlock, append; simpl. rewrite !append_assoc. reflexivity.
  - unfold step. rewrite H1, H2, H3, H4. simpl. rewrite append_append. reflexivity.
Qed.

(** An unterminated block comment: the loop stays in the comment up to the
    end of the input. *)
Lemma block_comment_open (st : SplitState) (body : string) :
  quiet st = true -> hasBlockEnd body = false ->
  loop st ("/*" +:+ body) = setBlock true (append st ("/*" +:+ body)).
Proof.
  intros Hq Hbody. destruct (quiet_flags _ Hq) as (H1 & H2 & H3 & H4).
  change ("/*" +:+ body) with (String "/"%char (String "*"%char body)).
  rewrite (loop_skip st (setBlock true (append st "/*"))).
  - rewrite (loop_in_block _ Hbody); [|exact H1|reflexivity].
    destruct st; simpl in *. subst.
    unfold setBlock, append; simpl. rewrite !append_assoc. reflexivity.
  - unfold step. rewrite H1, H2, H3, H4. simpl. rewrite append_append. reflexivity.
Qed.

Lemma truthy_trim_comment (cur body : string) :
  truthy (trim (cur +:+ "/*" +:+ body)) = true.
Proof.
  rewrite truthy_trim, !blank_append, andb_false_r. reflexivity.
Qed.

Lemma step_semicolon_in_region (st : SplitState) (next : option ascii) :
  quiet st = false -> step st ";" next = (append st ";", false).
Proof.
  unfold quiet, step. rewrite negb_false_iff.
  destruct (inLineComment st); [reflexivity|].
  destruct (inBlockComment st); [reflexivity|].
  destruct (inSingleQuote st); [reflexivity|].
  destruct (inDoubleQuote st); [reflexivity|discriminate].
Qed.

End SplitterRegions.

(** ** A script as its terminated statements and what follows them *)

Module SplitterSegments.
Import Js JsFacts Splitter SplitterFacts SplitterOrder SplitterRegions.

Lemma string_length_append (s t : string) :
  String.length (s +:+ t) = String.length s + String.length t.
Proof.
  induction s as [|c s IH]; [reflexivity|]. rewrite append_cons. simpl. lia.
Qed.

Lemma split_terminated (s : string) :
  selfContained s = true ->
  splitSqlStatements (s +:+ ";") = pushTrimmed [] s.
Proof.
  unfold selfContained. intros [Ht Hq]%andb_prop. apply Nat.eqb_eq in Ht.
  unfold splitSqlStatements. rewrite (loop_terminated _ _ Hq).
  destruct (loop_no_terminator s initial Ht) as [Hs Hc].
  unfold finish, endStatement. simpl. rewrite Hs, Hc. simpl.
  apply pushTrimmed_blank. reflexivity.
Qed.

Lemma split_joined (stmts : list string) :
  Forall (fun s => selfContained s = true) stmts ->
  splitSqlStatements (joinTerminated stmts) = filterBoolean (List.map trim stmts).
Proof.
  induction 1 as [|s stmts Hs Hall IH]; [reflexivity|].
  cbn [joinTerminated List.map].
  pose proof Hs as Hs'. unfold selfContained in Hs'.
  apply andb_prop in Hs' as [_ Hq].
  rewrite (split_semicolon _ _ Hq), (split_terminated _ Hs), IH.
  unfold pushTrimmed, filterBoolean. simpl.
  destruct (truthy (trim s)); reflexivity.
Qed.

(** The statements of terminated self-contained texts followed by any
    text: those of the texts, then those of what follows. *)
Lemma split_joined_then (stmts : list string) (rest : string) :
  Forall (fun s => selfContained s = true) stmts ->
  splitSqlStatements (joinTerminated stmts +:+ rest)
  = filterBoolean (List.map trim stmts) ++ splitSqlStatements rest.
Proof.
  induction 1 as [|s stmts Hs Hall IH]; [reflexivity|].
  cbn [joinTerminated List.map]. rewrite !append_assoc.
  pose proof Hs as Hs'. unfold selfContained in Hs'.
  apply andb_prop in Hs' as [_ Hq].
  rewrite (split_semicolon _ _ Hq), (split_terminated _ Hs), IH.
  unfold pushTrimmed, filterBoolean. cbn [List.filter].
  destruct (truthy (trim s)); reflexivity.
Qed.

(** *** The first top-level semicolon *)

Lemma first_terminator (s : string) (st : SplitState) :
  terminators st s <> 0 ->
  exists seg rest,
    s = seg +:+ ";" +:+ rest
    /\ terminators st seg = 0
    /\ quiet (loop st seg) = true.
Proof.
  revert s st. apply (loop_induction (fun st s =>
    terminators st s <> 0 ->
    exists seg rest,
      s = seg +:+ ";" +:+ rest
      /\ terminators st seg = 0
      /\ quiet (loop st seg) = true)).
  - intros st Hn. cbn [terminators] in Hn. congruence.
  - intros st st' ch rest Hstep IH Hn.
    cbn [terminators] in Hn. rewrite Hstep in Hn.
    destruct (endsStatement st ch) eqn:He.
    + unfold endsStatement in He. apply andb_prop in He as [Hq Hc].
      apply ceq_eq in Hc. subst ch.
      exists EmptyString, rest. auto.
    + destruct (IH Hn) as (seg & rest' & -> & Ht & Hq).
      exists (String ch seg), rest'.
      assert (Hs : step st ch (peek seg) = (st', false)).
      { rewrite <- Hstep. change (";" +:+ rest') with (String ";"%char rest').
        rewrite peek_append. destruct seg; [|reflexivity].
        symmetry. apply step_neutral_next, neutral_semicolon. }
      split; [reflexivity|]. split.
      * cbn [terminators]. rewrite Hs, He. exact Ht.
      * rewrite (loop_no_skip _ _ _ _ Hs). exact Hq.
  - intros st st' ch n rest Hstep IH Hn.
    cbn [terminators peek] in Hn. rewrite Hstep in Hn.
    destruct (endsStatement st ch) eqn:He.
    + destruct (step_shape st ch (Some n)) as [[_ Hx] | [He' _]];
        [rewrite Hstep in Hx; discriminate|congruence].
    + destruct (IH Hn) as (seg & rest' & -> & Ht & Hq).
      exists (String ch (String n seg)), rest'.
      split; [reflexivity|]. split.
      * cbn [terminators peek]. rewrite Hstep, He. exact Ht.
      * rewrite (loop_skip _ _ _ _ _ Hstep). exact Hq.
Qed.

(** Every script is a list of terminated self-contained texts followed by
    a text without top-level semicolon. *)
Lemma split_decomposition (n : nat) :
  forall sqlText,
    String.length sqlText <= n ->
    exists stmts last,
      sqlText = joinTerminated stmts +:+ last
      /\ Forall (fun s => selfContained s = true) stmts
      /\ terminators initial last = 0.
Proof.
  induction n as [|n IH]; intros sqlText Hlen.
  - destruct sqlText; [|simpl in Hlen; lia].
    exists [], EmptyString. auto.
  - destruct (Nat.eq_dec (terminators initial sqlText) 0) as [Hz | Hnz].
    + exists [], sqlText. auto.
    + destruct (first_terminator sqlText initial Hnz) as (seg & rest & -> & Ht & Hq).
      destruct (IH rest) as (stmts & last & -> & Hall & Hl).
      { rewrite !string_length_append in Hlen. simpl in Hlen. lia. }
      exists (seg :: stmts), last. split; [|split; [|exact Hl]].
      * cbn [joinTerminated]. rewrite !append_assoc. reflexivity.
      * constructor; [|exact Hall].
        unfold selfContained. rewrite Ht, Hq. reflexivity.
Qed.

End SplitterSegments.

Module SplitterClaims.
Import Js JsFacts Splitter SplitterFacts SplitterOrder SplitterRegions
  SplitterSegments.

Example split_three_statements :
  splitSqlStatements "SELECT 1; INSERT INTO t VALUES (2) ;  SELECT 3;"
  = ["SELECT 1"; "INSERT INTO t VALUES (2)"; "SELECT 3"].
Proof. vm_compute. reflexivity. Qed.

Example split_doubled_quote :
  splitSqlStatements "SELECT 'it''s; fine'; SELECT 2"
  = ["SELECT 'it''s; fine'"; "SELECT 2"].
Proof. vm_compute. reflexivity. Qed.

Example split_line_comment :
  splitSqlStatements ("SELECT 1 -- one; two" +:+ chr NEWLINE +:+ "; SELECT 2")
  = ["SELECT 1 -- one; two"; "SELECT 2"].
Proof. vm_compute. reflexivity. Qed.

Example split_open_block_comment :
  splitSqlStatements "SELECT 1; /* rest; of; input"
  = ["SELECT 1"; "/* rest; of; input"].
Proof. vm_compute. reflexivity. Qed.

(** C4. From any point of the scan that lies outside quotes and comments
    ([quiet st]), a whole single-quoted region, double-quoted region, line
    comment or block comment goes to the accumulator unchanged, whatever
    semicolons it holds: the statements produced so far stay as they are and
    the scan resumes after the region. An unterminated block comment takes
    the rest of the input, which ends up in one final statement. In any
    state inside such a region a semicolon is appended to the accumulator
    like any other character. The script [SELECT ';' ; SELECT 1;] splits
    into exactly two statements. *)
Theorem semicolon_inside_region_never_splits (st : SplitState) :
  quiet st = true ->
  (forall body rest,
      quotedBody "'" body = true -> nextIs "'" (peek rest) = false ->
      loop st ("'" +:+ body +:+ "'" +:+ rest)
      = loop (append st ("'" +:+ body +:+ "'")) rest)
  /\ (forall body rest,
      quotedBody DQUOTE body = true -> nextIs DQUOTE (peek rest) = false ->
      loop st (chr DQUOTE +:+ body +:+ chr DQUOTE +:+ rest)
      = loop (append st (chr DQUOTE +:+ body +:+ chr DQUOTE)) rest)
  /\ (forall body rest,
      contains NEWLINE body = false ->
      loop st ("--" +:+ body +:+ chr NEWLINE +:+ rest)
      = loop (append st ("--" +:+ body +:+ chr NEWLINE)) rest)
  /\ (forall body rest,
      hasBlockEnd body = false ->
      loop st ("/*" +:+ body +:+ "*/" +:+ rest)
      = loop (append st ("/*" +:+ body +:+ "*/")) rest)
  /\ (forall body,
      hasBlockEnd body = false ->
      finish (loop st ("/*" +:+ body))
      = statements st ++ [trim (current st +:+ "/*" +:+ body)])
  /\ (forall inside next,
      quiet inside = false -> step inside ";" next = (append inside ";", false))
  /\ splitSqlStatements "SELECT ';' ; SELECT 1;" = ["SELECT ';'"; "SELECT 1"].
Proof.
  intros Hq. repeat split.
  - intros body rest. apply single_quoted_region, Hq.
  - intros body rest. apply double_quoted_region, Hq.
  - intros body rest. apply line_comment_region, Hq.
  - intros body rest. apply block_comment_region, Hq.
  - intros body Hbody. rewrite (block_comment_open _ _ Hq Hbody).
    unfold finish, pushTrimmed. simpl. rewrite truthy_trim_comment. reflexivity.
  - intros inside next. apply step_semicolon_in_region.
Qed.

Lemma semicolon_inside_region_never_splits_witness :
  quiet initial = true
  /\ loop initial "'a;b' ; SELECT 1" = loop (append initial "'a;b'") " ; SELECT 1"
  /\ loop initial ("--" +:+ " a;b" +:+ chr NEWLINE +:+ "; SELECT 1")
     = loop (append initial ("--" +:+ " a;b" +:+ chr NEWLINE)) "; SELECT 1"
  /\ loop initial "/* a;b */; SELECT 1" = loop (append initial "/* a;b */") "; SELECT 1"
  /\ finish (loop initial "/* a; b; c") = ["/* a; b; c"].
Proof.
  destruct (semicolon_inside_region_never_splits initial eq_refl)
    as (Hs & _ & Hl & Hb & Ho & _).
  split; [reflexivity|]. split; [|split; [|split]].
  - apply (Hs "a;b" " ; SELECT 1"); reflexivity.
  - apply (Hl " a;b" "; SELECT 1"); reflexivity.
  - apply (Hb " a;b " "; SELECT 1"); reflexivity.
  - apply (Ho " a; b; c"); reflexivity.
Defined.

(** C7. A script is a list of texts, each ended by a top-level semicolon,
    followed by a trailing text. When the trailing text trims to something
    non-empty, the result is the trimmed texts that are not blank, in the
    order of the script, followed by the trimmed trailing text as the final
    statement; a script without any top-level semicolon is that one
    statement, so [SELECT 1] yields [SELECT 1]. Every script is of this
    form, with a trailing text that is pushed only when it is not blank.
    Every element of a result is a non-empty trimmed string, and the
    statements before a top-level semicolon precede, in order, those after
    it. *)
Theorem split_trailing_statement (stmts : list string) (tail : string) :
  Forall (fun s => selfContained s = true) stmts ->
  terminators initial tail = 0 ->
  truthy (trim tail) = true ->
  splitSqlStatements (joinTerminated stmts +:+ tail)
  = filterBoolean (List.map trim stmts) ++ [trim tail]
  /\ splitSqlStatements tail = [trim tail]
  /\ splitSqlStatements "SELECT 1" = ["SELECT 1"]
  /\ (forall s, Forall isStatement (splitSqlStatements s))
  /\ (forall sqlText,
      exists texts last,
        sqlText = joinTerminated texts +:+ last
        /\ Forall (fun s => selfContained s = true) texts
        /\ terminators initial last = 0
        /\ splitSqlStatements sqlText
           = filterBoolean (List.map trim texts) ++ pushTrimmed [] last)
  /\ (forall pre b,
      quiet (loop initial pre) = true ->
      splitSqlStatements (pre +:+ ";" +:+ b)
      = splitSqlStatements (pre +:+ ";") ++ splitSqlStatements b).
Proof.
  intros Hall Ht Hn.
  assert (Htail : splitSqlStatements tail = [trim tail]).
  { rewrite (split_no_terminator _ Ht). unfold pushTrimmed. rewrite Hn. reflexivity. }
  split; [rewrite (split_joined_then _ _ Hall), Htail; reflexivity|].
  split; [exact Htail|]. split; [reflexivity|].
  split; [apply split_statements|]. split.
  - intros sqlText.
    destruct (split_decomposition (String.length sqlText) sqlText (Nat.le_refl _))
      as (texts & last & -> & Htexts & Hlast).
    exists texts, last. repeat split; try assumption.
    rewrite (split_joined_then _ _ Htexts), (split_no_terminator _ Hlast).
    reflexivity.
  - intros pre b Hq. apply split_semicolon, Hq.
Qed.

Lemma split_trailing_statement_witness :
  Forall (fun s => selfContained s = true) ["SELECT 1"; " "; "SELECT ';'"]
  /\ terminators initial " SELECT 2 " = 0
  /\ splitSqlStatements "SELECT 1; ;SELECT ';'; SELECT 2 "
     = ["SELECT 1"; "SELECT ';'"; "SELECT 2"].
Proof.
  split; [repeat constructor|]. split; [reflexivity|].
  pose proof (split_trailing_statement ["SELECT 1"; " "; "SELECT ';'"]
                " SELECT 2 ") as P.
  destruct P as [P _]; [repeat constructor|reflexivity|reflexivity|].
  vm_compute in P. vm_compute. exact P.
Defined.

End SplitterClaims.

(** ** Query pipeline *)

Module QueryFacts.
Import Js JsFacts Driver.

(** *** Result-set-shaped statements *)






Section Instance.
Context {World : Type} `{Host World} `{Builtins}.
Variable credentials : Credentials.
Variable connId : string.

Local Abbreviation successResult := (successResult credentials connId).
Local Abbreviation errorResult := (errorResult connId).
Local Abbreviation runStatements := (runStatements credentials connId).

(** *** One statement *)

Lemma successResult_ok (requestId : option string) (q : string)
  (st st' : DriverState) (r : NSDatabase.IResult) :
  successResult requestId q st = (inr r, st') ->
  NSDatabase.query r = q /\ NSDatabase.error r = false
  /\ NSDatabase.rawError r = None
  /\ (NSDatabase.results r = [] ->
      NSDatabase.messages r
      = if isResultSetQuery q then [] else [prepareMessage SUCCESS_TEXT]).
Proof.
  unfold Driver.successResult, bind, ret, throw, callCreateResultId.
  destruct (runSingleQuery credentials q st) as [[e|rows] st1]; [discriminate|].
  destruct (createResultId (world st1)) as [id w].
  destruct rows as [|first rows].
  - intros [= <- <-]. simpl. repeat split.
    intros _. destruct (isResultSetQuery q); reflexivity.
  - destruct (objectKeys first); [|discriminate].
    intros [= <- <-]. simpl. repeat split. discriminate.
Qed.

Lemma errorResult_spec (requestId : option string) (q : string) (e : JsError)
  (st : DriverState) :
  errorResult requestId q e st
  = (inr (NSDatabase.mkResult requestId (fst (createResultId (world st))) connId
            [] [prepareMessage (messageOrError e)] q [] true (Some e)),
     mkState (connection st) (snd (createResultId (world st)))
       (trace st ++ [EvResultId])).
Proof.
  unfold Driver.errorResult, bind, ret, callCreateResultId.
  destruct (createResultId (world st)); reflexivity.
Qed.

(** *** The loop over the statements *)

(** [query] never throws: the loop returns the results gathered so far,
    extended. *)
Lemma runStatements_extends (requestId : option string) (queries : list string) :
  forall acc st, exists new st',
    runStatements requestId queries acc st = (inr (acc ++ new), st').
Proof.
  induction queries as [|q queries IH]; intros acc st; simpl.
  - exists [], st. unfold ret. rewrite List.app_nil_r. reflexivity.
  - destruct (successResult requestId q st) as [[e|r] st1].
    + unfold bind. rewrite errorResult_spec. unfold ret. eauto.
    + destruct (IH (acc ++ [r]) st1) as (new & st' & E).
      exists (r :: new), st'. rewrite E, <- List.app_assoc. reflexivity.
Qed.


(** When every statement of [pre] succeeds, the loop over [pre ++ rest]
    reaches [rest] with one result per statement of [pre], in order. *)
Lemma runStatements_prefix (requestId : option string) (pre : list string) :
  forall acc st new st1,
    runStatements requestId pre acc st = (inr (acc ++ new), st1) ->
    Forall (fun r => NSDatabase.error r = false) new ->
    List.map NSDatabase.query new = pre
    /\ forall rest,
         runStatements requestId (pre ++ rest) acc st
         = runStatements requestId rest (acc ++ new) st1.
Proof.
  induction pre as [|q pre IH]; intros acc st new st1; simpl.
  - unfold ret. intros [= E <-] _.
    assert (new = []) as ->.
    { apply (f_equal (@List.length _)) in E. rewrite List.length_app in E.
      destruct new; [reflexivity|simpl in E; lia]. }
    rewrite List.app_nil_r. auto.
  - destruct (successResult requestId q st) as [[e|r] st2] eqn:Hs.
    + unfold bind. rewrite errorResult_spec. unfold ret. intros [= E <-] Hok.
      apply List.app_inv_head in E. subst new.
      apply Forall_inv in Hok. discriminate.
    + intros Hrun Hok.
      destruct (runStatements_extends requestId pre (acc ++ [r]) st2)
        as (new' & st' & E).
      rewrite E in Hrun. injection Hrun as Hrs <-.
      rewrite <- List.app_assoc in Hrs. apply List.app_inv_head in Hrs.
      simpl in Hrs. subst new.
      rewrite <- List.app_assoc in E. simpl in E.
      apply Forall_inv_tail in Hok.
      assert (E' : runStatements requestId pre (acc ++ [r]) st2
                   = (inr ((acc ++ [r]) ++ new'), st')).
      { rewrite <- List.app_assoc. exact E. }
      destruct (IH _ _ _ _ E' Hok) as [Hmap Hrest].
      destruct (successResult_ok _ _ _ _ _ Hs) as (Hq & _).
      split; [simpl; rewrite Hq, Hmap; reflexivity|].
      intros rest. rewrite Hrest, <- List.app_assoc. reflexivity.
Qed.

(** *** The result of one statement and the outcome of its run *)



End Instance.
End QueryFacts.

(** ** Executable resolver and [open] *)

Module ResolverFacts.
Import Js JsFacts Driver.

Section Instance.
Context {World : Type} `{Host World} `{Builtins}.
Variable credentials : Credentials.
Variable connId : string.

(** *** The connection handle is touched by [open] alone *)

Local Abbreviation keeps := (@keepsConnection World _).

Lemma keeps_ret {A} (a : A) : keeps (ret a).
Proof. intros st. reflexivity. Qed.

Lemma keeps_throw {A} (e : JsError) : keeps (@throw _ A e).
Proof. intros st. reflexivity. Qed.

Lemma keeps_bind {A B} (m : M A) (k : A -> M B) :
  keepsConnection m -> (forall a, keeps (k a)) -> keeps (bind m k).
Proof.
  intros Hm Hk st. unfold bind. specialize (Hm st).
  destruct (m st) as [[e|a] st1]; simpl in *; [exact Hm|].
  rewrite (Hk a st1). exact Hm.
Qed.

Lemma keeps_tryCatch {A} (m : M A) (h : JsError -> M A) :
  keepsConnection m -> (forall e, keeps (h e)) ->
  keeps (tryCatch m h).
Proof.
  intros Hm Hh st. unfold tryCatch. specialize (Hm st).
  destruct (m st) as [[e|a] st1]; simpl in *; [|exact Hm].
  rewrite (Hh e st1). exact Hm.
Qed.

Lemma keeps_callExistsSync (path : string) : keeps (callExistsSync path).
Proof. intros st. reflexivity. Qed.

Lemma keeps_callExecFile (exe : string) (args : list string) :
  keeps (callExecFile exe args).
Proof.
  intros st. unfold callExecFile. destruct (execFile (world st) exe args). reflexivity.
Qed.

Lemma keeps_readEnv (name : string) : keeps (readEnv name).
Proof. intros st. reflexivity. Qed.

Lemma keeps_absolute (p : string) : keeps (absolute p).
Proof. intros st. reflexivity. Qed.

Lemma keeps_absoluteIfPathLike (p : string) : keeps (absoluteIfPathLike p).
Proof.
  unfold absoluteIfPathLike.
  destruct (negb (truthy p)); [apply keeps_ret|].
  destruct (isPathLike p); [apply keeps_absolute|apply keeps_ret].
Qed.

Lemma keeps_validate (path : string) : keeps (validateExecutablePath path).
Proof.
  unfold validateExecutablePath. apply keeps_bind.
  - destruct (isPathLike path); [|apply keeps_ret].
    apply keeps_bind; [apply keeps_callExistsSync|intros; apply keeps_ret].
  - intros [|]; [apply keeps_throw|].
    apply keeps_bind; [apply keeps_callExecFile|].
    intros [out|error]; [apply keeps_ret|apply keeps_throw].
Qed.

Lemma keeps_tryCandidates (candidates : list string) :
  forall attempts, keeps (tryCandidates candidates attempts).
Proof.
  induction candidates as [|c candidates IH]; intros attempts st; simpl.
  - reflexivity.
  - pose proof (keeps_validate c st) as Hv.
    destruct (validateExecutablePath c st) as [[e|u] st1]; simpl in *; [|exact Hv].
    rewrite IH. exact Hv.
Qed.

Lemma keeps_resolve : keeps (resolveExecutablePath credentials).
Proof.
  unfold resolveExecutablePath. apply keeps_bind.
  { apply keeps_absoluteIfPathLike. }
  intros p. destruct (truthy p).
  { apply keeps_tryCatch; [|intros; apply keeps_throw].
    apply keeps_bind; [apply keeps_validate|intros; apply keeps_ret]. }
  apply keeps_bind.
  { apply keeps_bind; [apply keeps_readEnv|intros; apply keeps_absoluteIfPathLike]. }
  intros q. destruct (truthy q).
  { apply keeps_tryCatch; [|intros; apply keeps_throw].
    apply keeps_bind; [apply keeps_validate|intros; apply keeps_ret]. }
  intros st.
  apply (keeps_bind (tryCandidates (getAutoExecutableCandidates st) [])).
  - apply keeps_tryCandidates.
  - intros [c|attempts]; [apply keeps_ret|apply keeps_throw].
Qed.

(** *** The calls made by one validation *)

Lemma validate_trace (path : string) (st : DriverState) :
  exists evs,
    trace (snd (validateExecutablePath path st)) = trace st ++ evs
    /\ Forall (validationEvent path) evs.
Proof.
  assert (Hex : validationEvent path (EvExists path)) by (left; reflexivity).
  assert (Hrun : validationEvent path (EvExec path ["--version"]))
    by (right; reflexivity).
  unfold validateExecutablePath, bind, ret, throw, callExistsSync, callExecFile,
    logEvent.
  destruct (isPathLike path); simpl.
  - destruct (existsSync (world st) path); simpl.
    + exists [EvExists path; EvExec path ["--version"]].
      split; [|auto using Forall_cons, Forall_nil].
      destruct (execFile (world st) path ["--version"]) as [[out|error] w]; simpl;
        rewrite <- List.app_assoc; reflexivity.
    + exists [EvExists path]. split; [reflexivity|auto using Forall_cons, Forall_nil].
  - exists [EvExec path ["--version"]].
    split; [|auto using Forall_cons, Forall_nil].
    destruct (execFile (world st) path ["--version"]) as [[out|error] w]; reflexivity.
Qed.

(** *** The configured path *)

Lemma configured_path (st : DriverState) (x : string) :
  duckdbCliPath credentials = Some x
  \/ (opt_or_empty (duckdbCliPath credentials) = EmptyString
      /\ duckdbPath credentials = Some x) ->
  truthy (trim x) = true ->
  getConfiguredExecutablePath credentials st
  = (inr (if isPathLike (trim x) then toAbsolutePath (world st) (trim x) else trim x),
     st).
Proof.
  intros Hset Hx.
  assert (Hxx : truthy x = true).
  { destruct x; [discriminate Hx|reflexivity]. }
  unfold getConfiguredExecutablePath.
  assert (or_else (opt_or_empty (duckdbCliPath credentials))
            (or_else (opt_or_empty (duckdbPath credentials)) EmptyString) = x) as ->.
  { destruct Hset as [-> | [-> ->]]; unfold or_else; simpl; rewrite Hxx; reflexivity. }
  unfold absoluteIfPathLike. rewrite Hx. simpl.
  destruct (isPathLike (trim x)); reflexivity.
Qed.

End Instance.
End ResolverFacts.

(** ** Claims on the resolver and the query pipeline *)

Module DriverClaims.
Import Js JsFacts Driver QueryFacts ResolverFacts.

Section Instance.
Context {World : Type} `{Host World} `{Builtins}.
Variable credentials : Credentials.
Variable connId : string.

Local Abbreviation successResult := (successResult credentials connId).
Local Abbreviation errorResult := (errorResult connId).
Local Abbreviation runStatements := (runStatements credentials connId).
Local Abbreviation query := (query credentials connId).

(** A failed spawn and an unparsable output both make the body of the
    [try] throw: these are the failures of a statement. *)
Lemma spawn_failure_throws (requestId : option string) (q : string)
  (st : DriverState) (c : TDuckDBConnection) (error : JsError) (w : World) :
  connection st = Some c ->
  execFile (world st) (executablePath c) (cliArguments c q) = (ExecFail error, w) ->
  successResult requestId q st
  = (inl (newError (queryFailure error)),
     mkState (Some c) w
       (trace st ++ [EvExec (executablePath c) (cliArguments c q)])).
Proof.
  intros Hc He.
  unfold Driver.successResult, runSingleQuery, bind, open, callExecFile.
  rewrite Hc, He. simpl. rewrite Hc. reflexivity.
Qed.

Lemma unparsable_output_throws (requestId : option string) (q : string)
  (st : DriverState) (c : TDuckDBConnection) (out msg : string) (w : World) :
  connection st = Some c ->
  execFile (world st) (executablePath c) (cliArguments c q) = (ExecOk out, w) ->
  truthy (trim out) = true ->
  JSON_parse out = inr msg ->
  successResult requestId q st
  = (inl (newError (or_else msg "DuckDB CLI query failed.")),
     mkState (Some c) w
       (trace st ++ [EvExec (executablePath c) (cliArguments c q)])).
Proof.
  intros Hc He Hout Hp.
  assert (Ht : truthy out = true).
  { destruct out; [discriminate Hout|reflexivity]. }
  unfold Driver.successResult, runSingleQuery, bind, open, callExecFile.
  rewrite Hc, He. simpl. rewrite Hc, Ht, Hout, Hp. reflexivity.
Qed.

(** C1. When the statements before the [k]-th all succeed and the [k]-th
    fails, [query] returns exactly [k] results in order: those of the
    [k - 1] successes, kept as they were produced, then one error result for
    the failing statement. The statements after it are never attempted: the
    results and the final state, world and trace included, are those of
    the script cut after the failing statement, and the only call made
    after the failure draws the id of the error result. *)
Theorem query_fails_fast (sqlText : string) (requestId : option string)
  (st st1 st2 : DriverState) (pre post : list string) (q : string)
  (rs : list NSDatabase.IResult) (e : JsError) :
  filterBoolean (Splitter.splitSqlStatements sqlText) = pre ++ q :: post ->
  runStatements requestId pre [] st = (inr rs, st1) ->
  Forall (fun r => NSDatabase.error r = false) rs ->
  successResult requestId q st1 = (inl e, st2) ->
  exists r st3,
    query sqlText requestId st = (inr (rs ++ [r]), st3)
    /\ List.length (rs ++ [r]) = S (List.length pre)
    /\ List.map NSDatabase.query rs = pre
    /\ NSDatabase.query r = q
    /\ NSDatabase.error r = true
    /\ NSDatabase.results r = []
    /\ NSDatabase.messages r = [prepareMessage (messageOrError e)]
    /\ trace st3 = trace st2 ++ [EvResultId]
    /\ connection st3 = connection st2
    /\ runStatements requestId (pre ++ [q]) [] st = (inr (rs ++ [r]), st3).
Proof.
  intros Hsplit Hpre Hok Hfail.
  destruct (runStatements_prefix credentials connId requestId pre [] st rs st1 Hpre Hok)
    as [Hmap Hrest].
  eexists. eexists.
  split.
  { unfold Driver.query. rewrite Hsplit, Hrest. simpl.
    rewrite Hfail. unfold bind. rewrite errorResult_spec. reflexivity. }
  split. { rewrite List.length_app, <- Hmap, List.length_map. simpl. lia. }
  repeat split; try assumption.
  rewrite Hrest. simpl. rewrite Hfail. unfold bind.
  rewrite errorResult_spec. reflexivity.
Qed.


(** C10. A script made of white space and semicolons splits into no
    statement, and [query] then returns no result and leaves the driver,
    the world and the trace as they were: nothing is resolved, opened or
    executed. *)
Theorem blank_script_runs_nothing (sqlText : string) (requestId : option string)
  (st : DriverState) :
  Splitter.blankOrSemicolon sqlText = true ->
  Splitter.splitSqlStatements sqlText = []
  /\ query sqlText requestId st = (inr [], st).
Proof.
  intros Hb. pose proof (SplitterFacts.split_blank _ Hb) as Hs.
  split; [exact Hs|]. unfold Driver.query. rewrite Hs. reflexivity.
Qed.


(** C2, as the code has it. With read-only enabled on the in-memory
    database, a first [open] always fails and creates no connection handle,
    but the executable is resolved first: [open] fails with the resolver's
    error when resolution fails, and with the configuration error, in the
    state resolution left, when it succeeds. No directory is created and no
    database file is looked for. *)
Theorem open_read_only_memory_fails_after_resolution (st : DriverState) :
  connection st = None ->
  isReadOnlyEnabled credentials = true ->
  (forall w,
      isMemory (toAbsolutePath w
                  (or_else (opt_or_empty (database credentials)) ":memory:"))
      = true) ->
  open credentials st
  = match resolveExecutablePath credentials st with
    | (inl e, st') => (inl e, st')
    | (inr _, st') => (inl readOnlyMemoryError, st')
    end
  /\ connection (snd (open credentials st)) = None.
Proof.
  intros Hc Hro Hmem.
  assert (E : open credentials st
              = match resolveExecutablePath credentials st with
                | (inl e, st') => (inl e, st')
                | (inr _, st') => (inl readOnlyMemoryError, st')
                end).
  { unfold open. rewrite Hc. unfold bind.
    destruct (resolveExecutablePath credentials st) as [[e|exe] st'];
      [reflexivity|].
    unfold getDatabase, absolute. rewrite Hro, Hmem. reflexivity. }
  split; [exact E|]. rewrite E.
  pose proof (keeps_resolve credentials st) as Hk.
  destruct (resolveExecutablePath credentials st) as [[e|exe] st']; simpl in *;
    congruence.
Qed.

End Instance.

(** *** The claims in the concrete environment *)

Import Demo.

Lemma query_fails_fast_witness :
  exists r st3,
    Driver.query defaults "c1" "SELECT 1; SELECT boom; SELECT 3" None start
    = (inr (firstResults ++ [r]), st3)
    /\ List.length (firstResults ++ [r]) = 2
    /\ NSDatabase.query r = "SELECT boom"
    /\ NSDatabase.error r = true
    /\ trace st3 = trace afterFailure ++ [EvResultId].
Proof.
  destruct (query_fails_fast defaults "c1" "SELECT 1; SELECT boom; SELECT 3" None
              start afterFirst afterFailure ["SELECT 1"] ["SELECT 3"] "SELECT boom"
              firstResults boomError)
    as (r & st3 & Hq & Hlen & _ & Hr & He & _ & _ & Ht & _).
  - vm_compute. reflexivity.
  - vm_compute. reflexivity.
  - repeat constructor.
  - vm_compute. reflexivity.
  - exists r, st3. auto.
Defined.

Example select_without_rows :
  fst (Driver.query defaults "c1" "SELECT 1" None start)
  = inr [NSDatabase.mkResult None "id-0" "c1" [] [] "SELECT 1" [] false None].
Proof. vm_compute. reflexivity. Qed.

Example create_table_without_rows :
  fst (Driver.query defaults "c1" "CREATE TABLE t (x INT)" None start)
  = inr [NSDatabase.mkResult None "id-0" "c1" []
           [prepareMessage "Statement executed successfully."]
           "CREATE TABLE t (x INT)" [] false None].
Proof. vm_compute. reflexivity. Qed.

Lemma blank_script_runs_nothing_witness :
  Splitter.blankOrSemicolon " ; ;; " = true
  /\ Driver.query defaults "c1" " ; ;; " None start = (inr [], start).
Proof.
  split; [vm_compute; reflexivity|].
  apply (blank_script_runs_nothing defaults "c1" " ; ;; " None start).
  vm_compute. reflexivity.
Defined.




(** C2, as stated, fails: with read-only enabled on [:memory:], [open]
    ends with the configuration error only after the resolver has read the
    environment variable and run the validation subprocess of the first
    candidate. *)
Lemma open_read_only_memory_resolves_first :
  fst (open readOnlyMemory start) = inl readOnlyMemoryError
  /\ trace (snd (open readOnlyMemory start))
     = [EvReadEnv DUCKDB_CLI_PATH_ENV; EvExec "duckdb" ["--version"]]
  /\ trace (snd (open readOnlyMemory start)) <> trace start.
Proof.
  split; [vm_compute; reflexivity|]. split; [vm_compute; reflexivity|].
  vm_compute. discriminate.
Qed.

Lemma open_read_only_memory_fails_after_resolution_witness :
  open readOnlyMemory start
  = (inl readOnlyMemoryError,
     mkState None 0 [EvReadEnv DUCKDB_CLI_PATH_ENV; EvExec "duckdb" ["--version"]])
  /\ connection (snd (open readOnlyMemory start)) = None.
Proof.
  destruct (open_read_only_memory_fails_after_resolution readOnlyMemory start)
    as [E Hc]; [reflexivity|reflexivity|intros w; vm_compute; reflexivity|].
  split; [rewrite E; vm_compute; reflexivity|exact Hc].
Defined.

End DriverClaims.

(** ** Completion synthesizer *)

Module CompletionFacts.
Import Js JsFacts Completion.

(** *** Sets and maps kept as lists *)






Lemma mapGet_None (label : string) (m : list (string * Meta.t)) :
  mapGet label m = None <-> ~ In label (List.map fst m).
Proof.
  induction m as [|[k v] m IH]; simpl; [tauto|].
  destruct (streq k label) eqn:E.
  - apply streq_eq in E. split; [discriminate|]. intros Hn. exfalso. auto.
  - apply streq_neq in E. rewrite IH. tauto.
Qed.

Lemma mapGet_Some_in (label : string) (meta : Meta.t) (m : list (string * Meta.t)) :
  mapGet label m = Some meta -> In label (List.map fst m).
Proof.
  intros Hg. destruct (in_dec string_dec label (List.map fst m)) as [Hin|Hn];
    [exact Hin|].
  apply mapGet_None in Hn. congruence.
Qed.

Lemma keys_mapSet (label : string) (meta : Meta.t) (m : list (string * Meta.t)) :
  List.map fst (mapSet label meta m)
  = match mapGet label m with
    | Some _ => List.map fst m
    | None => List.map fst m ++ [label]
    end.
Proof.
  induction m as [|[k v] m IH]; simpl; [reflexivity|].
  destruct (streq k label) eqn:E; simpl; [reflexivity|].
  rewrite IH. destruct (mapGet label m); reflexivity.
Qed.

Lemma NoDup_mapSet (label : string) (meta : Meta.t) (m : list (string * Meta.t)) :
  List.NoDup (List.map fst m) -> List.NoDup (List.map fst (mapSet label meta m)).
Proof.
  intros Hnd. rewrite keys_mapSet.
  destruct (mapGet label m) eqn:E; [exact Hnd|].
  apply mapGet_None in E.
  apply List.NoDup_rev in Hnd. rewrite <- (List.rev_involutive (_ ++ _)).
  apply List.NoDup_rev. rewrite List.rev_app_distr. simpl.
  constructor; [|exact Hnd]. rewrite <- List.in_rev. exact E.
Qed.

Section Synthesizer.
Context `{Builtins}.

(** *** Grouping the function rows *)








Lemma accumulate_NoDup (m : list (string * Meta.t)) (item : FunctionRow.t) :
  List.NoDup (List.map fst m) -> List.NoDup (List.map fst (accumulate m item)).
Proof.
  intros Hnd. unfold accumulate.
  destruct (rowLabel item); [apply NoDup_mapSet|]; exact Hnd.
Qed.

Lemma accumulate_keys (m : list (string * Meta.t)) (item : FunctionRow.t)
  (label : string) :
  In label (List.map fst (accumulate m item))
  <-> In label (List.map fst m) \/ rowLabel item = Some label.
Proof.
  unfold accumulate. destruct (rowLabel item) as [l|]; [|intuition discriminate].
  rewrite keys_mapSet.
  destruct (mapGet l m) eqn:E.
  - split; [auto|]. intros [Hin | [= ->]]; [exact Hin|].
    eapply mapGet_Some_in, E.
  - rewrite in_app_iff. simpl. intuition congruence.
Qed.



Lemma fold_accumulate_NoDup (items : list FunctionRow.t) :
  forall m, List.NoDup (List.map fst m) ->
  List.NoDup (List.map fst (fold_left accumulate items m)).
Proof.
  induction items as [|item items IH]; intros m Hnd; simpl; [exact Hnd|].
  apply IH, accumulate_NoDup, Hnd.
Qed.

Lemma fold_accumulate_keys (items : list FunctionRow.t) :
  forall m label,
    In label (List.map fst (fold_left accumulate items m))
    <-> In label (List.map fst m)
        \/ exists item, In item items /\ rowLabel item = Some label.
Proof.
  induction items as [|item items IH]; intros m label; simpl.
  - split; [auto|]. intros [Hin | (item & [] & _)]. exact Hin.
  - rewrite IH, accumulate_keys. split.
    + intros [[Hin | Hl] | (it & Hit & Hl)]; eauto.
    + intros [Hin | (it & [-> | Hit] & Hl)]; eauto.
Qed.

Lemma groupRows_NoDup (items : list FunctionRow.t) :
  List.NoDup (List.map fst (groupRows items)).
Proof. apply fold_accumulate_NoDup. constructor. Qed.


Lemma groupRows_keys (items : list FunctionRow.t) (label : string) :
  In label (List.map fst (groupRows items))
  <-> exists item, In item items /\ rowLabel item = Some label.
Proof.
  unfold groupRows. rewrite fold_accumulate_keys. simpl. tauto.
Qed.

End Synthesizer.
End CompletionFacts.

Module IndexFacts.
Import Js JsFacts Completion CompletionFacts.

Section Synthesizer.
Context `{Builtins}.

(** *** Publishing the grouped rows into the index *)

Lemma publish_other (completions : gmap string NSDatabase.IStaticCompletion)
  (label other : string) (meta : Meta.t) :
  label <> other -> publish completions (label, meta) !! other = completions !! other.
Proof.
  intros Hne. unfold publish.
  destruct (completions !! label); apply lookup_insert_ne, Hne.
Qed.

Lemma publish_same (completions : gmap string NSDatabase.IStaticCompletion)
  (label : string) (meta : Meta.t) :
  publish completions (label, meta) !! label
  = Some match completions !! label with
         | Some existing => documented existing (docValue label meta)
         | None => functionEntry label meta
         end.
Proof.
  unfold publish. destruct (completions !! label); apply lookup_insert_eq.
Qed.

Lemma fold_publish (m : list (string * Meta.t)) :
  forall (completions : gmap string NSDatabase.IStaticCompletion) (label : string),
    List.NoDup (List.map fst m) ->
    fold_left publish m completions !! label
    = match mapGet label m with
      | Some meta =>
          Some match completions !! label with
               | Some existing => documented existing (docValue label meta)
               | None => functionEntry label meta
               end
      | None => completions !! label
      end.
Proof.
  induction m as [|[k v] m IH]; intros completions label Hnd; [reflexivity|].
  cbn [fold_left mapGet List.map fst] in *.
  apply List.NoDup_cons_iff in Hnd as [Hk Hnd].
  rewrite (IH _ _ Hnd).
  destruct (streq k label) eqn:E.
  - apply streq_eq in E. subst k.
    assert (Hg : mapGet label m = None) by (apply mapGet_None; exact Hk).
    rewrite Hg. apply publish_same.
  - apply streq_neq in E. rewrite (publish_other _ _ _ _ E). reflexivity.
Qed.

Lemma dom_publish (completions : gmap string NSDatabase.IStaticCompletion)
  (label : string) (meta : Meta.t) :
  dom (publish completions (label, meta)) = {[label]} ∪ dom completions.
Proof. unfold publish. destruct (completions !! label); apply dom_insert_L. Qed.

Lemma dom_fold_publish (m : list (string * Meta.t)) :
  forall completions : gmap string NSDatabase.IStaticCompletion,
    dom (fold_left publish m completions)
    = list_to_set (List.map fst m) ∪ dom completions.
Proof.
  induction m as [|[k v] m IH]; intros completions.
  - simpl. rewrite (left_id_L ∅ (∪)). reflexivity.
  - cbn [fold_left List.map fst list_to_set]. rewrite IH, dom_publish.
    rewrite (assoc_L (∪)), (comm_L (∪) (list_to_set _) {[k]}). reflexivity.
Qed.

(** The entry found at a label after [addFunctionCompletions]. *)
Lemma addFunctionCompletions_lookup (items : list FunctionRow.t)
  (completions : gmap string NSDatabase.IStaticCompletion) (label : string) :
  addFunctionCompletions items completions !! label
  = match mapGet label (groupRows items) with
    | Some meta =>
        Some match completions !! label with
             | Some existing => documented existing (docValue label meta)
             | None => functionEntry label meta
             end
    | None => completions !! label
    end.
Proof. apply fold_publish, groupRows_NoDup. Qed.

(** *** Keyword rows *)

Lemma addKeyword_lookup (completions : gmap string NSDatabase.IStaticCompletion)
  (item : JsValue) (label : string) (entry : NSDatabase.IStaticCompletion) :
  addKeyword completions item !! label = Some entry ->
  (normalizeCompletionLabel (getProp item "label") = Some label
   /\ exists category, entry = keywordEntry label category)
  \/ completions !! label = Some entry.
Proof.
  unfold addKeyword.
  destruct (normalizeCompletionLabel (getProp item "label")) as [l|]; [|auto].
  destruct (string_dec l label) as [->|Hne].
  - rewrite lookup_insert_eq. intros [= <-]. left. eauto.
  - rewrite lookup_insert_ne by exact Hne. auto.
Qed.

Lemma addKeywordCompletions_lookup (items : list JsValue) :
  forall (completions : gmap string NSDatabase.IStaticCompletion) label entry,
    addKeywordCompletions items completions !! label = Some entry ->
    (keywordLabel items label /\ exists category, entry = keywordEntry label category)
    \/ completions !! label = Some entry.
Proof.
  unfold addKeywordCompletions, keywordLabel.
  induction items as [|item items IH]; intros completions label entry; simpl; [auto|].
  intros Hl. destruct (IH _ _ _ Hl) as [[(it & Hit & Hn) Hc] | Hprev].
  - left. eauto.
  - destruct (addKeyword_lookup _ _ _ _ Hprev) as [[Hn Hc] | Hc]; [left|right]; eauto.
Qed.

Lemma addKeyword_present (completions : gmap string NSDatabase.IStaticCompletion)
  (item : JsValue) (label : string) :
  is_Some (completions !! label)
  \/ normalizeCompletionLabel (getProp item "label") = Some label ->
  is_Some (addKeyword completions item !! label).
Proof.
  unfold addKeyword.
  destruct (normalizeCompletionLabel (getProp item "label")) as [l|].
  - destruct (string_dec l label) as [->|Hne].
    + rewrite lookup_insert_eq. eauto.
    + rewrite lookup_insert_ne by exact Hne. intros [Hs | [= Hl]]; [exact Hs|].
      contradiction.
  - intros [Hs | Hl]; [exact Hs|discriminate].
Qed.

Lemma addKeywordCompletions_present (items : list JsValue) :
  forall (completions : gmap string NSDatabase.IStaticCompletion) label,
    is_Some (completions !! label) \/ keywordLabel items label ->
    is_Some (addKeywordCompletions items completions !! label).
Proof.
  unfold addKeywordCompletions, keywordLabel.
  induction items as [|item items IH]; intros completions label; simpl.
  - intros [Hs | (it & [] & _)]. exact Hs.
  - intros Hpre. apply IH.
    destruct Hpre as [Hs | (it & [-> | Hit] & Hn)].
    + left. apply addKeyword_present. auto.
    + left. apply addKeyword_present. auto.
    + right. eauto.
Qed.

(** *** The three sort prefixes *)

Lemma strLt_2_3 (a b : string) : strLt ("2:" +:+ a) ("3:" +:+ b) = true.
Proof. reflexivity. Qed.

Lemma strLt_3_4 (a b : string) : strLt ("3:" +:+ a) ("4:" +:+ b) = true.
Proof. reflexivity. Qed.

Lemma strLt_2_4 (a b : string) : strLt ("2:" +:+ a) ("4:" +:+ b) = true.
Proof. reflexivity. Qed.

Lemma strLt_4_3 (a b : string) : strLt ("4:" +:+ a) ("3:" +:+ b) = false.
Proof. reflexivity. Qed.

(** *** Documentation of a keyword *)

Lemma trim_keywordDoc (label category : string) :
  trim (keywordDoc label category) = keywordDoc label category.
Proof.
  unfold trim. rewrite startsClean_trimStart by reflexivity.
  unfold keywordDoc.
  rewrite <- !append_assoc.
  rewrite trimEnd_append_kept; [reflexivity|discriminate].
Qed.

Lemma mergedDoc_keyword (label category doc : string) :
  mergedDoc (keywordEntry label category) doc
  = keywordDoc label category +:+ NL +:+ NL +:+ doc.
Proof.
  unfold mergedDoc, keywordEntry. simpl.
  assert (Ht : truthy (keywordDoc label category) = true) by reflexivity.
  unfold or_else. rewrite Ht, trim_keywordDoc, Ht. reflexivity.
Qed.

End Synthesizer.
End IndexFacts.

(** ** What a published entry lists *)

Module EntryFacts.
Import Js JsFacts Completion CompletionFacts IndexFacts.

(** *** Substrings *)








(** *** Lists that grow at their end *)








Section Synthesizer.
Context `{Builtins}.



(** *** The documentation of a group *)







End Synthesizer.
End EntryFacts.

(** ** The bound on the recursion of [toTagArray] *)

Module TagFacts.
Import Js JsFacts Completion.

Lemma trimStart_length (s : string) : String.length (trimStart s) <= String.length s.
Proof.
  induction s as [|c s IH]; simpl; [lia|].
  destruct (isWhiteSpace c); simpl; lia.
Qed.

Lemma trimEnd_length (s : string) : String.length (trimEnd s) <= String.length s.
Proof.
  induction s as [|c s IH]; simpl; [lia|].
  destruct (trimEnd s); [destruct (isWhiteSpace c)|]; simpl in *; lia.
Qed.

Lemma trim_length (s : string) : String.length (trim s) <= String.length s.
Proof.
  unfold trim. pose proof (trimEnd_length (trimStart s)).
  pose proof (trimStart_length s). lia.
Qed.

Section Parse.
Context `{Builtins}.

(** [JSON.parse] yields a string only from a string literal, which is
    longer than the string it denotes. *)
Hypothesis parse_string_shorter :
  forall s s', JSON_parse s = inl (JString s') -> String.length s' < String.length s.

(** More fuel than [tagFuel] changes nothing: [toTagArray] is the function
    the source defines by unbounded recursion. *)
Lemma toTagArrayFuel_enough (n : nat) :
  forall value, tagFuel value <= n ->
  toTagArrayFuel (S n) value = toTagArrayFuel n value.
Proof.
  induction n as [|n IH]; intros value Hn.
  - destruct value; simpl in Hn; lia.
  - destruct value as [| | b | r f | s | items | props]; try reflexivity.
    cbn [toTagArrayFuel].
    destruct (negb (truthyV (JString s))); [reflexivity|].
    destruct (negb (truthy (trim s))) eqn:Et; [reflexivity|].
    destruct (JSON_parse (trim s)) as [parsed|msg] eqn:Ep; [|reflexivity].
    apply IH. simpl in Hn. pose proof (trim_length s) as Hl.
    destruct parsed; simpl; try lia.
    + apply negb_false_iff in Et. destruct (trim s); [discriminate|simpl in Hl; lia].
    + apply negb_false_iff in Et. destruct (trim s); [discriminate|simpl in Hl; lia].
    + apply negb_false_iff in Et. destruct (trim s); [discriminate|simpl in Hl; lia].
    + apply negb_false_iff in Et. destruct (trim s); [discriminate|simpl in Hl; lia].
    + apply parse_string_shorter in Ep. lia.
    + apply negb_false_iff in Et. destruct (trim s); [discriminate|simpl in Hl; lia].
    + apply negb_false_iff in Et. destruct (trim s); [discriminate|simpl in Hl; lia].
Qed.

Lemma toTagArray_any_fuel (value : JsValue) (n : nat) :
  tagFuel value <= n -> toTagArrayFuel n value = toTagArray value.
Proof.
  unfold toTagArray. intros Hn.
  induction Hn as [|n Hn IH]; [reflexivity|].
  rewrite toTagArrayFuel_enough by exact Hn. exact IH.
Qed.

End Parse.
End TagFacts.

(** ** Claims on the completion synthesizer *)

Module CompletionClaims.
Import Js JsFacts Completion CompletionFacts IndexFacts EntryFacts.

Section Synthesizer.
Context `{Builtins}.



(** C9. When the label of a group of function rows is already in the
    index, the entry at that label keeps its label, detail, filter text and
    sort text, and only its documentation is rewritten; for an entry made
    from a keyword the new documentation is the keyword's, a blank line, and
    the function documentation block. The labels of the index are those it
    had and those of the groups, so no entry is added for that label. *)
Theorem collision_changes_documentation_only (items : list FunctionRow.t)
  (completions : gmap string NSDatabase.IStaticCompletion) (label : string)
  (existing : NSDatabase.IStaticCompletion) (meta : Meta.t) :
  completions !! label = Some existing ->
  mapGet label (groupRows items) = Some meta ->
  exists entry,
    addFunctionCompletions items completions !! label = Some entry
    /\ NSDatabase.label entry = NSDatabase.label existing
    /\ NSDatabase.detail entry = NSDatabase.detail existing
    /\ NSDatabase.filterText entry = NSDatabase.filterText existing
    /\ NSDatabase.sortText entry = NSDatabase.sortText existing
    /\ NSDatabase.documentation entry
       = Some (NSDatabase.mkMarkup (mergedDoc existing (docValue label meta))
                 "markdown")
    /\ (forall category,
        existing = keywordEntry label category ->
        NSDatabase.documentation entry
        = Some (NSDatabase.mkMarkup
                  (keywordDoc label category +:+ NL +:+ NL +:+ docValue label meta)
                  "markdown"))
    /\ dom (addFunctionCompletions items completions)
       = list_to_set (List.map fst (groupRows items)) ∪ dom completions
    /\ ((forall l, In l (List.map fst (groupRows items)) ->
                   is_Some (completions !! l)) ->
        dom (addFunctionCompletions items completions) = dom completions).
Proof.
  intros Hc Hg. exists (documented existing (docValue label meta)).
  rewrite addFunctionCompletions_lookup, Hg, Hc.
  repeat split.
  - intros category ->. simpl. rewrite mergedDoc_keyword. reflexivity.
  - apply dom_fold_publish.
  - intros Hall. unfold addFunctionCompletions. rewrite dom_fold_publish.
    apply subseteq_union_1_L. intros l Hl.
    apply elem_of_list_to_set, list_elem_of_In in Hl.
    apply elem_of_dom, Hall, Hl.
Qed.

End Synthesizer.

(** *** The claims in the concrete environment *)

Import Demo.






(** So does it beyond the eighth signature: the group of nine overloads
    holds the nine signatures, and the entry published for it is the entry
    of the first eight rows, in which the ninth signature does not
    occur. *)
Lemma ninth_signature_not_listed :
  exists meta,
    mapGet "F" (groupRows nineRows) = Some meta
    /\ List.length (Meta.signatures meta) = 9
    /\ In "F(i)" (Meta.signatures meta)
    /\ addFunctionCompletions nineRows ∅ !! "F" = Some (functionEntry "F" meta)
    /\ includes "F(h)" (docValue "F" meta) = true
    /\ includes "F(i)" (docValue "F" meta) = false
    /\ addFunctionCompletions nineRows ∅
       = addFunctionCompletions (firstn 8 nineRows) ∅.
Proof.
  eexists. split; [vm_compute; reflexivity|]. split; [reflexivity|].
  split; [cbn; tauto|]. repeat split; vm_compute; reflexivity.
Qed.

Lemma collision_changes_documentation_only_witness :
  exists entry,
    addFunctionCompletions abortRows (addKeywordCompletions keywordRows ∅) !! "ABORT"
    = Some entry
    /\ NSDatabase.sortText entry = "4:ABORT"
    /\ NSDatabase.detail entry = "ABORT"
    /\ NSDatabase.documentation entry
       = Some (NSDatabase.mkMarkup
                 (keywordDoc "ABORT" "UNRESERVED" +:+ NL +:+ NL
                  +:+ docValue "ABORT" abortMeta) "markdown").
Proof.
  destruct (collision_changes_documentation_only abortRows
              (addKeywordCompletions keywordRows ∅) "ABORT"
              (keywordEntry "ABORT" "UNRESERVED") abortMeta)
    as (entry & He & _ & Hd & _ & Hs & _ & Hdoc & _).
  - vm_compute. reflexivity.
  - vm_compute. reflexivity.
  - exists entry. split; [exact He|]. split; [exact Hs|]. split; [exact Hd|].
    apply Hdoc. reflexivity.
Defined.

End CompletionClaims.

(** ** More on the resolver *)

Module ResolverMore.
Import Js JsFacts Driver QueryFacts ResolverFacts.

Lemma in_setAdd_iff (x y : string) (xs : list string) :
  In y (setAdd x xs) <-> y = x \/ In y xs.
Proof.
  unfold setAdd. destruct (existsb (streq x) xs) eqn:E.
  - apply existsb_exists in E as (z & Hz & E). apply streq_eq in E. subst z.
    split; [auto|]. intros [-> | Hy]; assumption.
  - rewrite in_app_iff. simpl. intuition congruence.
Qed.

Lemma NoDup_setAdd (x : string) (xs : list string) :
  List.NoDup xs -> List.NoDup (setAdd x xs).
Proof.
  intros Hnd. unfold setAdd. destruct (existsb (streq x) xs) eqn:E; [exact Hnd|].
  apply List.NoDup_rev in Hnd. rewrite <- (List.rev_involutive (xs ++ [x])).
  apply List.NoDup_rev. rewrite List.rev_app_distr. simpl.
  constructor; [|exact Hnd]. rewrite <- List.in_rev. intros Hin.
  assert (existsb (streq x) xs = true); [|congruence].
  apply existsb_exists. exists x. split; [exact Hin|apply streq_refl].
Qed.

Lemma NoDup_fold_setAdd (ys : list string) :
  forall xs, List.NoDup xs ->
  List.NoDup (fold_left (fun acc y => setAdd y acc) ys xs).
Proof.
  induction ys as [|y ys IH]; intros xs Hnd; simpl; [exact Hnd|].
  apply IH, NoDup_setAdd, Hnd.
Qed.

Lemma in_fold_setAdd (ys : list string) :
  forall xs z,
    In z (fold_left (fun acc y => setAdd y acc) ys xs) <-> In z ys \/ In z xs.
Proof.
  induction ys as [|y ys IH]; intros xs z; simpl; [tauto|].
  rewrite IH, in_setAdd_iff. intuition congruence.
Qed.

Section Instance.
Context {World : Type} `{Host World} `{Builtins}.
Variable credentials : Credentials.
Variable connId : string.

Local Abbreviation sends := (@emits World _).

(** *** Traces *)

Lemma emits_ret {A} (P : Event -> Prop) (a : A) : sends P (ret a).
Proof. intros st. exists []. simpl. rewrite List.app_nil_r. auto. Qed.

Lemma emits_throw {A} (P : Event -> Prop) (e : JsError) : sends P (@throw _ A e).
Proof. intros st. exists []. simpl. rewrite List.app_nil_r. auto. Qed.

Lemma emits_bind {A B} (P : Event -> Prop) (m : M A) (k : A -> M B) :
  sends P m -> (forall a, sends P (k a)) -> sends P (bind m k).
Proof.
  intros Hm Hk st. unfold bind. destruct (Hm st) as (evs & Ht & Hp).
  destruct (m st) as [[e|a] st1]; simpl in *; [eauto|].
  destruct (Hk a st1) as (evs' & Ht' & Hp').
  exists (evs ++ evs'). rewrite Ht', Ht, List.app_assoc.
  split; [reflexivity|]. apply Forall_app; auto.
Qed.

Lemma emits_tryCatch {A} (P : Event -> Prop) (m : M A) (h : JsError -> M A) :
  sends P m -> (forall e, sends P (h e)) -> sends P (tryCatch m h).
Proof.
  intros Hm Hh st. unfold tryCatch. destruct (Hm st) as (evs & Ht & Hp).
  destruct (m st) as [[e|a] st1]; simpl in *; [|eauto].
  destruct (Hh e st1) as (evs' & Ht' & Hp').
  exists (evs ++ evs'). rewrite Ht', Ht, List.app_assoc.
  split; [reflexivity|]. apply Forall_app; auto.
Qed.

Lemma emits_weaken {A} (P Q : Event -> Prop) (m : M A) :
  (forall ev, P ev -> Q ev) -> sends P m -> sends Q m.
Proof.
  intros Hpq Hm st. destruct (Hm st) as (evs & Ht & Hp).
  exists evs. split; [exact Ht|]. eapply List.Forall_impl; eassumption.
Qed.

Lemma emits_one {A} (P : Event -> Prop) (m : M A) (ev : Event) :
  P ev -> (forall st, trace (snd (m st)) = trace st ++ [ev]) -> sends P m.
Proof. intros Hev Hm st. exists [ev]. split; [apply Hm|]. auto. Qed.

Lemma emits_validate (path : string) :
  sends (validationEvent path) (validateExecutablePath path).
Proof. intros st. apply validate_trace. Qed.

Lemma emits_absoluteIfPathLike (P : Event -> Prop) (p : string) :
  sends P (absoluteIfPathLike p).
Proof.
  unfold absoluteIfPathLike. destruct (negb (truthy p)); [apply emits_ret|].
  destruct (isPathLike p); [|apply emits_ret].
  intros st. exists []. simpl. rewrite List.app_nil_r. auto.
Qed.

Lemma emits_tryCandidates (candidates : list string) :
  forall attempts, sends resolverEvent (tryCandidates candidates attempts).
Proof.
  induction candidates as [|c candidates IH]; intros attempts; simpl.
  - apply emits_ret.
  - intros st. destruct (emits_validate c st) as (evs & Ht & Hp).
    assert (Hr : Forall resolverEvent evs).
    { eapply List.Forall_impl; [|exact Hp]. intros ev Hev. left. eauto. }
    destruct (validateExecutablePath c st) as [[e|u] st1]; simpl in *; [|eauto].
    destruct (IH (attempts ++ [c +:+ " -> " +:+ messageOrError e]) st1)
      as (evs' & Ht' & Hp').
    exists (evs ++ evs'). rewrite Ht', Ht, List.app_assoc.
    split; [reflexivity|]. apply Forall_app; auto.
Qed.

(** The resolver only validates paths and reads the environment
    variable. *)
Lemma emits_resolve : sends resolverEvent (resolveExecutablePath credentials).
Proof.
  assert (Hv : forall p, sends resolverEvent
                           (bind (validateExecutablePath p) (fun _ => ret p))).
  { intros p. apply emits_bind; [|intros; apply emits_ret].
    eapply emits_weaken; [|apply emits_validate]. intros ev Hev. left. eauto. }
  unfold resolveExecutablePath. apply emits_bind.
  { apply emits_absoluteIfPathLike. }
  intros p. destruct (truthy p).
  { apply emits_tryCatch; [apply Hv|intros; apply emits_throw]. }
  apply emits_bind.
  { apply emits_bind; [|intros; apply emits_absoluteIfPathLike].
    apply (emits_one _ _ (EvReadEnv DUCKDB_CLI_PATH_ENV)); [right|]; reflexivity. }
  intros q. destruct (truthy q).
  { apply emits_tryCatch; [apply Hv|intros; apply emits_throw]. }
  intros st.
  apply (emits_bind resolverEvent (tryCandidates (getAutoExecutableCandidates st) [])).
  - apply emits_tryCandidates.
  - intros [c|attempts]; [apply emits_ret|apply emits_throw].
Qed.

End Instance.
End ResolverMore.

Module ResolverOrder.
Import Js JsFacts Driver QueryFacts ResolverFacts ResolverMore.

Section Instance.
Context {World : Type} `{Host World} `{Builtins}.
Variable credentials : Credentials.
Variable connId : string.

Lemma no_configured_path (st : DriverState) :
  trim (or_else (opt_or_empty (duckdbCliPath credentials))
          (or_else (opt_or_empty (duckdbPath credentials)) EmptyString))
  = EmptyString ->
  getConfiguredExecutablePath credentials st = (inr EmptyString, st).
Proof.
  intros Hc. unfold getConfiguredExecutablePath. rewrite Hc. reflexivity.
Qed.

Lemma environment_path (st : DriverState) (x : string) :
  getEnv (world st) DUCKDB_CLI_PATH_ENV = Some x ->
  truthy (trim x) = true ->
  getEnvironmentExecutablePath st
  = (inr (if isPathLike (trim x) then toAbsolutePath (world st) (trim x) else trim x),
     logEvent (EvReadEnv DUCKDB_CLI_PATH_ENV) st).
Proof.
  intros He Hx.
  assert (Hxx : truthy x = true) by (destruct x; [discriminate Hx|reflexivity]).
  unfold getEnvironmentExecutablePath, bind, readEnv. rewrite He. simpl.
  unfold or_else. rewrite Hxx. unfold absoluteIfPathLike. rewrite Hx. simpl.
  destruct (isPathLike (trim x)); reflexivity.
Qed.

Lemma no_environment_path (st : DriverState) :
  trim (or_else (opt_or_empty (getEnv (world st) DUCKDB_CLI_PATH_ENV)) EmptyString)
  = EmptyString ->
  getEnvironmentExecutablePath st
  = (inr EmptyString, logEvent (EvReadEnv DUCKDB_CLI_PATH_ENV) st).
Proof.
  intros He. unfold getEnvironmentExecutablePath, bind, readEnv. simpl.
  rewrite He. reflexivity.
Qed.

(** X1. Without a configured path, a path named by the environment
    variable decides the resolution: it is returned when it validates, and
    otherwise resolution fails with the error that names the variable; in
    both cases in the state its validation left, so no auto-discovery
    candidate is tried. *)
Theorem environment_path_decides (st : DriverState) (x : string) :
  let raw := trim x in
  let p := if isPathLike raw then toAbsolutePath (world st) raw else raw in
  trim (or_else (opt_or_empty (duckdbCliPath credentials))
          (or_else (opt_or_empty (duckdbPath credentials)) EmptyString))
  = EmptyString ->
  getEnv (world st) DUCKDB_CLI_PATH_ENV = Some x ->
  truthy raw = true ->
  truthy p = true ->
  resolveExecutablePath credentials st
  = match validateExecutablePath p (logEvent (EvReadEnv DUCKDB_CLI_PATH_ENV) st) with
    | (inl e, st2) => (inl (invalidEnvironment p e), st2)
    | (inr _, st2) => (inr p, st2)
    end.
Proof.
  intros raw p Hc He Hraw Hp.
  unfold resolveExecutablePath, bind.
  rewrite (no_configured_path st Hc). simpl.
  rewrite (environment_path st x He Hraw). fold raw. fold p. rewrite Hp.
  unfold tryCatch, bind.
  destruct (validateExecutablePath p (logEvent (EvReadEnv DUCKDB_CLI_PATH_ENV) st))
    as [[e|u] st2]; reflexivity.
Qed.

(** X2. A configured path that validates is the result of the resolution,
    in the state its validation left: the environment variable is not read
    and no candidate is tried. *)
Theorem valid_configured_path_wins (st st2 : DriverState) (x : string) :
  let raw := trim x in
  let p := if isPathLike raw then toAbsolutePath (world st) raw else raw in
  duckdbCliPath credentials = Some x
  \/ (opt_or_empty (duckdbCliPath credentials) = EmptyString
      /\ duckdbPath credentials = Some x) ->
  truthy raw = true ->
  truthy p = true ->
  validateExecutablePath p st = (inr tt, st2) ->
  resolveExecutablePath credentials st = (inr p, st2)
  /\ exists evs, trace st2 = trace st ++ evs /\ Forall (validationEvent p) evs.
Proof.
  intros raw p Hset Hraw Hp Hv. split.
  - unfold resolveExecutablePath, bind.
    rewrite (configured_path credentials st x Hset Hraw). fold raw. fold p.
    rewrite Hp. unfold tryCatch, bind. rewrite Hv. reflexivity.
  - destruct (validate_trace p st) as (evs & Ht & Hevs).
    rewrite Hv in Ht. eauto.
Qed.

(** *** Auto-discovery *)

Lemma tryCandidates_found (candidates : list string) :
  forall attempts st c st',
    tryCandidates candidates attempts st = (inr (inl c), st') ->
    exists pre post failures st0,
      candidates = pre ++ c :: post
      /\ tryCandidates pre attempts st = (inr (inr failures), st0)
      /\ validateExecutablePath c st0 = (inr tt, st').
Proof.
  induction candidates as [|first candidates IH]; intros attempts st c st'; simpl.
  - discriminate.
  - destruct (validateExecutablePath first st) as [[e|[]] st1] eqn:Hv.
    + intros Hrest. destruct (IH _ _ _ _ Hrest) as (pre & post & fs & st0 & -> & Hpre & Hc).
      exists (first :: pre), post, fs, st0. simpl. rewrite Hv. auto.
    + intros [= <- <-]. exists [], candidates, attempts, st. auto.
Qed.

Lemma tryCandidates_none (candidates : list string) :
  forall attempts st failures st',
    tryCandidates candidates attempts st = (inr (inr failures), st') ->
    List.length failures = List.length attempts + List.length candidates.
Proof.
  induction candidates as [|first candidates IH]; intros attempts st fs st'; simpl.
  - intros [= <- <-]. lia.
  - destruct (validateExecutablePath first st) as [[e|u] st1]; [|discriminate].
    intros Hrest. apply IH in Hrest. rewrite Hrest, List.length_app. simpl. lia.
Qed.

Lemma tryCandidates_no_throw (candidates : list string) :
  forall attempts st e st',
    tryCandidates candidates attempts st <> (inl e, st').
Proof.
  induction candidates as [|first candidates IH]; intros attempts st e st'; simpl.
  - discriminate.
  - destruct (validateExecutablePath first st) as [[e1|u] st1]; [apply IH|discriminate].
Qed.

Lemma resolve_auto (st : DriverState) :
  trim (or_else (opt_or_empty (duckdbCliPath credentials))
          (or_else (opt_or_empty (duckdbPath credentials)) EmptyString))
  = EmptyString ->
  trim (or_else (opt_or_empty (getEnv (world st) DUCKDB_CLI_PATH_ENV)) EmptyString)
  = EmptyString ->
  resolveExecutablePath credentials st
  = let st1 := logEvent (EvReadEnv DUCKDB_CLI_PATH_ENV) st in
    match tryCandidates (getAutoExecutableCandidates st1) [] st1 with
    | (inr (inl c), st') => (inr c, st')
    | (inr (inr attempts), st') => (inl (notFound attempts), st')
    | (inl e, st') => (inl e, st')
    end.
Proof.
  intros Hc He. unfold resolveExecutablePath, bind.
  rewrite (no_configured_path st Hc). simpl.
  rewrite (no_environment_path st He). simpl.
  destruct (tryCandidates _ [] _) as [[e|[c|attempts]] st']; reflexivity.
Qed.

(** X3. With no configured path and no path in the environment variable,
    a successful resolution returns the first auto-discovery candidate, in
    the order of the list, that validates: the candidates before it were
    all tried and failed, and those after it are not tried. *)
Theorem auto_discovery_first_valid (st st' : DriverState) (c : string) :
  let st1 := logEvent (EvReadEnv DUCKDB_CLI_PATH_ENV) st in
  trim (or_else (opt_or_empty (duckdbCliPath credentials))
          (or_else (opt_or_empty (duckdbPath credentials)) EmptyString))
  = EmptyString ->
  trim (or_else (opt_or_empty (getEnv (world st) DUCKDB_CLI_PATH_ENV)) EmptyString)
  = EmptyString ->
  resolveExecutablePath credentials st = (inr c, st') ->
  exists pre post failures st0,
    getAutoExecutableCandidates st1 = pre ++ c :: post
    /\ tryCandidates pre [] st1 = (inr (inr failures), st0)
    /\ List.length failures = List.length pre
    /\ validateExecutablePath c st0 = (inr tt, st').
Proof.
  intros st1 Hc He. rewrite (resolve_auto st Hc He). fold st1. cbv zeta.
  destruct (tryCandidates (getAutoExecutableCandidates st1) [] st1)
    as [[e|[c'|attempts]] st2] eqn:Ht; try discriminate.
  intros [= -> ->].
  destruct (tryCandidates_found _ _ _ _ _ Ht) as (pre & post & fs & st0 & E & Hpre & Hv).
  exists pre, post, fs, st0. repeat split; try assumption.
  apply tryCandidates_none in Hpre. simpl in Hpre. exact Hpre.
Qed.

(** X4. With no configured path and no path in the environment variable,
    a failed resolution has tried every auto-discovery candidate: its error
    is the not-found error built from one recorded failure per candidate. *)
Theorem auto_discovery_exhausted (st st' : DriverState) (e : JsError) :
  let st1 := logEvent (EvReadEnv DUCKDB_CLI_PATH_ENV) st in
  trim (or_else (opt_or_empty (duckdbCliPath credentials))
          (or_else (opt_or_empty (duckdbPath credentials)) EmptyString))
  = EmptyString ->
  trim (or_else (opt_or_empty (getEnv (world st) DUCKDB_CLI_PATH_ENV)) EmptyString)
  = EmptyString ->
  resolveExecutablePath credentials st = (inl e, st') ->
  exists attempts,
    e = notFound attempts
    /\ tryCandidates (getAutoExecutableCandidates st1) [] st1 = (inr (inr attempts), st')
    /\ List.length attempts = List.length (getAutoExecutableCandidates st1).
Proof.
  intros st1 Hc He. rewrite (resolve_auto st Hc He). fold st1. cbv zeta.
  destruct (tryCandidates (getAutoExecutableCandidates st1) [] st1)
    as [[e'|[c'|attempts]] st2] eqn:Ht; try discriminate.
  - exfalso. eapply tryCandidates_no_throw, Ht.
  - intros [= <- <-]. exists attempts. repeat split.
    apply tryCandidates_none in Ht. exact Ht.
Qed.

(** X5. Whatever the settings, a path the resolver returns has just passed
    validation: the resolution ends with the successful validation of the
    path it returns. *)
Theorem resolved_path_is_validated (st st' : DriverState) (p : string) :
  resolveExecutablePath credentials st = (inr p, st') ->
  exists st0, validateExecutablePath p st0 = (inr tt, st').
Proof.
  assert (Hv : forall q s0,
             tryCatch (bind (validateExecutablePath q) (fun _ => ret q))
               (fun error => throw (invalidConfigured q error)) s0 = (inr p, st')
             \/ tryCatch (bind (validateExecutablePath q) (fun _ => ret q))
                  (fun error => throw (invalidEnvironment q error)) s0 = (inr p, st') ->
             exists st0, validateExecutablePath p st0 = (inr tt, st')).
  { intros q s0. unfold tryCatch, bind, ret, throw.
    destruct (validateExecutablePath q s0) as [[e|[]] s1] eqn:E;
      intros [Hr | Hr]; try discriminate; injection Hr as <- <-; eauto. }
  unfold resolveExecutablePath. unfold bind at 1.
  destruct (getConfiguredExecutablePath credentials st) as [[e|q] s0]; [discriminate|].
  destruct (truthy q); [intros Hr; apply (Hv q s0); auto|].
  unfold bind at 1.
  destruct (getEnvironmentExecutablePath s0) as [[e|q'] s1]; [discriminate|].
  destruct (truthy q'); [intros Hr; apply (Hv q' s1); auto|].
  unfold bind.
  destruct (tryCandidates (getAutoExecutableCandidates s1) [] s1)
    as [[e|[c|attempts]] s2] eqn:Ht; try discriminate.
  intros [= -> ->].
  destruct (tryCandidates_found _ _ _ _ _ Ht) as (_ & _ & _ & st0 & _ & _ & Hc).
  eauto.
Qed.

(** X6. The auto-discovery candidates hold no duplicate; they are the
    candidates listed for the platform and the bare command name of the
    platform, and nothing else. *)
Theorem auto_candidates_distinct (st : DriverState) (c : string) :
  let bare := if streq (platform (world st)) "win32" then "duckdb.exe" else "duckdb" in
  List.NoDup (getAutoExecutableCandidates st)
  /\ (In c (getAutoExecutableCandidates st)
      <-> c = bare \/ In c (AUTO_EXECUTABLE_CANDIDATES (platform (world st)))).
Proof.
  intros bare. unfold getAutoExecutableCandidates, setOf. fold bare. split.
  - apply NoDup_setAdd, NoDup_fold_setAdd. constructor.
  - rewrite in_setAdd_iff, in_fold_setAdd. simpl. tauto.
Qed.

End Instance.
Import Demo.

Lemma environment_path_decides_witness :
  resolveExecutablePath (H:=envHost) defaults start
  = (inr "/usr/bin/duckdb", afterEnv).
Proof.
  pose proof (environment_path_decides (H:=envHost) defaults start
                " /usr/bin/duckdb " ltac:(vm_compute; reflexivity)
                ltac:(vm_compute; reflexivity) ltac:(vm_compute; reflexivity)
                ltac:(vm_compute; reflexivity)) as P.
  vm_compute in P. vm_compute. exact P.
Defined.

Lemma valid_configured_path_wins_witness :
  resolveExecutablePath (H:=host) bareCli start = (inr "duckdb", afterBare)
  /\ exists evs,
       trace afterBare = trace start ++ evs
       /\ Forall (validationEvent "duckdb") evs.
Proof.
  pose proof (valid_configured_path_wins (H:=host) bareCli start afterBare
                " duckdb " (or_introl eq_refl) ltac:(vm_compute; reflexivity)
                ltac:(vm_compute; reflexivity) ltac:(vm_compute; reflexivity))
    as [P Q].
  split; [vm_compute in P; vm_compute; exact P|exact Q].
Defined.

Lemma auto_discovery_first_valid_witness :
  exists pre post failures st0,
    getAutoExecutableCandidates (H:=siteHost)
      (logEvent (EvReadEnv DUCKDB_CLI_PATH_ENV) start)
    = pre ++ "/usr/bin/duckdb" :: post
    /\ tryCandidates (H:=siteHost) pre []
         (logEvent (EvReadEnv DUCKDB_CLI_PATH_ENV) start)
       = (inr (inr failures), st0)
    /\ List.length failures = List.length pre
    /\ validateExecutablePath (H:=siteHost) "/usr/bin/duckdb" st0
       = (inr tt, afterDiscovery).
Proof.
  apply (auto_discovery_first_valid (H:=siteHost) defaults start afterDiscovery
           "/usr/bin/duckdb");
    vm_compute; reflexivity.
Defined.

Lemma auto_discovery_exhausted_witness :
  exists attempts,
    notFound exhaustedAttempts = notFound attempts
    /\ tryCandidates (H:=bareHost)
         (getAutoExecutableCandidates (H:=bareHost)
            (logEvent (EvReadEnv DUCKDB_CLI_PATH_ENV) start)) []
         (logEvent (EvReadEnv DUCKDB_CLI_PATH_ENV) start)
       = (inr (inr attempts), afterExhausted)
    /\ List.length attempts
       = List.length (getAutoExecutableCandidates (H:=bareHost)
                        (logEvent (EvReadEnv DUCKDB_CLI_PATH_ENV) start)).
Proof.
  apply (auto_discovery_exhausted (H:=bareHost) defaults start afterExhausted
           (notFound exhaustedAttempts));
    vm_compute; reflexivity.
Defined.

Lemma resolved_path_is_validated_witness :
  exists st0,
    validateExecutablePath (H:=siteHost) "/usr/bin/duckdb" st0
    = (inr tt, afterDiscovery).
Proof.
  apply (resolved_path_is_validated (H:=siteHost) defaults start).
  vm_compute. reflexivity.
Defined.

End ResolverOrder.

(** ** The connection handle *)

Module HandleFacts.
Import Js JsFacts Driver QueryFacts ResolverFacts ResolverMore.

Section Instance.
Context {World : Type} `{Host World} `{Builtins}.
Variable credentials : Credentials.
Variable connId : string.

Local Abbreviation sends := (@emits World _).
Local Abbreviation keeps := (@keepsConnection World _).

Lemma keeps_createDir (database : string) (readOnly : bool) :
  keeps (createDirIfNotExists database readOnly).
Proof.
  unfold createDirIfNotExists. destruct (isMemory database); [apply keeps_ret|].
  destruct readOnly.
  - apply keeps_bind; [apply keeps_callExistsSync|].
    intros [|]; [apply keeps_ret|apply keeps_throw].
  - intros st. unfold callMkdirSync.
    destruct (mkdirSync (world st) (dirname database)) as [[e|] w]; reflexivity.
Qed.

(** The steps of [open] that follow the resolution, on a state without
    handle. *)
Lemma open_unfold (st : DriverState) :
  connection st = None ->
  open credentials st
  = match resolveExecutablePath credentials st with
    | (inl e, st1) => (inl e, st1)
    | (inr exe, st1) =>
        let db := toAbsolutePath (world st1)
                    (or_else (opt_or_empty (database credentials)) ":memory:") in
        let ro := isReadOnlyEnabled credentials in
        if ro && isMemory db then (inl readOnlyMemoryError, st1)
        else
          match createDirIfNotExists db ro st1 with
          | (inl e, st2) => (inl e, st2)
          | (inr _, st2) =>
              (inr (mkConnection db exe ro),
               mkState (Some (mkConnection db exe ro)) (world st2) (trace st2))
          end
    end.
Proof.
  intros Hc. unfold open. rewrite Hc. unfold bind.
  destruct (resolveExecutablePath credentials st) as [[e|exe] st1]; [reflexivity|].
  unfold getDatabase, absolute. cbv zeta.
  destruct (isReadOnlyEnabled credentials && isMemory _); [reflexivity|].
  destruct (createDirIfNotExists _ _ st1) as [[e|u] st2]; reflexivity.
Qed.

(** X7. A first [open] that succeeds stores the handle it returns; the
    handle carries the read-only setting and the database path of the
    settings and is never read-only on the in-memory database. From then
    on [open] returns that same handle and changes nothing: no executable
    is resolved and no call leaves the driver. *)
Theorem open_caches_handle (st st' : DriverState) (c : TDuckDBConnection) :
  connection st = None ->
  open credentials st = (inr c, st') ->
  connection st' = Some c
  /\ handleOf credentials c
  /\ open credentials st' = (inr c, st').
Proof.
  intros Hc. rewrite (open_unfold st Hc).
  destruct (resolveExecutablePath credentials st) as [[e|exe] st1]; [discriminate|].
  cbv zeta.
  destruct (isReadOnlyEnabled credentials && isMemory _) eqn:Hm; [discriminate|].
  destruct (createDirIfNotExists _ _ st1) as [[e|u] st2]; [discriminate|].
  intros [= <- <-]. split; [reflexivity|]. split.
  - unfold handleOf. simpl. repeat split; [exact Hm|eauto].
  - reflexivity.
Qed.

(** X8. An [open] that fails stores no handle, whether the resolution,
    the read-only check or the preparation of the database location fails:
    the next [open] starts again from the resolution. *)
Theorem failed_open_leaves_no_handle (st st' : DriverState) (e : JsError) :
  connection st = None ->
  open credentials st = (inl e, st') ->
  connection st' = None.
Proof.
  intros Hc Ho.
  rewrite (open_unfold st Hc) in Ho.
  pose proof (keeps_resolve credentials st) as Hk.
  destruct (resolveExecutablePath credentials st) as [[e1|exe] st1]; simpl in Hk.
  - injection Ho as <- <-. congruence.
  - cbv zeta in Ho.
    destruct (isReadOnlyEnabled credentials && isMemory _).
    + injection Ho as <- <-. congruence.
    + pose proof (keeps_createDir
                    (toAbsolutePath (world st1)
                       (or_else (opt_or_empty (database credentials)) ":memory:"))
                    (isReadOnlyEnabled credentials) st1) as Hd.
      destruct (createDirIfNotExists _ _ st1) as [[e2|u] st2]; [|discriminate].
      simpl in Hd. injection Ho as <- <-. congruence.
Qed.

(** *** What [open] does to the file system *)

Lemma emits_createDir_read_only (database : string) :
  sends (fun ev => isMkdirEvent ev = false) (createDirIfNotExists database true).
Proof.
  unfold createDirIfNotExists. destruct (isMemory database); [apply emits_ret|].
  apply emits_bind.
  - apply (emits_one _ _ (EvExists database)); reflexivity.
  - intros [|]; [apply emits_ret|apply emits_throw].
Qed.

Lemma resolverEvent_not_mkdir (ev : Event) :
  resolverEvent ev -> isMkdirEvent ev = false.
Proof. intros [[p [-> | ->]] | ->]; reflexivity. Qed.

(** X9. In read-only mode [open] never creates a directory; and when it
    succeeds on a database that is not the in-memory one, the database
    file exists. *)
Theorem read_only_open_creates_nothing (st : DriverState) :
  isReadOnlyEnabled credentials = true ->
  (exists evs,
      trace (snd (open credentials st)) = trace st ++ evs
      /\ Forall (fun ev => isMkdirEvent ev = false) evs)
  /\ (forall c st',
        connection st = None ->
        open credentials st = (inr c, st') ->
        isMemory (databasePath c) = false
        /\ existsSync (world st') (databasePath c) = true).
Proof.
  intros Hro. split.
  - destruct (connection st) as [c0|] eqn:Hc.
    + unfold open. rewrite Hc. exists []. simpl. rewrite List.app_nil_r. auto.
    + rewrite (open_unfold st Hc), Hro.
      destruct (emits_resolve credentials st) as (evs & Ht & Hp).
      assert (Hq : Forall (fun ev => isMkdirEvent ev = false) evs).
      { eapply List.Forall_impl; [|exact Hp]. apply resolverEvent_not_mkdir. }
      destruct (resolveExecutablePath credentials st) as [[e|exe] st1];
        simpl in Ht; [eauto|].
      cbv zeta. simpl andb.
      destruct (isMemory _) eqn:Hm; [eauto|].
      destruct (emits_createDir_read_only
                  (toAbsolutePath (world st1)
                     (or_else (opt_or_empty (database credentials)) ":memory:")) st1)
        as (evs' & Ht' & Hp').
      destruct (createDirIfNotExists _ true st1) as [[e|u] st2]; simpl in *;
        exists (evs ++ evs'); rewrite Ht', Ht, List.app_assoc;
        (split; [reflexivity|apply Forall_app; auto]).
  - intros c st' Hc. rewrite (open_unfold st Hc), Hro.
    destruct (resolveExecutablePath credentials st) as [[e|exe] st1]; [discriminate|].
    cbv zeta. simpl andb.
    destruct (isMemory _) eqn:Hm; [discriminate|].
    unfold createDirIfNotExists. rewrite Hm. unfold bind, callExistsSync.
    destruct (existsSync (world st1) _) eqn:He; [|discriminate].
    intros [= <- <-]. simpl. auto.
Qed.

End Instance.
Import Demo.

Lemma open_caches_handle_witness :
  connection afterOpenFile = Some fileConnection
  /\ handleOf (H:=siteHost) readOnlyFile fileConnection
  /\ open (H:=siteHost) readOnlyFile afterOpenFile
     = (inr fileConnection, afterOpenFile).
Proof.
  apply (open_caches_handle (H:=siteHost) readOnlyFile start);
    vm_compute; reflexivity.
Defined.

Lemma failed_open_leaves_no_handle_witness :
  open (H:=host) missingCli start
  = (inl (invalidConfigured "/opt/none/duckdb" missingError), afterMissing)
  /\ connection afterMissing = None.
Proof.
  assert (E : open (H:=host) missingCli start
              = (inl (invalidConfigured "/opt/none/duckdb" missingError),
                 afterMissing))
    by (vm_compute; reflexivity).
  split; [exact E|].
  exact (failed_open_leaves_no_handle (H:=host) missingCli start afterMissing
           _ eq_refl E).
Defined.

Lemma read_only_open_creates_nothing_witness :
  (exists evs,
      trace (snd (open (H:=siteHost) readOnlyFile start)) = trace start ++ evs
      /\ Forall (fun ev => isMkdirEvent ev = false) evs)
  /\ isMemory (databasePath fileConnection) = false
  /\ existsSync (Host:=siteHost) (world afterOpenFile)
       (databasePath fileConnection) = true.
Proof.
  destruct (read_only_open_creates_nothing (H:=siteHost) readOnlyFile start
              ltac:(vm_compute; reflexivity)) as [P Q].
  split; [exact P|].
  apply (Q fileConnection afterOpenFile); vm_compute; reflexivity.
Defined.

End HandleFacts.

(** ** More on the query pipeline *)

Module PipelineFacts.
Import Js JsFacts Driver QueryFacts ResolverFacts ResolverMore HandleFacts.

Section Instance.
Context {World : Type} `{Host World} `{Builtins}.
Variable credentials : Credentials.
Variable connId : string.

Local Abbreviation successResult := (successResult credentials connId).
Local Abbreviation errorResult := (errorResult connId).
Local Abbreviation runStatements := (runStatements credentials connId).
Local Abbreviation query := (query credentials connId).

Lemma runStatements_shape (requestId : option string) (queries : list string) :
  forall acc st,
  exists done failed st',
    runStatements requestId queries acc st = (inr (acc ++ done ++ failed), st')
    /\ Forall (fun r => NSDatabase.error r = false) done
    /\ List.map NSDatabase.query done = firstn (List.length done) queries
    /\ ((failed = [] /\ List.length done = List.length queries)
        \/ exists r,
             failed = [r] /\ NSDatabase.error r = true
             /\ nth_error queries (List.length done) = Some (NSDatabase.query r)).
Proof.
  induction queries as [|q queries IH]; intros acc st; simpl.
  - exists [], [], st. unfold ret. simpl. rewrite List.app_nil_r.
    split; [reflexivity|]. split; [constructor|]. split; [reflexivity|]. auto.
  - destruct (successResult requestId q st) as [[e|r] st1] eqn:Hs.
    + unfold bind. rewrite errorResult_spec. unfold ret.
      eexists [], [_], _. simpl. split; [reflexivity|]. split; [constructor|].
      split; [reflexivity|]. right. eexists. split; [reflexivity|]. simpl. auto.
    + destruct (IH (acc ++ [r]) st1) as (done & failed & st' & Hr & Hok & Hmap & Hend).
      destruct (successResult_ok _ _ _ _ _ _ _ Hs) as (Hq & He & _).
      exists (r :: done), failed, st'. rewrite Hr, <- List.app_assoc. simpl.
      split; [reflexivity|]. split; [constructor; assumption|].
      split; [rewrite Hq, Hmap; reflexivity|].
      destruct Hend as [[-> Hl] | (r' & -> & He' & Hn)]; [left|right]; eauto.
Qed.

(** X10. The results of [query] follow the statements of the script: they
    are the results, none of them an error, of a first run of statements in
    order, followed either by nothing, when every statement has run, or by
    a single error result for the next statement. *)
Theorem query_results_follow_statements (sqlText : string)
  (requestId : option string) (st : DriverState) :
  let statements := filterBoolean (Splitter.splitSqlStatements sqlText) in
  exists done failed st',
    query sqlText requestId st = (inr (done ++ failed), st')
    /\ Forall (fun r => NSDatabase.error r = false) done
    /\ List.map NSDatabase.query done = firstn (List.length done) statements
    /\ ((failed = [] /\ List.length done = List.length statements)
        \/ exists r,
             failed = [r] /\ NSDatabase.error r = true
             /\ nth_error statements (List.length done) = Some (NSDatabase.query r)).
Proof.
  intros statements. unfold Driver.query. fold statements.
  destruct (runStatements_shape requestId statements [] st)
    as (done & failed & st' & Hr & Hrest).
  exists done, failed, st'. split; [exact Hr|exact Hrest].
Qed.

(** *** Spawns on an open connection *)

Lemma runSingleQuery_spawn (q : string) (st : DriverState)
  (c : TDuckDBConnection) :
  connection st = Some c ->
  snd (runSingleQuery credentials q st)
  = mkState (Some c)
      (snd (execFile (world st) (executablePath c) (cliArguments c q)))
      (trace st ++ [statementSpawn c q]).
Proof.
  intros Hc. unfold runSingleQuery, bind, open, callExecFile, ret, throw.
  rewrite Hc.
  destruct (execFile (world st) (executablePath c) (cliArguments c q)) as [r w].
  simpl. rewrite Hc. destruct r as [out|error]; [|reflexivity].
  destruct (negb (truthy out) || negb (truthy (trim out))); [reflexivity|].
  destruct (JSON_parse out) as [[]|msg]; reflexivity.
Qed.

Lemma successResult_state (requestId : option string) (q : string)
  (st : DriverState) :
  let s1 := snd (runSingleQuery credentials q st) in
  snd (successResult requestId q st) = s1
  \/ snd (successResult requestId q st)
     = mkState (connection s1) (snd (createResultId (world s1)))
         (trace s1 ++ [EvResultId]).
Proof.
  unfold Driver.successResult, bind, callCreateResultId, ret, throw.
  destruct (runSingleQuery credentials q st) as [[e|rows] s1]; simpl; [auto|].
  destruct (createResultId (world s1)) as [id w]. simpl.
  destruct rows as [|first rows]; [|destruct (objectKeys first)]; simpl; auto.
Qed.

Lemma successResult_spawn (requestId : option string) (q : string)
  (st : DriverState) (c : TDuckDBConnection) :
  connection st = Some c ->
  connection (snd (successResult requestId q st)) = Some c
  /\ exists evs,
       trace (snd (successResult requestId q st)) = trace st ++ evs
       /\ List.filter isExecEvent evs = [statementSpawn c q].
Proof.
  intros Hc.
  destruct (successResult_state requestId q st) as [-> | ->];
    rewrite (runSingleQuery_spawn q st c Hc); simpl.
  - split; [reflexivity|]. exists [statementSpawn c q]. auto.
  - split; [reflexivity|]. exists [statementSpawn c q; EvResultId].
    rewrite <- List.app_assoc. auto.
Qed.

Lemma runStatements_spawns (requestId : option string) (queries : list string)
  (c : TDuckDBConnection) :
  forall acc st,
    connection st = Some c ->
    exists new st' evs,
      runStatements requestId queries acc st = (inr (acc ++ new), st')
      /\ connection st' = Some c
      /\ trace st' = trace st ++ evs
      /\ List.filter isExecEvent evs
         = List.map (fun r => statementSpawn c (NSDatabase.query r)) new.
Proof.
  induction queries as [|q queries IH]; intros acc st Hc; simpl.
  - exists [], st, []. unfold ret. rewrite !List.app_nil_r. auto.
  - destruct (successResult_spawn requestId q st c Hc) as (Hc1 & evs1 & Ht1 & Hf1).
    destruct (successResult requestId q st) as [[e|r] st1] eqn:Hs; simpl in Hc1, Ht1.
    + unfold bind. rewrite errorResult_spec. unfold ret.
      eexists [_], _, (evs1 ++ [EvResultId]). simpl.
      split; [reflexivity|]. split; [exact Hc1|].
      split; [rewrite Ht1, List.app_assoc; reflexivity|].
      rewrite List.filter_app, Hf1. reflexivity.
    + destruct (IH (acc ++ [r]) st1 Hc1) as (new & st' & evs & Hr & Hc' & Ht & Hf).
      destruct (successResult_ok _ _ _ _ _ _ _ Hs) as (Hq & _).
      exists (r :: new), st', (evs1 ++ evs). rewrite Hr, <- List.app_assoc.
      split; [reflexivity|]. split; [exact Hc'|].
      split; [rewrite Ht, Ht1, List.app_assoc; reflexivity|].
      rewrite List.filter_app, Hf1, Hf. simpl. rewrite Hq. reflexivity.
Qed.

(** X11. On an open connection, [query] spawns the CLI exactly once per
    result it returns, in order, each time with the database, the read-only
    flag of the handle and the statement of that result; it resolves no
    executable again and leaves the handle in place. *)
Theorem one_spawn_per_result (sqlText : string) (requestId : option string)
  (st : DriverState) (c : TDuckDBConnection) :
  connection st = Some c ->
  exists rs st' evs,
    query sqlText requestId st = (inr rs, st')
    /\ connection st' = Some c
    /\ trace st' = trace st ++ evs
    /\ List.filter isExecEvent evs
       = List.map (fun r => statementSpawn c (NSDatabase.query r)) rs.
Proof.
  intros Hc. unfold Driver.query.
  destruct (runStatements_spawns requestId
              (filterBoolean (Splitter.splitSqlStatements sqlText)) c [] st Hc)
    as (new & st' & evs & Hr & Hrest).
  exists new, st', evs. split; [exact Hr|exact Hrest].
Qed.

(** X12. [testConnection] fails exactly when [open] fails, with the same
    error and in the same state: a failure of the probe statement is
    returned by [query] as an error result and is not thrown. *)
Theorem testConnection_fails_only_on_open (st st' : DriverState) (e : JsError) :
  testConnection credentials connId st = (inl e, st')
  <-> open credentials st = (inl e, st').
Proof.
  unfold testConnection, bind.
  destruct (open credentials st) as [[e1|c] st1]; [split; intros [= -> ->]; reflexivity|].
  destruct (runStatements_extends credentials connId None
              (filterBoolean (Splitter.splitSqlStatements "SELECT 1")) [] st1)
    as (new & st2 & Hr).
  unfold Driver.query. rewrite Hr. unfold ret. split; discriminate.
Qed.

End Instance.
Import Demo.

Lemma one_spawn_per_result_witness :
  exists rs st' evs,
    Driver.query (H:=host) defaults "c1" "SELECT 1; SELECT 2" None afterFirst
    = (inr rs, st')
    /\ connection st' = Some memoryConnection
    /\ trace st' = trace afterFirst ++ evs
    /\ List.filter isExecEvent evs
       = List.map (fun r => statementSpawn memoryConnection (NSDatabase.query r))
           rs.
Proof.
  apply (one_spawn_per_result (H:=host) defaults "c1" "SELECT 1; SELECT 2" None
           afterFirst memoryConnection).
  reflexivity.
Defined.

End PipelineFacts.

(** ** More on the splitter *)

Module SplitterMore.
Import Js JsFacts Splitter SplitterFacts SplitterOrder SplitterRegions
  SplitterSegments.

(** X13. Terminating each statement of a list with a semicolon and
    splitting the script gives the statements back, trimmed and without the
    blank ones, in order; a list of [N] non-empty trimmed statements gives
    exactly those [N] statements. The statements may hold semicolons inside
    quotes and comments, as long as each holds no top-level semicolon and
    closes what it opens. *)
Theorem split_joined_statements (stmts : list string) :
  Forall (fun s => selfContained s = true) stmts ->
  splitSqlStatements (joinTerminated stmts) = filterBoolean (List.map trim stmts)
  /\ (Forall isStatement stmts -> splitSqlStatements (joinTerminated stmts) = stmts).
Proof.
  intros Hall. split; [apply split_joined, Hall|].
  intros Hst. rewrite (split_joined _ Hall).
  clear Hall. unfold filterBoolean.
  induction Hst as [|s stmts [Hn Ht] _ IH]; [reflexivity|].
  cbn [List.map List.filter]. rewrite Ht, Hn, IH. reflexivity.
Qed.

(** *** Regions left open *)

Lemma single_quote_open (st : SplitState) (body : string) :
  quiet st = true -> quotedBody "'" body = true ->
  loop st ("'" +:+ body) = setSingle true (append st ("'" +:+ body)).
Proof.
  intros Hq Hbody. destruct (quiet_flags _ Hq) as (H1 & H2 & H3 & H4).
  change ("'" +:+ body) with (String "'"%char body).
  rewrite (loop_no_skip st (setSingle true (append st "'"))).
  - rewrite (loop_in_open_quote "'"%char inSingle setSingle step_in_single
               (fun _ _ => eq_refl) _ body (Nat.le_refl _) Hbody).
    + destruct st; simpl in *. subst.
      unfold setSingle, append; simpl. rewrite !append_assoc. reflexivity.
    + unfold inSingle; simpl. rewrite H1, H2. reflexivity.
  - unfold step. rewrite H1, H2, H3, H4. reflexivity.
Qed.

Lemma double_quote_open (st : SplitState) (body : string) :
  quiet st = true -> quotedBody DQUOTE body = true ->
  loop st (chr DQUOTE +:+ body) = setDouble true (append st (chr DQUOTE +:+ body)).
Proof.
  intros Hq Hbody. destruct (quiet_flags _ Hq) as (H1 & H2 & H3 & H4).
  change (chr DQUOTE +:+ body) with (String DQUOTE body).
  rewrite (loop_no_skip st (setDouble true (append st (chr DQUOTE)))).
  - rewrite (loop_in_open_quote DQUOTE inDouble setDouble step_in_double
               (fun _ _ => eq_refl) _ body (Nat.le_refl _) Hbody).
    + destruct st; simpl in *. subst.
      unfold setDouble, append; simpl. rewrite !append_assoc. reflexivity.
    + unfold inDouble; simpl. rewrite H1, H2, H3. reflexivity.
  - unfold step. rewrite H1, H2, H3, H4. reflexivity.
Qed.

Lemma line_comment_open (st : SplitState) (body : string) :
  quiet st = true -> contains NEWLINE body = false ->
  loop st ("--" +:+ body) = setLine true (append st ("--" +:+ body)).
Proof.
  intros Hq Hbody. destruct (quiet_flags _ Hq) as (H1 & H2 & H3 & H4).
  change ("--" +:+ body) with (String "-"%char (String "-"%char body)).
  rewrite (loop_skip st (setLine true (append st "--"))).
  - rewrite <- (append_empty_r body) at 1.
    rewrite (loop_in_line _ _ Hbody); [|reflexivity]. simpl.
    destruct st; simpl in *. subst.
    unfold setLine, append; simpl. rewrite !append_assoc. reflexivity.
  - unfold step. rewrite H1, H2, H3, H4. simpl. rewrite append_append. reflexivity.
Qed.

Lemma truthy_trim_opened (cur opener body : string) :
  blank opener = false ->
  truthy (trim (cur +:+ opener +:+ body)) = true.
Proof.
  intros Ho. rewrite truthy_trim, !blank_append, Ho, andb_false_r. reflexivity.
Qed.

(** X14. A quote or a line comment that the input never closes takes the
    rest of the input: from a point outside quotes and comments, an opening
    single quote, double quote or [--] followed by text without the closing
    delimiter yields no further split, and the accumulated text, opener and
    rest included, becomes the one final statement. *)
Theorem open_region_takes_rest (st : SplitState) (body : string) :
  quiet st = true ->
  (quotedBody "'" body = true ->
   finish (loop st ("'" +:+ body))
   = statements st ++ [trim (current st +:+ "'" +:+ body)])
  /\ (quotedBody DQUOTE body = true ->
      finish (loop st (chr DQUOTE +:+ body))
      = statements st ++ [trim (current st +:+ chr DQUOTE +:+ body)])
  /\ (contains NEWLINE body = false ->
      finish (loop st ("--" +:+ body))
      = statements st ++ [trim (current st +:+ "--" +:+ body)]).
Proof.
  intros Hq. repeat split; intros Hbody.
  - rewrite (single_quote_open _ _ Hq Hbody). unfold finish, pushTrimmed. simpl.
    rewrite truthy_trim_opened; reflexivity.
  - rewrite (double_quote_open _ _ Hq Hbody). unfold finish, pushTrimmed. simpl.
    rewrite truthy_trim_opened; reflexivity.
  - rewrite (line_comment_open _ _ Hq Hbody). unfold finish, pushTrimmed. simpl.
    rewrite truthy_trim_opened; reflexivity.
Qed.

(** *** Counting *)

Lemma pushTrimmed_length (stmts : list string) (cur : string) :
  List.length (pushTrimmed stmts cur) <= S (List.length stmts).
Proof.
  unfold pushTrimmed. destruct (truthy (trim cur)); [|lia].
  rewrite List.length_app. simpl. lia.
Qed.

Lemma loop_statement_count (s : string) (st : SplitState) :
  List.length (statements (loop st s))
  <= List.length (statements st) + terminators st s.
Proof.
  revert s st. apply (loop_induction (fun st s =>
    List.length (statements (loop st s))
    <= List.length (statements st) + terminators st s)).
  - intros st. simpl. lia.
  - intros st st' ch rest Hstep IH. rewrite (loop_no_skip _ _ _ _ Hstep).
    simpl. rewrite Hstep.
    destruct (step_shape st ch (peek rest)) as [[He Hx] | (He & Hs & _)];
      rewrite He; cbv iota.
    + rewrite Hstep in Hx. injection Hx as Hx. subst st'.
      unfold endStatement at 2 in IH. cbn [statements] in IH.
      pose proof (pushTrimmed_length (statements st) (current st)).
      lia.
    + rewrite Hstep in Hs. simpl in Hs. rewrite Hs in IH. lia.
  - intros st st' ch n rest Hstep IH. rewrite (loop_skip _ _ _ _ _ Hstep).
    simpl. rewrite Hstep.
    destruct (step_shape st ch (Some n)) as [[He Hx] | (He & Hs & _)];
      rewrite He; cbv iota.
    + rewrite Hstep in Hx. discriminate.
    + rewrite Hstep in Hs. simpl in Hs. rewrite Hs in IH. lia.
Qed.

(** X15. The splitter returns at most one statement more than the script
    has top-level semicolons. *)
Theorem split_count_bound (sqlText : string) :
  List.length (splitSqlStatements sqlText) <= S (terminators initial sqlText).
Proof.
  unfold splitSqlStatements, finish.
  pose proof (pushTrimmed_length (statements (loop initial sqlText))
                (current (loop initial sqlText))).
  pose proof (loop_statement_count sqlText initial). simpl in *. lia.
Qed.

Lemma split_joined_statements_witness :
  splitSqlStatements (joinTerminated ["SELECT ';'"; "  "; " SELECT 2 "])
  = ["SELECT ';'"; "SELECT 2"].
Proof.
  pose proof (split_joined_statements ["SELECT ';'"; "  "; " SELECT 2 "]) as P.
  destruct P as [P _].
  - repeat constructor.
  - vm_compute in P. vm_compute. exact P.
Defined.

Lemma open_region_takes_rest_witness :
  finish (loop (append initial "SELECT ") ("'" +:+ "a;b")) = ["SELECT 'a;b"].
Proof.
  pose proof (open_region_takes_rest (append initial "SELECT ") "a;b" eq_refl)
    as [P _].
  specialize (P eq_refl). vm_compute in P. vm_compute. exact P.
Defined.

End SplitterMore.

(** ** The statements returned are single statements *)

Module SplitterFixpoint.
Import Js JsFacts Splitter SplitterFacts SplitterOrder SplitterRegions
  SplitterSegments SplitterMore.

(** *** The count of top-level semicolons depends on the flags only *)

Lemma step_flags (a b : SplitState) (ch : ascii) (next : option ascii) :
  flags a = flags b ->
  flags (fst (step a ch next)) = flags (fst (step b ch next))
  /\ snd (step a ch next) = snd (step b ch next)
  /\ endsStatement a ch = endsStatement b ch.
Proof.
  destruct a as [s1 c1 q1 d1 l1 b1], b as [s2 c2 q2 d2 l2 b2].
  unfold flags. cbn [inSingleQuote inDoubleQuote inLineComment inBlockComment].
  intros [= -> -> -> ->].
  unfold endsStatement, quiet, step, flags, endStatement, setLine, setBlock,
    setSingle, setDouble, appendNext, append.
  cbn [inSingleQuote inDoubleQuote inLineComment inBlockComment current statements].
  repeat match goal with
         | |- context [if ?c then _ else _] => destruct c
         end;
    try (destruct next); cbn; auto.
Qed.

Lemma terminators_flags (s : string) (a : SplitState) :
  forall b, flags a = flags b -> terminators a s = terminators b s.
Proof.
  revert s a. apply (loop_induction (fun a s =>
    forall b, flags a = flags b -> terminators a s = terminators b s)).
  - reflexivity.
  - intros a a' ch rest Hstep IH b Hf.
    destruct (step_flags a b ch (peek rest) Hf) as (H1 & H2 & H3).
    cbn [terminators]. rewrite Hstep in *. cbn [fst snd] in *.
    destruct (step b ch (peek rest)) as [b' skip]. cbn [fst snd] in *.
    subst skip. rewrite H3, (IH b' H1). reflexivity.
  - intros a a' ch n rest Hstep IH b Hf.
    destruct (step_flags a b ch (Some n) Hf) as (H1 & H2 & H3).
    cbn [terminators peek]. rewrite Hstep in *. cbn [fst snd] in *.
    destruct (step b ch (Some n)) as [b' skip]. cbn [fst snd] in *.
    subst skip. rewrite H3, (IH b' H1). reflexivity.
Qed.

(** *** Prefixes *)

Lemma terminators_prefix (b : string) (a : string) (st : SplitState) :
  terminators st a <= terminators st (a +:+ b).
Proof.
  revert a st. apply (loop_induction (fun st a =>
    terminators st a <= terminators st (a +:+ b))).
  - intros st. cbn [terminators]. lia.
  - intros st st' ch rest Hstep IH. rewrite append_cons.
    cbn [terminators]. rewrite Hstep.
    destruct rest as [|r rest].
    + rewrite append_empty_l. cbn [terminators].
      destruct (step st ch (peek b)) as [st2 skip2].
      destruct (endsStatement st ch); lia.
    + rewrite append_cons in *. cbn [peek] in *. rewrite Hstep. lia.
  - intros st st' ch n rest Hstep IH. rewrite !append_cons.
    cbn [terminators peek]. rewrite Hstep. lia.
Qed.

Lemma trimEnd_prefix (s : string) : exists w, s = trimEnd s +:+ w.
Proof.
  induction s as [|c s [w IH]]; [exists EmptyString; reflexivity|].
  cbn [trimEnd]. destruct (trimEnd s) as [|c' r'] eqn:E.
  - destruct (isWhiteSpace c).
    + exists (String c s). reflexivity.
    + exists s. reflexivity.
  - exists w. rewrite append_cons, <- IH. reflexivity.
Qed.

Lemma terminators_trimStart (s : string) (st : SplitState) :
  quiet st = true -> terminators st (trimStart s) = terminators st s.
Proof.
  intros Hq. induction s as [|c s IH]; [reflexivity|].
  cbn [trimStart]. destruct (isWhiteSpace c) eqn:Hw; [|reflexivity].
  rewrite IH. cbn [terminators].
  rewrite (step_quiet_plain st c (peek s) Hq (blank_neutral _ Hw)
             (blank_not_semicolon _ Hw)).
  unfold endsStatement. rewrite (blank_not_semicolon _ Hw), andb_false_r.
  apply (terminators_flags s). reflexivity.
Qed.

Lemma terminators_trim (s : string) :
  terminators initial s = 0 -> terminators initial (trim s) = 0.
Proof.
  intros Ht. unfold trim.
  destruct (trimEnd_prefix (trimStart s)) as [w Hw].
  pose proof (terminators_prefix w (trimEnd (trimStart s)) initial) as Hp.
  rewrite <- Hw, (terminators_trimStart s initial eq_refl), Ht in Hp. lia.
Qed.

Lemma pushed_statement (cur s : string) :
  terminators initial cur = 0 ->
  In s (pushTrimmed [] cur) ->
  terminators initial s = 0 /\ isStatement s.
Proof.
  intros Ht. unfold pushTrimmed.
  destruct (truthy (trim cur)) eqn:E; [|intros []].
  intros [<- | []]. split; [apply terminators_trim, Ht|].
  split; [exact E|apply trim_idempotent].
Qed.

Lemma split_members (n : nat) :
  forall sqlText s,
    String.length sqlText <= n ->
    In s (splitSqlStatements sqlText) ->
    terminators initial s = 0 /\ isStatement s.
Proof.
  induction n as [|n IH]; intros sqlText s Hlen Hin.
  - destruct sqlText; [destruct Hin|simpl in Hlen; lia].
  - destruct (Nat.eq_dec (terminators initial sqlText) 0) as [Hz | Hnz].
    + rewrite (split_no_terminator _ Hz) in Hin.
      apply (pushed_statement sqlText s Hz Hin).
    + destruct (first_terminator sqlText initial Hnz) as (seg & rest & -> & Ht & Hq).
      rewrite (split_semicolon _ _ Hq) in Hin.
      rewrite split_terminated in Hin
        by (unfold selfContained; rewrite Ht, Hq; reflexivity).
      apply List.in_app_or in Hin as [Hin | Hin].
      * apply (pushed_statement seg s Ht Hin).
      * apply (IH rest s); [|exact Hin].
        rewrite !string_length_append in Hlen. simpl in Hlen. lia.
Qed.

(** X16. Every statement the splitter returns is a single statement for
    the splitter itself: it is not empty, it is trimmed, it holds no
    top-level semicolon, and splitting it again returns it alone. So each
    text handed to the CLI is one statement, and splitting the statements
    of a script again changes nothing. *)
Theorem split_statements_are_single (sqlText s : string) :
  In s (splitSqlStatements sqlText) ->
  isStatement s
  /\ terminators initial s = 0
  /\ splitSqlStatements s = [s].
Proof.
  intros Hin.
  destruct (split_members (String.length sqlText) sqlText s (Nat.le_refl _) Hin)
    as [Ht [Hn Htrim]].
  split; [split; assumption|]. split; [exact Ht|].
  rewrite (split_no_terminator _ Ht). unfold pushTrimmed.
  rewrite Htrim, Hn. reflexivity.
Qed.

Lemma split_statements_are_single_witness :
  splitSqlStatements "SELECT ';' -- a;b" = ["SELECT ';' -- a;b"]
  /\ splitSqlStatements "x; SELECT ';' -- a;b" = ["x"; "SELECT ';' -- a;b"].
Proof.
  assert (E : splitSqlStatements "x; SELECT ';' -- a;b"
              = ["x"; "SELECT ';' -- a;b"]) by (vm_compute; reflexivity).
  split; [|exact E].
  apply (split_statements_are_single "x; SELECT ';' -- a;b").
  rewrite E. right. left. reflexivity.
Defined.

End SplitterFixpoint.

(** ** Query texts and the splitter *)

Module QueriesFacts.
Import Js JsFacts Splitter SplitterFacts SplitterOrder SplitterRegions
  SplitterSegments SplitterMore SplitterFixpoint.
Import Queries.

Lemma quotedBody_doubleChar (q : ascii) (s : string) :
  quotedBody q (doubleChar q s) = true.
Proof.
  induction s as [|a s IH]; [reflexivity|]. simpl.
  destruct (ceq a q) eqn:E; simpl.
  - rewrite !ceq_refl. exact IH.
  - rewrite E. exact IH.
Qed.

(** *** Text that the loop only accumulates *)

Lemma loop_current_bound (s : string) (st : SplitState) :
  String.length (current (loop st s)) + terminators st s
  <= String.length (current st) + String.length s.
Proof.
  revert s st. apply (loop_induction (fun st s =>
    String.length (current (loop st s)) + terminators st s
    <= String.length (current st) + String.length s)).
  - intros st. simpl. lia.
  - intros st st' ch rest Hstep IH. rewrite (loop_no_skip _ _ _ _ Hstep).
    simpl. rewrite Hstep.
    destruct (step_shape st ch (peek rest)) as [[He Hx] | (He & _ & Hc)];
      rewrite He; cbv iota.
    + rewrite Hstep in Hx. injection Hx as Hx. subst st'. simpl in IH. lia.
    + rewrite Hstep in Hc. simpl in Hc. rewrite Hc, string_length_append in IH.
      unfold consumed in IH. simpl in IH. lia.
  - intros st st' ch n rest Hstep IH. rewrite (loop_skip _ _ _ _ _ Hstep).
    simpl. rewrite Hstep.
    destruct (step_shape st ch (Some n)) as [[He Hx] | (He & _ & Hc)];
      rewrite He; cbv iota.
    + rewrite Hstep in Hx. discriminate.
    + rewrite Hstep in Hc. simpl in Hc. rewrite Hc, string_length_append in IH.
      unfold consumed in IH. simpl in IH. lia.
Qed.

(** A text that the loop, started afresh, appends whole to the
    accumulator and leaves outside quotes and comments is self-contained. *)
Lemma absorbed_selfContained (s : string) :
  loop initial s = append initial s -> selfContained s = true.
Proof.
  intros Hl. unfold selfContained. rewrite Hl. simpl. rewrite andb_true_r.
  apply Nat.eqb_eq. pose proof (loop_current_bound s initial) as Hb.
  rewrite Hl in Hb. unfold append in Hb. cbn [current] in Hb.
  rewrite string_length_append in Hb. lia.
Qed.

Lemma loop_plain (s rest : string) :
  plain s = true ->
  forall st, quiet st = true -> loop st (s +:+ rest) = loop (append st s) rest.
Proof.
  induction s as [|a s IH]; intros Hs st Hq.
  - rewrite append_empty. reflexivity.
  - simpl in Hs. apply andb_prop in Hs as [[Hn Ha]%andb_prop Hs].
    apply negb_true_iff in Ha.
    rewrite append_cons, (loop_no_skip st (append st (chr a))).
    + rewrite (IH Hs); [|exact Hq]. rewrite append_append. reflexivity.
    + apply step_quiet_plain; assumption.
Qed.

(** *** Escaped values *)

(** X17. Whatever the value, the literal made of a single quote, the
    escaped value and a single quote is read by the splitter as one quoted
    region: met outside quotes and comments and not followed by a further
    single quote, it is appended whole to the current statement and the
    scan resumes after it, so that no quote or semicolon of the value can
    end the statement; alone, it is one statement. *)
Theorem escaped_literal_is_one_region (value : string) (st : SplitState)
  (rest : string) :
  quiet st = true ->
  nextIs "'" (peek rest) = false ->
  loop st ("'" +:+ escapeLiteral value +:+ "'" +:+ rest)
  = loop (append st ("'" +:+ escapeLiteral value +:+ "'")) rest
  /\ splitSqlStatements ("'" +:+ escapeLiteral value +:+ "'")
     = ["'" +:+ escapeLiteral value +:+ "'"].
Proof.
  intros Hq Hrest. split.
  - apply single_quoted_region; [exact Hq|apply quotedBody_doubleChar|exact Hrest].
  - unfold splitSqlStatements.
    pose proof (single_quoted_region initial (escapeLiteral value) EmptyString
                  eq_refl (quotedBody_doubleChar _ _) eq_refl) as Hl.
    rewrite (append_empty_r "'") in Hl. cbn [loop] in Hl.
    rewrite Hl. unfold finish, pushTrimmed, append.
    cbn [current statements initial]. rewrite append_empty_l.
    assert (Ht : trim ("'" +:+ escapeLiteral value +:+ "'")
                 = "'" +:+ escapeLiteral value +:+ "'").
    { unfold trim. rewrite startsClean_trimStart by reflexivity.
      rewrite <- append_assoc, trimEnd_append_kept; [reflexivity|discriminate]. }
    rewrite Ht. reflexivity.
Qed.

Lemma escapeIdentifier_region (identifier : string) (st : SplitState)
  (rest : string) :
  quiet st = true ->
  nextIs DQUOTE (peek rest) = false ->
  loop st (escapeIdentifier identifier +:+ rest)
  = loop (append st (escapeIdentifier identifier)) rest.
Proof.
  intros Hq Hrest. unfold escapeIdentifier.
  rewrite !append_assoc.
  rewrite (double_quoted_region st _ rest Hq (quotedBody_doubleChar _ _) Hrest).
  reflexivity.
Qed.

(** X18. Whatever the schema and the name of a table, the qualified name
    written by [escapeTableName] is read by the splitter as two
    double-quoted regions around a dot: met outside quotes and comments and
    not followed by a further double quote, it is appended whole to the
    current statement, so that no quote or semicolon of the names can end
    the statement. *)
Theorem escaped_table_name_is_absorbed (table : Table) (st : SplitState)
  (rest : string) :
  quiet st = true ->
  nextIs DQUOTE (peek rest) = false ->
  loop st (escapeTableName table +:+ rest)
  = loop (append st (escapeTableName table)) rest
  /\ selfContained (escapeTableName table) = true.
Proof.
  assert (Hgen : forall st0 rest0, quiet st0 = true ->
            nextIs DQUOTE (peek rest0) = false ->
            loop st0 (escapeTableName table +:+ rest0)
            = loop (append st0 (escapeTableName table)) rest0).
  { intros st0 rest0 Hq Hrest. unfold escapeTableName.
    rewrite !append_assoc.
    rewrite (escapeIdentifier_region _ st0
               ("." +:+ escapeIdentifier (resolveTableName table) +:+ rest0)
               Hq eq_refl).
    change ("." +:+ escapeIdentifier (resolveTableName table) +:+ rest0)
      with (String "."%char (escapeIdentifier (resolveTableName table) +:+ rest0)).
    rewrite (loop_no_skip _ (append (append st0 (escapeIdentifier
                                       (resolveTableSchema table))) ".")).
    - rewrite (escapeIdentifier_region (resolveTableName table)
                 (append (append st0 (escapeIdentifier (resolveTableSchema table)))
                    ".") rest0 Hq Hrest).
      rewrite !append_append. reflexivity.
    - apply step_quiet_plain; [exact Hq|reflexivity|reflexivity]. }
  intros Hq Hrest. split; [apply Hgen; assumption|].
  apply absorbed_selfContained.
  rewrite <- (append_empty_r (escapeTableName table)) at 1.
  rewrite (Hgen initial EmptyString eq_refl eq_refl). reflexivity.
Qed.

(** *** The table filter *)

Lemma quotedLabel_region (t : Table) (st : SplitState) (rest : string) :
  quiet st = true ->
  nextIs "'" (peek rest) = false ->
  loop st (quotedLabel t +:+ rest) = loop (append st (quotedLabel t)) rest.
Proof.
  intros Hq Hrest. unfold quotedLabel. rewrite !append_assoc.
  apply single_quoted_region; [exact Hq|apply quotedBody_doubleChar|exact Hrest].
Qed.

Lemma joined_labels_region (ts : list Table) :
  ts <> [] ->
  forall (st : SplitState) (rest : string),
  quiet st = true ->
  nextIs "'" (peek rest) = false ->
  loop st (join ", " (List.map quotedLabel ts) +:+ rest)
  = loop (append st (join ", " (List.map quotedLabel ts))) rest.
Proof.
  induction ts as [|t ts IH]; [congruence|]. intros _ st rest Hq Hrest.
  destruct ts as [|t' ts].
  - cbn [List.map join]. apply quotedLabel_region; assumption.
  - change (join ", " (List.map quotedLabel (t :: t' :: ts)))
      with (quotedLabel t +:+ ", " +:+ join ", " (List.map quotedLabel (t' :: ts))).
    set (J := join ", " (List.map quotedLabel (t' :: ts))) in *.
    rewrite !append_assoc.
    rewrite (quotedLabel_region t st (", " +:+ J +:+ rest) Hq eq_refl).
    rewrite (loop_plain ", " (J +:+ rest) eq_refl (append st (quotedLabel t)) Hq).
    rewrite (IH ltac:(discriminate) (append (append st (quotedLabel t)) ", ")
               rest Hq Hrest).
    rewrite !append_append. reflexivity.
Qed.

(** X19. Whatever the labels of the tables, the filter written by
    [filterTableList] cannot end the statement it is inserted in: met by the
    splitter outside quotes and comments, it is appended whole to the
    current statement and the scan resumes after it, outside quotes and
    comments; and it is empty exactly when no table has a non-empty
    label. *)
Theorem table_filter_is_absorbed (tables : list Table) (st : SplitState)
  (rest : string) :
  quiet st = true ->
  loop st (filterTableList tables +:+ rest)
  = loop (append st (filterTableList tables)) rest
  /\ (filterTableList tables = EmptyString
      <-> Forall (fun t => truthy (opt_or_empty (label t)) = false) tables).
Proof.
  intros Hq. unfold filterTableList.
  destruct (List.filter _ tables) as [|t ts] eqn:Ef.
  - split; [rewrite append_empty_l, append_empty; reflexivity|].
    split; [intros _|reflexivity].
    apply List.Forall_forall. intros x Hx.
    destruct (truthy (opt_or_empty (label x))) eqn:E; [|reflexivity].
    assert (Hin : In x (List.filter (fun t => truthy (opt_or_empty (label t)))
                          tables))
      by (apply List.filter_In; split; assumption).
    rewrite Ef in Hin. destruct Hin.
  - split.
    + set (J := join ", " (List.map quotedLabel (t :: ts))).
      rewrite !append_assoc.
      rewrite (loop_plain "AND LOWER(C.table_name) IN (" (J +:+ ")" +:+ rest)
                 eq_refl st Hq).
      unfold J.
      rewrite (joined_labels_region (t :: ts) ltac:(discriminate)
                 (append st "AND LOWER(C.table_name) IN (") (")" +:+ rest)
                 Hq eq_refl).
      fold J.
      rewrite (loop_plain ")" rest eq_refl
                 (append (append st "AND LOWER(C.table_name) IN (") J) Hq).
      rewrite !append_append. reflexivity.
    + split; [discriminate|]. intros Hall.
      assert (Hin : In t (List.filter (fun t => truthy (opt_or_empty (label t)))
                            tables)) by (rewrite Ef; left; reflexivity).
      apply List.filter_In in Hin as [Hin Ht].
      rewrite List.Forall_forall in Hall. rewrite (Hall t Hin) in Ht.
      discriminate.
Qed.

Import Demo.

Lemma escaped_literal_is_one_region_witness :
  loop initial ("'" +:+ escapeLiteral "it's; x" +:+ "'" +:+ "; SELECT 2")
  = loop (append initial "'it''s; x'") "; SELECT 2"
  /\ splitSqlStatements ("'" +:+ escapeLiteral "it's; x" +:+ "'")
     = ["'it''s; x'"].
Proof.
  pose proof (escaped_literal_is_one_region "it's; x" initial "; SELECT 2"
                eq_refl eq_refl) as [P Q].
  split; [vm_compute in P; vm_compute; exact P
         |vm_compute in Q; vm_compute; exact Q].
Defined.

Lemma escaped_table_name_is_absorbed_witness :
  loop initial (escapeTableName oddTable +:+ " LIMIT 1")
  = loop (append initial (escapeTableName oddTable)) " LIMIT 1"
  /\ selfContained (escapeTableName oddTable) = true.
Proof.
  apply (escaped_table_name_is_absorbed oddTable initial " LIMIT 1");
    reflexivity.
Defined.

Lemma table_filter_is_absorbed_witness :
  loop initial (filterTableList [oddTable; unnamedTable] +:+ "; SELECT 2")
  = loop (append initial (filterTableList [oddTable; unnamedTable]))
      "; SELECT 2"
  /\ (filterTableList [oddTable; unnamedTable] = EmptyString
      <-> Forall (fun t => truthy (opt_or_empty (Queries.label t)) = false)
            [oddTable; unnamedTable]).
Proof.
  apply (table_filter_is_absorbed [oddTable; unnamedTable] initial "; SELECT 2").
  reflexivity.
Defined.

End QueriesFacts.

(** ** The keys of the index and the decoding of parameter lists *)

Module CompletionMore.
Import Js JsFacts Completion CompletionFacts IndexFacts.

(** *** Parameter lists written as JSON text *)












Section Synthesizer.
Context `{Builtins}.

(** *** The keys of the index *)

Lemma normalize_identifier (value : JsValue) (label : string) :
  normalizeCompletionLabel value = Some label -> isIdentifier label = true.
Proof.
  unfold normalizeCompletionLabel.
  destruct (truthy _); cbn [negb]; [|discriminate].
  destruct (isIdentifier _) eqn:E; cbn [negb]; [|discriminate].
  intros [= <-]. exact E.
Qed.

Lemma addKeywordCompletions_wellKeyed (items : list JsValue)
  (completions : gmap string NSDatabase.IStaticCompletion) :
  wellKeyed completions -> wellKeyed (addKeywordCompletions items completions).
Proof.
  intros Hw key entry Hl.
  destruct (addKeywordCompletions_lookup _ _ _ _ Hl)
    as [[(item & _ & Hn) [category ->]] | Hprev].
  - split; [exact (normalize_identifier _ _ Hn)|]. split; reflexivity.
  - exact (Hw _ _ Hprev).
Qed.

Lemma addFunctionCompletions_wellKeyed (items : list FunctionRow.t)
  (completions : gmap string NSDatabase.IStaticCompletion) :
  wellKeyed completions -> wellKeyed (addFunctionCompletions items completions).
Proof.
  intros Hw key entry. rewrite addFunctionCompletions_lookup.
  destruct (mapGet key (groupRows items)) as [meta|] eqn:Hg; [|apply Hw].
  destruct (completions !! key) as [existing|] eqn:Hc; intros [= <-].
  - exact (Hw _ _ Hc).
  - apply mapGet_Some_in, groupRows_keys in Hg as (item & _ & Hn).
    split; [exact (normalize_identifier _ _ Hn)|]. split; reflexivity.
Qed.

(** X21. The index built from keyword rows and function rows over an
    index keyed by identifiers is keyed by identifiers: every entry is
    stored under its own label, which matches [A-Z_][A-Z0-9_]* and is also
    its filter text. A label is present exactly when it was present
    before or a keyword row or a function row normalizes to it; rows whose
    label is empty or is not an identifier add nothing. *)
Theorem index_is_keyed_by_identifiers (keywords : list JsValue)
  (functions : list FunctionRow.t)
  (completions : gmap string NSDatabase.IStaticCompletion) :
  let index :=
    addFunctionCompletions functions (addKeywordCompletions keywords completions) in
  wellKeyed completions ->
  wellKeyed index
  /\ forall key,
       is_Some (index !! key)
       <-> is_Some (completions !! key)
           \/ keywordLabel keywords key
           \/ exists item, In item functions /\ rowLabel item = Some key.
Proof.
  cbn zeta. intros Hw. split.
  - apply addFunctionCompletions_wellKeyed, addKeywordCompletions_wellKeyed, Hw.
  - intros key. rewrite addFunctionCompletions_lookup.
    destruct (mapGet key (groupRows functions)) as [meta|] eqn:Hg.
    + split; [intros _|eauto].
      right. right. apply groupRows_keys, (mapGet_Some_in _ _ _ Hg).
    + apply mapGet_None in Hg. rewrite groupRows_keys in Hg. split.
      * intros [entry Hl].
        destruct (addKeywordCompletions_lookup _ _ _ _ Hl) as [[Hk _] | Hprev];
          eauto.
      * intros [Hs | [Hk | Hf]]; [| |contradiction].
        -- apply addKeywordCompletions_present. auto.
        -- apply addKeywordCompletions_present. auto.
Qed.

End Synthesizer.

Import Demo.

Lemma index_is_keyed_by_identifiers_witness :
  wellKeyed (addFunctionCompletions absRows (addKeywordCompletions keywordRows ∅))
  /\ is_Some (addFunctionCompletions absRows (addKeywordCompletions keywordRows ∅)
              !! "ABS").
Proof.
  destruct (index_is_keyed_by_identifiers keywordRows absRows ∅) as [P Q].
  - intros key entry Hl. rewrite lookup_empty in Hl. discriminate.
  - split; [exact P|]. apply Q. right. right.
    exists (functionRow "abs" ["x"]). split; [left; reflexivity|].
    vm_compute. reflexivity.
Defined.

End CompletionMore.
